(** * coastermelt: the ARM assembly interpreter and its memory proxy

    A shallow embedding of [backdoor/sim_arm_core.py] (the simulator core:
    shift primitives, run encoder, memory proxy, operand parser, operation
    factories, condition-code decorator, step driver) and of the parts of the
    earlier [backdoor/sim_arm.py] that the properties below refer to.

    Python integers are unbounded, so they are [Z]; every mask the source
    applies is written out.  Python objects that are mutated in place are
    threaded through a state-and-exception monad in which the state survives
    a raised exception, as it does in Python. *)

From Stdlib Require Import ZArith Lia Strings.String Strings.Ascii Strings.Byte.
From stdpp Require Import gmap strings list.

Open Scope Z_scope.

(** ** Exceptions and the execution monad *)

(** The exceptions the embedded code can raise.  [RemoteError] stands for
    whatever an external collaborator (transport, console buffer, a user
    hook) raises; the code is an opaque tag. *)
Inductive exn : Type :=
| IndexError (what : Z)
| KeyError
| ValueError
| TypeError
| AssertionError
| AttributeError (name : string)
| StructError
| RemoteError (code : Z).

(** Outcome of running a piece of Python on a mutable object of type [S]:
    the object as it is left behind is part of both outcomes. *)
Inductive Res (S A : Type) : Type :=
| Ok (a : A) (s : S)
| Raise (e : exn) (s : S).
Arguments Ok {S A} a s.
Arguments Raise {S A} e s.

Definition M (S A : Type) : Type := S -> Res S A.

Definition ret {S A} (a : A) : M S A := fun s => Ok a s.
Definition raise {S A} (e : exn) : M S A := fun s => Raise e s.
Definition bind {S A B} (c : M S A) (k : A -> M S B) : M S B :=
  fun s => match c s with
           | Ok a s' => k a s'
           | Raise e s' => Raise e s'
           end.
Definition gets {S A} (f : S -> A) : M S A := fun s => Ok (f s) s.
Definition modify {S} (f : S -> S) : M S unit := fun s => Ok tt (f s).

(** [try c except: h; raise] *)
Definition try_reraise {S A} (c : M S A) (h : S -> S) : M S A :=
  fun s => match c s with
           | Ok a s' => Ok a s'
           | Raise e s' => Raise e (h s')
           end.

(** A computation that can only fail before touching the object. *)
Definition of_sum {S A} (r : exn + A) : M S A :=
  match r with inl e => raise e | inr a => ret a end.

Notation "x <- c ;; k" := (bind c (fun x => k))
  (at level 100, c at next level, right associativity).
Notation "c ;; k" := (bind c (fun _ => k))
  (at level 100, right associativity).

Definition final {S A} (r : Res S A) : S :=
  match r with Ok _ s => s | Raise _ s => s end.

Definition raised {S A} (r : Res S A) : option exn :=
  match r with Ok _ _ => None | Raise e _ => Some e end.

(** Run a computation on a component [get s] of a larger object. *)
Definition zoom {S T A} (get : S -> T) (set : T -> S -> S) (c : M T A) : M S A :=
  fun s => match c (get s) with
           | Ok a t => Ok a (set t s)
           | Raise e t => Raise e (set t s)
           end.

(** ** Shift and rotate primitives (module level functions) *)

Definition lsl (a b : Z) : Z * Z :=
  let b := Z.land b 31 in
  if negb (b =? 0) then (Z.shiftl a b, Z.land 1 (Z.shiftr (Z.shiftl a b) 32))
  else (a, 0).

Definition lsr (a b : Z) : Z * Z :=
  let b := Z.land b 31 in
  if negb (b =? 0) then (Z.shiftr a b, Z.land 1 (Z.shiftr a (b - 1)))
  else (a, 0).

Definition asr (a b : Z) : Z * Z :=
  let b := Z.land b 31 in
  if negb (b =? 0) then
    let a := if negb (Z.land a 0x80000000 =? 0)
             then Z.lor a 0xffffffff00000000 else a in
    (Z.shiftr a b, Z.land 1 (Z.shiftr a (b - 1)))
  else (a, 0).

Definition ror (a b : Z) : Z * Z :=
  let b := Z.land b 31 in
  if negb (b =? 0) then
    (Z.lor (Z.shiftr a b) (Z.land (Z.shiftl a (32 - b)) 0xffffffff),
     Z.land 1 (Z.shiftr a (b - 1)))
  else (a, 0).

Definition rol (a b : Z) : Z * Z :=
  let b := Z.land b 31 in
  if negb (b =? 0) then
    (Z.lor (Z.shiftr a (32 - b)) (Z.land (Z.shiftl a b) 0xffffffff),
     Z.land 1 (Z.shiftr a (31 - b)))
  else (a, 0).

Definition rrx (a b carry : Z) : Z * Z :=
  let b := Z.land b 31 in
  let a := Z.lor (Z.land a 0xffffffff) (Z.shiftl (Z.land carry 1) 32) in
  let a := Z.lor (Z.shiftr a b) (Z.shiftl a (33 - b)) in
  (Z.land a 0xffffffff, Z.land 1 (Z.shiftr a 32)).

(** ** RunEncoder *)

Module RunEncoder.

(** [key] is the tuple [(address, pattern, size)]; [None] is the source's
    [(None, None, None)]. *)
Record t : Type := mk { count : Z; key : option (Z * Z * Z) }.

Definition init : t := {| count := 0; key := None |}.

Definition key_eqb (k : option (Z * Z * Z)) (a p s : Z) : bool :=
  match k with
  | Some (a', p', s') => (a' =? a) && (p' =? p) && (s' =? s)
  | None => false
  end.

(** Both operations return the tuple [(count, address, pattern, size)],
    here as the count and the key. *)
Definition flush (e : t) : (Z * option (Z * Z * Z)) * t :=
  ((count e, key e), init).

Definition write (address pattern size : Z) (e : t)
  : (Z * option (Z * Z * Z)) * t :=
  if key_eqb (key e) (address - count e * size) pattern size then
    ((0, None), {| count := count e + 1; key := key e |})
  else
    let '(r, _) := flush e in
    (r, {| count := 1; key := Some (address, pattern, size) |}).

End RunEncoder.

(** ** io.BytesIO

    The two local streams are seeked to target addresses (tens of megabytes
    in), so the buffer is kept as its length and its non-padding cells: the
    byte at offset [i < len] is [cell !! i], or zero where a seek past the
    end made the stream pad. *)

Module BytesIO.

Record t : Type := mk { len : Z; cell : gmap Z byte; pos : Z }.

Definition init : t := {| len := 0; cell := ∅; pos := 0 |}.

Definition byte_at (f : t) (i : Z) : byte := default x00 (cell f !! i).

Definition seek (p : Z) : M t unit := fun f =>
  if p <? 0 then Raise ValueError f
  else Ok tt {| len := len f; cell := cell f; pos := p |}.

(** [read(n)]: what is left of the buffer, at most [n] bytes; all of it
    when [n] is negative. *)
Definition read (n : Z) : M t (list byte) := fun f =>
  let k := if n <? 0 then Z.max 0 (len f - pos f)
           else Z.max 0 (Z.min n (len f - pos f)) in
  Ok (byte_at f <$> seqZ (pos f) k)
     {| len := len f; cell := cell f; pos := pos f + k |}.

Fixpoint put (c : gmap Z byte) (p : Z) (bs : list byte) : gmap Z byte :=
  match bs with
  | [] => c
  | b :: bs' => put (<[p := b]> c) (p + 1) bs'
  end.

(** [write(b)]: an empty write returns before anything is resized. *)
Definition write (bs : list byte) : M t unit := fun f =>
  match bs with
  | [] => Ok tt f
  | _ => let e := pos f + Z.of_nat (length bs) in
         Ok tt {| len := Z.max (len f) e; cell := put (cell f) (pos f) bs; pos := e |}
  end.

(** [getvalue()] *)
Definition getvalue (f : t) : list byte := byte_at f <$> seqZ 0 (len f).

End BytesIO.

(** ** struct.pack / struct.unpack, little endian *)

Definition byte_of_Z (z : Z) : byte :=
  default x00 (Byte.of_N (Z.to_N (z mod 256))).

Definition Z_of_byte (b : byte) : Z := Z.of_N (Byte.to_N b).

Fixpoint le_bytes (n : nat) (z : Z) : list byte :=
  match n with
  | O => []
  | S n' => byte_of_Z z :: le_bytes n' (Z.shiftr z 8)
  end.

Fixpoint le_value (bs : list byte) : Z :=
  match bs with
  | [] => 0
  | b :: bs' => Z_of_byte b + 256 * le_value bs'
  end.

(** [struct.pack('<I', v)], [struct.pack('<H', v)]: out of range is an error. *)
Definition struct_pack (n : nat) (v : Z) : exn + list byte :=
  if (0 <=? v) && (v <? 2 ^ (8 * Z.of_nat n)) then inr (le_bytes n v)
  else inl StructError.

(** [struct.unpack(fmt, b)[0]]: a short buffer is an error. *)
Definition struct_unpack (n : nat) (bs : list byte) : exn + Z :=
  if (length bs =? n)%nat then inr (le_value bs) else inl StructError.

(** [bytes([v])] *)
Definition bytes_of_int (v : Z) : exn + list byte :=
  if (0 <=? v) && (v <? 256) then inr [byte_of_Z v] else inl ValueError.

(** [ord(b)] of a bytes object: defined on length one only. *)
Definition ord (bs : list byte) : exn + Z :=
  match bs with
  | [b] => inr (Z_of_byte b)
  | _ => inl TypeError
  end.

(** ** Instruction records and the external collaborators *)

(** A line of disassembly as the toolchain hands it over. *)
Record Line : Type := { l_address : Z; l_op : string; l_args : string }.

(** An instruction as it sits in the instruction cache: [_load_assembly]
    adds [next_address] and [hle].  The [opfunc] attribute memoises the
    result of a factory that depends on the record alone, so it is not
    stored. *)
Record Instr : Type := {
  address : Z;
  next_address : Z;
  op : string;
  args : string;
  hle : option string
}.

(** Calls on the transport port and on the console buffer built over it. *)
Inductive DevCall : Type :=
| peek (a : Z)
| poke (a v : Z)
| peek_byte (a : Z)
| poke_byte (a v : Z)
| fill_words (a p c : Z)
| fill_bytes (a p c : Z)
| read_block (a size : Z) (max_round_trips : option Z)
| blx (entry r0 : Z)
| console_discard
| console_read.

(** The remote device: what it answers to a call, given the calls it has
    received so far.  Any call may fail. *)
Record Device : Type := {
  dev_raises : list DevCall -> DevCall -> option exn;
  dev_int : list DevCall -> DevCall -> Z;
  dev_bytes : list DevCall -> DevCall -> list byte
}.

(** [==] on bytes objects. *)
Fixpoint bytes_eqb (x y : list byte) : bool :=
  match x, y with
  | [], [] => true
  | a :: x', b :: y' => Byte.eqb a b && bytes_eqb x' y'
  | _, _ => false
  end.

(** Python list slice [l[:k]]. *)
Definition slice_to {A} (k : Z) (l : list A) : list A :=
  if k <? 0 then take (Z.to_nat (Z.of_nat (length l) + k)) l
  else take (Z.to_nat k) l.

(** [b.find(x)]: index of the first occurrence, or -1. *)
Fixpoint find_byte (x : byte) (l : list byte) : Z :=
  match l with
  | [] => -1
  | b :: l' => if Byte.eqb b x then 0
               else let r := find_byte x l' in if r <? 0 then -1 else r + 1
  end.

(** ['%08x' % n]: lower-case hexadecimal, zero-padded to eight columns, the
    sign of a negative number taking one of them. *)
Definition hex_digit (d : Z) : ascii :=
  if d <? 10 then ascii_of_nat (Z.to_nat (48 + d))
  else ascii_of_nat (Z.to_nat (87 + d)).

Fixpoint hex_digits (fuel : nat) (n : Z) (acc : string) : string :=
  match fuel with
  | O => acc
  | S fuel' =>
      if n <? 16 then String (hex_digit n) acc
      else hex_digits fuel' (n / 16) (String (hex_digit (n mod 16)) acc)
  end.

Definition hex (n : Z) : string :=
  hex_digits (S (Z.to_nat (Z.log2 n))) n EmptyString.

Fixpoint zeros (k : nat) (s : string) : string :=
  match k with
  | O => s
  | S k' => String "0" (zeros k' s)
  end.

Definition zfill (width : nat) (s : string) : string :=
  zeros (width - String.length s) s.

Definition format_08x (n : Z) : string :=
  if n <? 0 then String "-" (zfill 7 (hex (- n))) else zfill 8 (hex n).

(** ** SimARMMemory: the memory proxy *)

Module SimARMMemory.

(** [transport_log] is the history of calls made on [device], oldest
    first; it is what the device has observed.  Each call is paired with
    [rle.count] at the moment it was made (a ghost annotation: the source
    keeps no such record).  User hooks are callables; the table holds a
    handle that the step driver resolves. *)
Record t : Type := mk {
  device : Device;
  transport_log : list (DevCall * Z);
  instructions : gmap Z Instr;
  skip_stores : gmap Z string;
  patch_notes : gmap Z string;
  patch_hle : gmap Z string;
  hle_handlers : gmap string string;
  hooks : gmap Z nat;
  local_addresses : BytesIO.t;
  local_data : BytesIO.t;
  rle : RunEncoder.t;
  hle_symbols : gmap string Z
}.

Definition init (d : Device) : t :=
  {| device := d; transport_log := []; instructions := ∅; skip_stores := ∅;
     patch_notes := ∅; patch_hle := ∅; hle_handlers := ∅; hooks := ∅;
     local_addresses := BytesIO.init; local_data := BytesIO.init;
     rle := RunEncoder.init; hle_symbols := ∅ |}.

Definition set_transport_log (v : list (DevCall * Z)) (m : t) : t :=
  mk (device m) v (instructions m) (skip_stores m) (patch_notes m)
     (patch_hle m) (hle_handlers m) (hooks m) (local_addresses m)
     (local_data m) (rle m) (hle_symbols m).
Definition set_instructions (v : gmap Z Instr) (m : t) : t :=
  mk (device m) (transport_log m) v (skip_stores m) (patch_notes m)
     (patch_hle m) (hle_handlers m) (hooks m) (local_addresses m)
     (local_data m) (rle m) (hle_symbols m).
Definition set_skip_stores (v : gmap Z string) (m : t) : t :=
  mk (device m) (transport_log m) (instructions m) v (patch_notes m)
     (patch_hle m) (hle_handlers m) (hooks m) (local_addresses m)
     (local_data m) (rle m) (hle_symbols m).
Definition set_hooks (v : gmap Z nat) (m : t) : t :=
  mk (device m) (transport_log m) (instructions m) (skip_stores m)
     (patch_notes m) (patch_hle m) (hle_handlers m) v (local_addresses m)
     (local_data m) (rle m) (hle_symbols m).
Definition set_local_addresses (v : BytesIO.t) (m : t) : t :=
  mk (device m) (transport_log m) (instructions m) (skip_stores m)
     (patch_notes m) (patch_hle m) (hle_handlers m) (hooks m) v
     (local_data m) (rle m) (hle_symbols m).
Definition set_local_data (v : BytesIO.t) (m : t) : t :=
  mk (device m) (transport_log m) (instructions m) (skip_stores m)
     (patch_notes m) (patch_hle m) (hle_handlers m) (hooks m)
     (local_addresses m) v (rle m) (hle_symbols m).
Definition set_rle (v : RunEncoder.t) (m : t) : t :=
  mk (device m) (transport_log m) (instructions m) (skip_stores m)
     (patch_notes m) (patch_hle m) (hle_handlers m) (hooks m)
     (local_addresses m) (local_data m) v (hle_symbols m).

(** The two streams, as sub-objects. *)
Definition addresses {A} : M BytesIO.t A -> M t A :=
  zoom local_addresses set_local_addresses.
Definition data {A} : M BytesIO.t A -> M t A :=
  zoom local_data set_local_data.

(** A call on [self.device]: the device sees it, then answers or fails. *)
Definition device_call (c : DevCall) : M t unit := fun m =>
  let h := transport_log m in
  let m' := set_transport_log (h ++ [(c, RunEncoder.count (rle m))]) m in
  match dev_raises (device m) (h.*1) c with
  | Some e => Raise e m'
  | None => Ok tt m'
  end.

Definition device_int (c : DevCall) : M t Z := fun m =>
  (device_call c ;; ret (dev_int (device m) ((transport_log m).*1) c)) m.

Definition device_bytes (c : DevCall) : M t (list byte) := fun m =>
  (device_call c ;; ret (dev_bytes (device m) ((transport_log m).*1) c)) m.

Definition skip (address : Z) (reason : string) : M t unit :=
  modify (fun m => set_skip_stores (<[address := reason]> (skip_stores m)) m).

Definition hook (address : Z) (fn : nat) : M t unit :=
  modify (fun m => set_hooks (<[Z.land address (Z.lnot 1) := fn]> (hooks m)) m).

(** [save_state] writes the two streams out; the files are the result. *)
Definition save_state : M t (list byte * list byte) :=
  gets (fun m => (BytesIO.getvalue (local_addresses m),
                  BytesIO.getvalue (local_data m))).

Definition local_ram (begin end_ : Z) : M t unit :=
  addresses (BytesIO.seek begin) ;;
  addresses (BytesIO.write (replicate (Z.to_nat (end_ - begin + 1)) xff)).

(** The log sink ([logfile], off by default) only receives text; it is not
    part of the modelled state. *)
Definition log_store (address data_ : Z) : M t unit := ret tt.
Definition log_fill (address pattern count : Z) : M t unit := ret tt.
Definition log_load (address data_ : Z) : M t unit := ret tt.
Definition log_prefetch (address : Z) : M t unit := ret tt.

Definition check_address (address : Z) : M t unit :=
  if address >=? 0x05000000 then raise (IndexError address) else ret tt.

(** The [while count > 0] loop of [post_rle_store]. *)
Fixpoint store_each (n : nat) (address pattern size : Z) : M t unit :=
  match n with
  | O => ret tt
  | S n' =>
      check_address address ;;
      (if size =? 4 then
         log_store address pattern ;;
         device_call (poke address pattern)
       else if size =? 2 then
         log_store address pattern ;;
         device_call (poke_byte address (Z.land pattern 0xff)) ;;
         device_call (poke_byte (address + 1) (Z.shiftr pattern 8))
       else if size =? 1 then
         log_store address pattern ;;
         device_call (poke_byte address pattern)
       else raise AssertionError) ;;
      store_each n' (address + size) pattern size
  end.

(** With the key [(None, None, None)] both size tests are false, and a
    positive count would compare [None] with a number. *)
Definition post_rle_store (r : Z * option (Z * Z * Z)) : M t unit :=
  let '(count, k) := r in
  match k with
  | None => if count >? 0 then raise TypeError else ret tt
  | Some (address, pattern, size) =>
      if (count >? 1) && (size =? 4) then
        check_address address ;;
        log_fill address pattern count ;;
        device_call (fill_words address pattern count)
      else if (count >? 1) && (size =? 1) then
        check_address address ;;
        log_fill address pattern count ;;
        device_call (fill_bytes address pattern count)
      else store_each (Z.to_nat count) address pattern size
  end.

Definition rle_flush : M t (Z * option (Z * Z * Z)) := fun m =>
  let '(r, e) := RunEncoder.flush (rle m) in Ok r (set_rle e m).

Definition rle_write (address pattern size : Z) : M t (Z * option (Z * Z * Z)) :=
  fun m => let '(r, e) := RunEncoder.write address pattern size (rle m) in
           Ok r (set_rle e m).

Definition flush : M t unit :=
  r <- rle_flush ;; post_rle_store r.

Definition fetch_local_data (address size : Z) (max_round_trips : option Z) : M t Z :=
  block <- device_bytes (read_block address size max_round_trips) ;;
  local_ram address (address + Z.of_nat (length block) - 1) ;;
  data (BytesIO.seek address) ;;
  data (BytesIO.write block) ;;
  ret (Z.of_nat (length block)).

Definition local_data_available (address limit : Z) : M t Z :=
  addresses (BytesIO.seek address) ;;
  flags <- addresses (BytesIO.read limit) ;;
  ret (Z.of_nat (length (slice_to (find_byte x00 flags) flags))).

Definition flash_prefetch_hint (address : Z) : M t Z :=
  avail <- local_data_available address 0x100 ;;
  if (address <? 0x200000) && (avail <? 8) then
    flush ;;
    log_prefetch address ;;
    fetch_local_data address 0x100 (Some 1)
  else ret avail.

(** [self.local_addresses.seek(address)] followed by
    [self.local_addresses.read(n) == b'\xff' * n]. *)
Definition all_present (address : Z) (n : nat) : M t bool :=
  addresses (BytesIO.seek address) ;;
  flags <- addresses (BytesIO.read (Z.of_nat n)) ;;
  ret (bytes_eqb flags (replicate n xff)).

Definition load (address : Z) : M t Z :=
  flash_prefetch_hint address ;;
  local_ <- all_present address 4 ;;
  if local_ then
    data (BytesIO.seek address) ;;
    bs <- data (BytesIO.read 4) ;;
    of_sum (struct_unpack 4 bs)
  else
    flush ;;
    d <- device_int (peek address) ;;
    log_load address d ;;
    check_address address ;;
    ret d.

Definition load_half (address : Z) : M t Z :=
  flash_prefetch_hint address ;;
  local_ <- all_present address 2 ;;
  if local_ then
    data (BytesIO.seek address) ;;
    bs <- data (BytesIO.read 2) ;;
    of_sum (struct_unpack 2 bs)
  else
    flush ;;
    lo <- device_int (peek_byte address) ;;
    hi <- device_int (peek_byte (address + 1)) ;;
    let d := Z.lor lo (Z.shiftl hi 8) in
    log_load address d ;;
    check_address address ;;
    ret d.

Definition load_byte (address : Z) : M t Z :=
  flash_prefetch_hint address ;;
  local_ <- all_present address 1 ;;
  if local_ then
    data (BytesIO.seek address) ;;
    bs <- data (BytesIO.read 1) ;;
    of_sum (ord bs)
  else
    flush ;;
    d <- device_int (peek_byte address) ;;
    log_load address d ;;
    check_address address ;;
    ret d.

(** What the three stores do once the address is not locally resolved. *)
Definition store_remote (address data_ size : Z) : M t unit :=
  reason <- gets (fun m => skip_stores m !! address) ;;
  match reason with
  | Some _ => log_store address data_
  | None => r <- rle_write address data_ size ;; post_rle_store r
  end.

Definition store (address data_ : Z) : M t unit :=
  local_ <- all_present address 4 ;;
  if local_ then
    data (BytesIO.seek address) ;;
    bs <- of_sum (struct_pack 4 data_) ;;
    data (BytesIO.write bs)
  else store_remote address data_ 4.

Definition store_half (address data_ : Z) : M t unit :=
  local_ <- all_present address 2 ;;
  if local_ then
    data (BytesIO.seek address) ;;
    bs <- of_sum (struct_pack 2 data_) ;;
    data (BytesIO.write bs)
  else store_remote address data_ 2.

Definition store_byte (address data_ : Z) : M t unit :=
  local_ <- all_present address 1 ;;
  if local_ then
    data (BytesIO.seek address) ;;
    bs <- of_sum (bytes_of_int data_) ;;
    data (BytesIO.write bs)
  else store_remote address data_ 1.

(** [thumb | (address & ~1)] *)
Definition icache_key (address : Z) (thumb : bool) : Z :=
  Z.lor (Z.b2z thumb) (Z.land address (Z.lnot 1)).

Fixpoint _load_assembly (address : Z) (lines : list Line) (thumb : bool) (m : t) : t :=
  match lines with
  | l :: rest =>
      match rest with
      | l' :: _ =>
          let addr := icache_key (l_address l) thumb in
          let instr := {| address := l_address l; next_address := l_address l';
                          op := l_op l; args := l_args l;
                          hle := patch_hle m !! addr |} in
          _load_assembly address rest thumb
            (match instructions m !! addr with
             | Some _ => m
             | None => set_instructions (<[addr := instr]> (instructions m)) m
             end)
      | [] => m
      end
  | [] => m
  end.

Section Toolchain.

(** [disassembly_lines(disassemble_string(data, address, thumb=thumb))],
    from the external toolchain. *)
Variable disassembly : list byte -> Z -> bool -> exn + list Line.

Definition _load_instruction (address : Z) (thumb : bool) : M t unit :=
  flush ;;
  block_size <- flash_prefetch_hint address ;;
  (if block_size >=? 8 then ret tt else raise AssertionError) ;;
  data (BytesIO.seek address) ;;
  d <- data (BytesIO.read block_size) ;;
  lines <- of_sum (disassembly d address thumb) ;;
  modify (_load_assembly address lines thumb).

Definition cached (address : Z) (thumb : bool) : M t Instr :=
  i <- gets (fun m => instructions m !! icache_key address thumb) ;;
  match i with
  | Some instr => ret instr
  | None => raise KeyError
  end.

Definition fetch (address : Z) (thumb : bool) : M t Instr :=
  i <- gets (fun m => instructions m !! icache_key address thumb) ;;
  match i with
  | Some instr => ret instr
  | None =>
      check_address address ;;
      _load_instruction address thumb ;;
      cached address thumb
  end.

End Toolchain.

(** [hle_invoke]: the console buffer is drained, the handler runs on the
    device, the console output is read back for the log. *)
Definition hle_invoke (instruction : Instr) (r0 : Z) : M t Z :=
  device_call console_discard ;;
  sym <- gets (fun m => match hle instruction with
                        | Some name => hle_symbols m !! name
                        | None => None
                        end) ;;
  match sym with
  | None => raise KeyError
  | Some entry =>
      r0' <- device_int (blx entry r0) ;;
      device_bytes console_read ;;
      ret r0'
  end.

Definition set_patch_notes (v : gmap Z string) (m : t) : t :=
  mk (device m) (transport_log m) (instructions m) (skip_stores m) v
     (patch_hle m) (hle_handlers m) (hooks m) (local_addresses m)
     (local_data m) (rle m) (hle_symbols m).
Definition set_patch_hle (v : gmap Z string) (m : t) : t :=
  mk (device m) (transport_log m) (instructions m) (skip_stores m)
     (patch_notes m) v (hle_handlers m) (hooks m) (local_addresses m)
     (local_data m) (rle m) (hle_symbols m).
Definition set_hle_handlers (v : gmap string string) (m : t) : t :=
  mk (device m) (transport_log m) (instructions m) (skip_stores m)
     (patch_notes m) (patch_hle m) v (hooks m) (local_addresses m)
     (local_data m) (rle m) (hle_symbols m).

(** [note(address)] *)
Definition note (address : Z) : M t string :=
  gets (fun m => default EmptyString (patch_notes m !! Z.land address (Z.lnot 1))).

(** [load_state], given the contents of the two files: each stream is
    replaced by a fresh one into which the file is written. *)
Definition load_state (addr_file data_file : list byte) : M t unit :=
  modify (set_local_addresses BytesIO.init) ;;
  addresses (BytesIO.write addr_file) ;;
  modify (set_local_data BytesIO.init) ;;
  data (BytesIO.write data_file).

(** The loop [for l in lines[:-1]] of [patch]. *)
Fixpoint note_lines (lines : list Line) : M t unit :=
  match lines with
  | l :: rest =>
      match rest with
      | _ :: _ =>
          (if Z.land (l_address l) 1 =? 0 then ret tt else raise AssertionError) ;;
          modify (fun m => set_patch_notes (<[l_address l := "PATCH"%string]> (patch_notes m)) m) ;;
          note_lines rest
      | [] => ret tt
      end
  | [] => ret tt
  end.

Section Patch.

(** [assemble_string(address, source, thumb=thumb)] of the external
    toolchain, and its disassembler as in [fetch]. *)
Variable assemble_string : Z -> string -> bool -> exn + list byte.
Variable disassembly : list byte -> Z -> bool -> exn + list Line.

(** [patch(address, code, hle, thumb)]; [None] or the empty string for
    [code] or [hle] means that it is not given. *)
Definition patch (address : Z) (code hle : option string) (thumb : bool) : M t unit :=
  let given o := match o with
                 | Some x => negb (String.eqb x EmptyString)
                 | None => false
                 end in
  let source := String.append (default EmptyString code)
                              (String (ascii_of_nat 10) "nop") in
  la <- (if given code then
           s <- of_sum (assemble_string address source thumb) ;;
           lines <- of_sum (disassembly s address thumb) ;;
           note_lines lines ;;
           match rev lines with
           | _ :: l2 :: _ => ret (lines, icache_key (l_address l2) thumb)
           | _ => raise (IndexError (-2))
           end
         else ret ([], icache_key address thumb)) ;;
  let hle_addr := la.2 in
  (if given hle then
     let name := String.append "hle_" (format_08x address) in
     modify (fun m => set_hle_handlers
       (<[name := String.append "{uint32_t r0 = arg; "
                    (String.append (default EmptyString hle) "; r0;}")]>
          (hle_handlers m)) m) ;;
     modify (fun m => set_patch_hle (<[hle_addr := name]> (patch_hle m)) m)
   else ret tt) ;;
  if given code then modify (_load_assembly address la.1 thumb)
  else modify (fun m => set_instructions (delete hle_addr (instructions m)) m).

End Patch.

End SimARMMemory.

(** ** Python string operations used by the operand parser *)

Definition str_drop (n : nat) (s : string) : string :=
  String.substring n (String.length s - n) s.

(** First occurrence of [sep] in [s]: the text before and the text after. *)
Fixpoint find_sep (sep s : string) : option (string * string) :=
  if String.prefix sep s then Some (EmptyString, str_drop (String.length sep) s)
  else match s with
       | EmptyString => None
       | String c s' =>
           match find_sep sep s' with
           | Some (b, a) => Some (String c b, a)
           | None => None
           end
       end.

Fixpoint split_fuel (fuel : nat) (sep : string) (maxsplit : option nat) (s : string)
  : list string :=
  match fuel with
  | O => [s]
  | S fuel' =>
      match maxsplit with
      | Some O => [s]
      | _ =>
          match find_sep sep s with
          | None => [s]
          | Some (b, a) => b :: split_fuel fuel' sep (Nat.pred <$> maxsplit) a
          end
      end
  end.

(** [s.split(sep)] and [s.split(sep, n)], for a non-empty [sep]. *)
Definition split (sep : string) (maxsplit : option nat) (s : string) : list string :=
  split_fuel (S (String.length s)) sep maxsplit s.

Definition in_chars (chars : string) (c : ascii) : bool :=
  existsb (Ascii.eqb c) (list_ascii_of_string chars).

Fixpoint lstrip (chars : string) (s : string) : string :=
  match s with
  | EmptyString => EmptyString
  | String c s' => if in_chars chars c then lstrip chars s' else s
  end.

Definition str_rev (s : string) : string :=
  string_of_list_ascii (rev (list_ascii_of_string s)).

(** [s.strip(chars)] *)
Definition strip (chars : string) (s : string) : string :=
  str_rev (lstrip chars (str_rev (lstrip chars s))).

Definition digit_val (c : ascii) : option Z :=
  let n := Z.of_nat (nat_of_ascii c) in
  if (48 <=? n) && (n <=? 57) then Some (n - 48)
  else if (97 <=? n) && (n <=? 102) then Some (n - 87)
  else if (65 <=? n) && (n <=? 70) then Some (n - 55)
  else None.

Fixpoint parse_digits (base acc : Z) (s : string) : option Z :=
  match s with
  | EmptyString => Some acc
  | String c s' =>
      match digit_val c with
      | Some d => if d <? base then parse_digits base (acc * base + d) s' else None
      | None => None
      end
  end.

Definition parse_number (base : Z) (s : string) : option Z :=
  match s with
  | EmptyString => None
  | _ => parse_digits base 0 s
  end.

(** [int(s, 0)]: an optional sign, then a [0x], [0o] or [0b] literal or a
    decimal one (a decimal with a leading zero must be zero).  Surrounding
    blanks and digit-group underscores, which disassembly never contains, are
    not accepted here. *)
Definition py_int (s : string) : exn + Z :=
  let '(sign, body) :=
    match s with
    | String "-"%char r => (-1, r)
    | String "+"%char r => (1, r)
    | _ => (1, s)
    end in
  let v :=
    match body with
    | String "0"%char (String x r) =>
        if in_chars "xX" x then parse_number 16 r
        else if in_chars "oO" x then parse_number 8 r
        else if in_chars "bB" x then parse_number 2 r
        else match parse_number 10 body with
             | Some 0 => Some 0
             | _ => None
             end
    | _ => parse_number 10 body
    end in
  match v with
  | Some n => inr (sign * n)
  | None => inl ValueError
  end.

(** Lookup by name in a list of named entries. *)
Definition assoc {A} (k : string) (l : list (string * A)) : option A :=
  snd <$> List.find (fun e => String.eqb e.1 k) l.

(** Python truthiness of an integer, and of [None]-or-string. *)
Definition truthy (z : Z) : bool := negb (z =? 0).

Definition truthy_name (o : option string) : bool :=
  match o with
  | Some s => negb (String.eqb s EmptyString)
  | None => false
  end.

(** ** SimARM: register file, parser, operation factories, step driver *)

Module SimARM.

(** The flags hold [False]/[True] or the integers 0/1 in the source, used
    interchangeably; they are [bool] here.  [csprC] is the attribute that
    [op_mvns] assigns; it does not exist until then.  [regs] always has 16
    entries and is only indexed by the numbers in [reg_numbers].

    [self.regs] is a list object, and [reset] and [copy_registers_from]
    bind the attribute to a new one while [step] goes on using the list it
    started with.  [regs] is the contents of the list that [self.regs] is
    bound to, [regs_id] says which list object that is, and [detached]
    holds the contents of the lists it was bound to before. *)
Record t : Type := mk {
  memory : SimARMMemory.t;
  regs : list Z;
  thumb : bool;
  cpsrV : bool;
  cpsrC : bool;
  cpsrZ : bool;
  cpsrN : bool;
  step_count : Z;
  _branch : option Z;
  csprC : option bool;
  regs_id : nat;
  detached : gmap nat (list Z)
}.

Definition set_memory (v : SimARMMemory.t) (s : t) : t :=
  mk v (regs s) (thumb s) (cpsrV s) (cpsrC s) (cpsrZ s) (cpsrN s)
     (step_count s) (_branch s) (csprC s) (regs_id s) (detached s).
Definition set_regs (v : list Z) (s : t) : t :=
  mk (memory s) v (thumb s) (cpsrV s) (cpsrC s) (cpsrZ s) (cpsrN s)
     (step_count s) (_branch s) (csprC s) (regs_id s) (detached s).
Definition set_thumb (v : bool) (s : t) : t :=
  mk (memory s) (regs s) v (cpsrV s) (cpsrC s) (cpsrZ s) (cpsrN s)
     (step_count s) (_branch s) (csprC s) (regs_id s) (detached s).
Definition set_cpsrV (v : bool) (s : t) : t :=
  mk (memory s) (regs s) (thumb s) v (cpsrC s) (cpsrZ s) (cpsrN s)
     (step_count s) (_branch s) (csprC s) (regs_id s) (detached s).
Definition set_cpsrC (v : bool) (s : t) : t :=
  mk (memory s) (regs s) (thumb s) (cpsrV s) v (cpsrZ s) (cpsrN s)
     (step_count s) (_branch s) (csprC s) (regs_id s) (detached s).
Definition set_cpsrZ (v : bool) (s : t) : t :=
  mk (memory s) (regs s) (thumb s) (cpsrV s) (cpsrC s) v (cpsrN s)
     (step_count s) (_branch s) (csprC s) (regs_id s) (detached s).
Definition set_cpsrN (v : bool) (s : t) : t :=
  mk (memory s) (regs s) (thumb s) (cpsrV s) (cpsrC s) (cpsrZ s) v
     (step_count s) (_branch s) (csprC s) (regs_id s) (detached s).
Definition set_step_count (v : Z) (s : t) : t :=
  mk (memory s) (regs s) (thumb s) (cpsrV s) (cpsrC s) (cpsrZ s) (cpsrN s)
     v (_branch s) (csprC s) (regs_id s) (detached s).
Definition set__branch (v : option Z) (s : t) : t :=
  mk (memory s) (regs s) (thumb s) (cpsrV s) (cpsrC s) (cpsrZ s) (cpsrN s)
     (step_count s) v (csprC s) (regs_id s) (detached s).
Definition set_csprC (v : option bool) (s : t) : t :=
  mk (memory s) (regs s) (thumb s) (cpsrV s) (cpsrC s) (cpsrZ s) (cpsrN s)
     (step_count s) (_branch s) v (regs_id s) (detached s).

Definition set_detached (v : gmap nat (list Z)) (s : t) : t :=
  mk (memory s) (regs s) (thumb s) (cpsrV s) (cpsrC s) (cpsrZ s) (cpsrN s)
     (step_count s) (_branch s) (csprC s) (regs_id s) v.

(** [self.regs = new]: the attribute is bound to a new list object; the
    list it was bound to lives on for whoever still holds it. *)
Definition rebind_regs (new : list Z) (s : t) : t :=
  mk (memory s) new (thumb s) (cpsrV s) (cpsrC s) (cpsrZ s) (cpsrN s)
     (step_count s) (_branch s) (csprC s) (S (regs_id s))
     (<[regs_id s := regs s]> (detached s)).

Definition reg (n : nat) (s : t) : Z := regs s !!! n.
Definition set_reg (n : nat) (v : Z) (s : t) : t := set_regs (<[n := v]> (regs s)) s.

(** [regs[n]] and [regs[n] = v] through a variable that was bound to the
    list object [rid], as the local variable [regs] of [step] is: the
    same list as [self.regs] as long as that has not been rebound. *)
Definition local_reg (rid : nat) (n : nat) (s : t) : Z :=
  if (regs_id s =? rid)%nat then reg n s
  else (detached s !!! rid) !!! n.
Definition set_local_reg (rid : nat) (n : nat) (v : Z) (s : t) : t :=
  if (regs_id s =? rid)%nat then set_reg n v s
  else set_detached (<[rid := <[n := v]> (detached s !!! rid)]> (detached s)) s.

(** A call on [self.memory]. *)
Definition mem {A} : M SimARMMemory.t A -> M t A := zoom memory set_memory.

(** The simulator that [SimARM(m)] followed by [reset(vector)] leaves:
    attached to [m], registers and flags cleared, pc and ISA mode from the
    vector, lr all ones. *)
Definition reset (m : SimARMMemory.t) (vector : Z) : t :=
  set_reg 14 0xffffffff
    (set_reg 15 (Z.land vector 0xfffffffe)
       {| memory := m; regs := replicate 16 0; thumb := truthy (Z.land vector 1);
          cpsrV := false; cpsrC := false; cpsrZ := false; cpsrN := false;
          step_count := 0; _branch := None; csprC := None;
          regs_id := 0; detached := ∅ |}).

(** [reset(vector)] called on a simulator that exists, as a hook may do:
    [self.regs] is bound to a new list. *)
Definition reset_again (vector : Z) : M t unit :=
  modify (fun s =>
    set_step_count 0
      (set_reg 14 0xffffffff
         (set_reg 15 (Z.land vector 0xfffffffe)
            (set_cpsrN false (set_cpsrZ false (set_cpsrC false (set_cpsrV false
               (set_thumb (truthy (Z.land vector 1))
                  (rebind_regs (replicate 16 0) s))))))))).

Section Names.
Local Open Scope string_scope.

Definition reg_names : list string :=
  ["r0"; "r1"; "r2"; "r3"; "r4"; "r5"; "r6"; "r7";
   "r8"; "r9"; "r10"; "r11"; "r12"; "sp"; "lr"; "pc"].
Definition alt_names : list string :=
  ["a1"; "a2"; "a3"; "a4"; "v1"; "v2"; "v3"; "v4";
   "v5"; "sb"; "sl"; "fp"; "ip"; "r13"; "r14"; "r15"].

Definition enumerate_into (names : list string) (d : gmap string nat)
  : gmap string nat :=
  foldl (fun d p => <[p.2 := p.1]> d) d (zip (seq 0 (length names)) names).

Definition reg_numbers : gmap string nat :=
  enumerate_into alt_names (enumerate_into reg_names ∅).
End Names.

(** [copy_registers_from(ns)]: a new list again, read from a name space. *)
Definition copy_registers_from (ns : gmap string Z) : M t unit :=
  modify (rebind_regs ((fun n => default 0 (ns !! n)) <$> reg_names)).

(** A compiled operation, and the factory that parses an instruction into
    one.  A factory fails (operand mismatch) without touching the
    simulator. *)
Definition Thunk : Type := M t unit.
Definition Factory : Type := Instr -> exn + Thunk.

Definition reg_number (name : string) : exn + nat :=
  match reg_numbers !! name with
  | Some n => inr n
  | None => inl KeyError
  end.

(** [a, b = l]: tuple unpacking of a list. *)
Definition unpack2 (l : list string) : exn + string * string :=
  match l with
  | [a; b] => inr (a, b)
  | _ => inl ValueError
  end.

Definition unpack3 (l : list string) : exn + string * string * string :=
  match l with
  | [a; b; c] => inr (a, b, c)
  | _ => inl ValueError
  end.

Definition sum_bind {A B} (r : exn + A) (k : A -> exn + B) : exn + B :=
  match r with inl e => inl e | inr a => k a end.

Notation "x <-! r ;; k" := (sum_bind r (fun x => k))
  (at level 100, r at next level, right associativity).

Definition _reg_or_literal (s : string) : exn + (t -> Z) :=
  match s with
  | EmptyString => inl (IndexError 0)
  | String c rest =>
      if Ascii.eqb c "#" then
        n <-! py_int rest ;;
        inr (fun _ => Z.land n 0xffffffff)
      else
        rn <-! reg_number s ;;
        inr (reg rn)
  end.

Definition _reg_or_target (s : string) : exn + (t -> Z) :=
  match reg_numbers !! s with
  | Some rn => inr (reg rn)
  | None =>
      n <-! py_int s ;;
      inr (fun _ => Z.land n 0xffffffff)
  end.

(** Returns the thunk computing [(result, carry)]. *)
Definition _shifter (s : string) : exn + (t -> Z * Z) :=
  let plain :=
    a <-! _reg_or_literal s ;;
    inr (fun st => (a st, 0)) in
  match split ", " (Some 1%nat) s with
  | [l0; l1] =>
      match split " " None l1 with
      | [t0] =>
          a <-! _reg_or_literal l0 ;;
          b <-! py_int t0 ;;
          inr (fun st => ror (a st) (Z.land b 0xffffffff))
      | t0 :: t1 :: _ =>
          a <-! _reg_or_literal l0 ;;
          b <-! _reg_or_literal t1 ;;
          if String.eqb t0 "lsl" then inr (fun st => lsl (a st) (b st))
          else if String.eqb t0 "lsr" then inr (fun st => lsr (a st) (b st))
          else if String.eqb t0 "asr" then inr (fun st => asr (a st) (b st))
          else if String.eqb t0 "rol" then inr (fun st => rol (a st) (b st))
          else if String.eqb t0 "ror" then inr (fun st => ror (a st) (b st))
          else plain
      | [] => plain
      end
  | _ => plain
  end.

Definition _dstpc (dst : string) : exn + (Z -> M t unit) :=
  if String.eqb dst "pc" then
    inr (fun r => modify (fun s =>
           set_thumb (truthy (Z.land r 1))
             (set__branch (Some (Z.land r 0xfffffffe)) s)))
  else
    rn <-! reg_number dst ;;
    inr (fun r => modify (set_reg rn (Z.land r 0xffffffff))).

Definition _3arg (i : Instr) : list string :=
  let l := split ", " (Some 2%nat) (args i) in
  match l with
  | [_; _; _] => l
  | l0 :: _ => l0 :: l
  | [] => l
  end.

(** The [[a, b]] and [[a], b] addressing modes. *)
Definition _reladdr (right : string) : exn + (t -> Z) :=
  match right with
  | EmptyString => inl (IndexError 0)
  | String c _ =>
      if negb (Ascii.eqb c "[") then inl AssertionError
      else if String.eqb (str_drop (String.length right - 1) right) "]" then
        match split ", " (Some 1%nat) (strip "[]" right) with
        | a0 :: more =>
            vn <-! reg_number a0 ;;
            match more with
            | a1 :: _ =>
                match a1 with
                | EmptyString => inl (IndexError 0)
                | String c1 rest1 =>
                    if Ascii.eqb c1 "-" then
                      sF <-! _shifter rest1 ;;
                      inr (fun st => Z.land (reg vn st - (sF st).1) 0xffffffff)
                    else
                      sF <-! _shifter a1 ;;
                      inr (fun st => Z.land (reg vn st + (sF st).1) 0xffffffff)
                end
            | [] => inr (reg vn)
            end
        | [] => inl (IndexError 0)
        end
      else
        match split ", " None right with
        | a0 :: a1 :: _ =>
            vn <-! reg_number (strip "[]" a0) ;;
            rl <-! _reg_or_literal a1 ;;
            inr (fun st => Z.land (reg vn st + rl st) 0xffffffff)
        | [a0] =>
            vn <-! reg_number (strip "[]" a0) ;;
            inl (IndexError 1)
        | [] => inl (IndexError 0)
        end
  end.

(** *** Operation factories *)

Definition op_ldr (i : Instr) : exn + Thunk :=
  p <-! unpack2 (split ", " (Some 1%nat) (args i)) ;;
  dF <-! _dstpc p.1 ;;
  aF <-! _reladdr p.2 ;;
  inr (a <- gets aF ;; v <- mem (SimARMMemory.load a) ;; dF v).

Definition op_str (i : Instr) : exn + Thunk :=
  p <-! unpack2 (split ", " (Some 1%nat) (args i)) ;;
  rn <-! reg_number p.1 ;;
  rel <-! _reladdr p.2 ;;
  inr (a <- gets rel ;; v <- gets (reg rn) ;; mem (SimARMMemory.store a v)).

Definition op_bl (i : Instr) : exn + Thunk :=
  t <-! _reg_or_target (args i) ;;
  inr (modify (fun s => set_reg 14 (Z.lor (next_address i) (Z.b2z (thumb s))) s) ;;
       modify (fun s => set__branch (Some (t s)) s)).

Definition op_b (i : Instr) : exn + Thunk :=
  dest <-! py_int (args i) ;;
  inr (modify (set__branch (Some dest))).

Definition op_nop (i : Instr) : exn + Thunk := inr (ret tt).

Definition op_mov (i : Instr) : exn + Thunk :=
  p <-! unpack2 (split ", " (Some 1%nat) (args i)) ;;
  sF <-! _shifter p.2 ;;
  dF <-! _dstpc p.1 ;;
  inr (r <- gets sF ;; dF r.1).

Definition op_movs (i : Instr) : exn + Thunk :=
  p <-! unpack2 (split ", " (Some 1%nat) (args i)) ;;
  sF <-! _shifter p.2 ;;
  dF <-! _dstpc p.1 ;;
  inr (rc <- gets sF ;;
       let r := rc.1 in
       modify (set_cpsrC (truthy rc.2)) ;;
       modify (set_cpsrZ (r =? 0)) ;;
       modify (set_cpsrN (truthy (Z.land (Z.shiftr r 31) 1))) ;;
       dF r).

Definition op_mvn (i : Instr) : exn + Thunk :=
  p <-! unpack2 (split ", " (Some 1%nat) (args i)) ;;
  sF <-! _shifter p.2 ;;
  dF <-! _dstpc p.1 ;;
  inr (r <- gets sF ;; dF (Z.lxor r.1 0xffffffff)).

Definition op_mvns (i : Instr) : exn + Thunk :=
  p <-! unpack2 (split ", " (Some 1%nat) (args i)) ;;
  sF <-! _shifter p.2 ;;
  dF <-! _dstpc p.1 ;;
  inr (rc <- gets sF ;;
       modify (set_csprC (Some (truthy rc.2))) ;;
       let r := Z.lxor rc.1 0xffffffff in
       modify (set_cpsrZ (r =? 0)) ;;
       modify (set_cpsrN (truthy (Z.land (Z.shiftr r 31) 1))) ;;
       dF r).

Definition op_lsls (i : Instr) : exn + Thunk :=
  p <-! unpack3 (_3arg i) ;;
  fD <-! _dstpc p.1.1 ;;
  n0 <-! reg_number p.1.2 ;;
  f1 <-! _reg_or_literal p.2 ;;
  inr (rc <- gets (fun s => lsl (reg n0 s) (f1 s)) ;;
       let r := rc.1 in
       modify (set_cpsrC (truthy rc.2)) ;;
       modify (set_cpsrZ (negb (truthy (Z.land r 0xffffffff)))) ;;
       modify (set_cpsrN (truthy (Z.land (Z.shiftr r 31) 1))) ;;
       fD r).

Definition unpack4 (l : list string) : exn + string * string * string * string :=
  match l with
  | [a; b; c; d] => inr (a, b, c, d)
  | _ => inl ValueError
  end.

(** A list comprehension [[f(x) for x in l]] whose [f] can raise. *)
Fixpoint map_sum {A B} (f : A -> exn + B) (l : list A) : exn + list B :=
  match l with
  | [] => inr []
  | x :: l' => y <-! f x ;; ys <-! map_sum f l' ;; inr (y :: ys)
  end.

(** [(x >> 31) & 1] *)
Definition bit31 (x : Z) : Z := Z.land (Z.shiftr x 31) 1.

(** The four flag assignments of [adds], [adcs] and [cmn]. *)
Definition add_flags (a b r : Z) : M t unit :=
  modify (set_cpsrN (truthy (bit31 r))) ;;
  modify (set_cpsrZ (negb (truthy (Z.land r 0xffffffff)))) ;;
  modify (set_cpsrC (r >? 0xffffffff)) ;;
  modify (set_cpsrV ((bit31 a =? bit31 b) && negb (bit31 a =? bit31 r)
                     && negb (bit31 b =? bit31 r))).

(** The four flag assignments of [subs], [sbcs], [rsbs], [cmp], [negs]. *)
Definition sub_flags (a b r : Z) : M t unit :=
  modify (set_cpsrN (truthy (bit31 r))) ;;
  modify (set_cpsrZ (negb (truthy (Z.land r 0xffffffff)))) ;;
  modify (set_cpsrC (Z.land a 0xffffffff >=? Z.land b 0xffffffff)) ;;
  modify (set_cpsrV (negb (bit31 a =? bit31 b) && negb (bit31 a =? bit31 r))).

(** The operand parsing shared by the three-operand data-processing
    factories: [dst, src0, src1 = self._3arg(i)], then the register number
    of [src0], the shifter of [src1] and the destination function. *)
Definition parse3 (i : Instr) : exn + nat * (t -> Z * Z) * (Z -> M t unit) :=
  p <-! unpack3 (_3arg i) ;;
  rn <-! reg_number p.1.2 ;;
  sF <-! _shifter p.2 ;;
  dF <-! _dstpc p.1.1 ;;
  inr (rn, sF, dF).

Definition op_add (i : Instr) : exn + Thunk :=
  q <-! parse3 i ;;
  inr (a <- gets (reg q.1.1) ;; b <- gets q.1.2 ;; q.2 (a + b.1)).

Definition op_adds (i : Instr) : exn + Thunk :=
  q <-! parse3 i ;;
  inr (a <- gets (reg q.1.1) ;; b <- gets q.1.2 ;;
       let r := a + b.1 in
       add_flags a b.1 r ;; q.2 r).

Definition op_sub (i : Instr) : exn + Thunk :=
  q <-! parse3 i ;;
  inr (a <- gets (reg q.1.1) ;; b <- gets q.1.2 ;; q.2 (a - b.1)).

Definition op_subs (i : Instr) : exn + Thunk :=
  q <-! parse3 i ;;
  inr (a <- gets (reg q.1.1) ;; b <- gets q.1.2 ;;
       let r := a - b.1 in
       sub_flags a b.1 r ;; q.2 r).

Definition op_cmp (i : Instr) : exn + Thunk :=
  p <-! unpack2 (split ", " (Some 1%nat) (args i)) ;;
  rn <-! reg_number p.1 ;;
  sF <-! _shifter p.2 ;;
  inr (a <- gets (reg rn) ;; b <- gets sF ;;
       sub_flags a b.1 (a - b.1)).

Definition op_cmn (i : Instr) : exn + Thunk :=
  p <-! unpack2 (split ", " (Some 1%nat) (args i)) ;;
  rn <-! reg_number p.1 ;;
  sF <-! _shifter p.2 ;;
  inr (a <- gets (reg rn) ;; b <- gets sF ;;
       add_flags a b.1 (a + b.1)).

Definition op_mul (i : Instr) : exn + Thunk :=
  q <-! parse3 i ;;
  inr (a <- gets (reg q.1.1) ;; b <- gets q.1.2 ;; q.2 (a * b.1)).

Definition op_umull (i : Instr) : exn + Thunk :=
  p <-! unpack4 (split ", " None (args i)) ;;
  nRm <-! reg_number p.1.2 ;;
  nRs <-! reg_number p.2 ;;
  dlF <-! _dstpc p.1.1.1 ;;
  dhF <-! _dstpc p.1.1.2 ;;
  inr (r <- gets (fun s => reg nRm s * reg nRs s) ;;
       dlF r ;; dhF (Z.shiftr r 32)).

(** The loop of [op_clz]: from [i], the first position below 32 whose bit
    is set in [r], or 32. *)
Fixpoint clz_scan (fuel : nat) (r i : Z) : Z :=
  match fuel with
  | O => i
  | S fuel' =>
      if i <? 32 then
        if truthy (Z.land r (Z.shiftl 1 i)) then i else clz_scan fuel' r (i + 1)
      else i
  end.

Definition op_clz (i : Instr) : exn + Thunk :=
  p <-! unpack2 (split ", " (Some 1%nat) (args i)) ;;
  dF <-! _dstpc p.1 ;;
  sF <-! _shifter p.2 ;;
  inr (r <- gets sF ;; dF (clz_scan 33 r.1 0)).

Definition op_bx (i : Instr) : exn + Thunk :=
  match reg_numbers !! args i with
  | Some rn =>
      inr (r <- gets (reg rn) ;;
           modify (set__branch (Some (Z.land r (Z.lnot 1)))) ;;
           modify (set_thumb (truthy (Z.land r 1))))
  | None =>
      inr (r <- of_sum (py_int (args i)) ;;
           modify (set__branch (Some (Z.land r (Z.lnot 1)))) ;;
           modify (fun s => set_thumb (negb (thumb s)) s))
  end.

Definition op_blx (i : Instr) : exn + Thunk :=
  match reg_numbers !! args i with
  | Some rn =>
      inr (modify (fun s => set_reg 14 (Z.lor (next_address i) (Z.b2z (thumb s))) s) ;;
           r <- gets (reg rn) ;;
           modify (set__branch (Some (Z.land r 0xfffffffe))) ;;
           modify (set_thumb (truthy (Z.land r 1))))
  | None =>
      r <-! py_int (args i) ;;
      inr (modify (fun s => set_reg 14 (Z.lor (next_address i) (Z.b2z (thumb s))) s) ;;
           modify (set__branch (Some (Z.land r 0xfffffffe))) ;;
           modify (fun s => set_thumb (negb (thumb s)) s))
  end.

(** [for i in range(len(reglist)): self.memory.store(sp + 4 * i, ...)] *)
Fixpoint push_each (reglist : list nat) (sp i : Z) : M t unit :=
  match reglist with
  | [] => ret tt
  | rn :: rest =>
      v <- gets (reg rn) ;;
      mem (SimARMMemory.store (sp + 4 * i) v) ;;
      push_each rest sp (i + 1)
  end.

Definition op_push (i : Instr) : exn + Thunk :=
  reglist <-! map_sum reg_number (split ", " None (strip "{}" (args i))) ;;
  inr (sp0 <- gets (reg 13) ;;
       let sp := sp0 - 4 * Z.of_nat (length reglist) in
       modify (set_reg 13 sp) ;;
       push_each reglist sp 0).

Fixpoint pop_each (reglist : list (Z -> M t unit)) (sp i : Z) : M t unit :=
  match reglist with
  | [] => ret tt
  | dF :: rest =>
      v <- mem (SimARMMemory.load (sp + 4 * i)) ;;
      dF v ;;
      pop_each rest sp (i + 1)
  end.

Definition op_pop (i : Instr) : exn + Thunk :=
  reglist <-! map_sum _dstpc (split ", " None (strip "{}" (args i))) ;;
  inr (sp <- gets (reg 13) ;;
       pop_each reglist sp 0 ;;
       modify (set_reg 13 (sp + 4 * Z.of_nat (length reglist)))).

(** *** Load and store multiple *)

(** [s.endswith(suffix)] *)
Definition endswith (suffix s : string) : bool :=
  String.prefix (str_rev suffix) (str_rev s).

(** The base mode [impl] that [_generate_ldstm] picks for a mnemonic. *)
Definition ldstm_impl (memop mode : string) : string :=
  let impl := if String.eqb mode "" then "ia"%string else mode in
  let impl := if String.eqb memop "st" && String.eqb mode "fd" then "db"%string else impl in
  let impl := if String.eqb memop "st" && String.eqb mode "fa" then "ib"%string else impl in
  let impl := if String.eqb memop "st" && String.eqb mode "ed" then "da"%string else impl in
  let impl := if String.eqb memop "st" && String.eqb mode "ea" then "ia"%string else impl in
  let impl := if String.eqb memop "ld" && String.eqb mode "fd" then "ia"%string else impl in
  let impl := if String.eqb memop "ld" && String.eqb mode "fa" then "da"%string else impl in
  let impl := if String.eqb memop "ld" && String.eqb mode "ed" then "ib"%string else impl in
  let impl := if String.eqb memop "ld" && String.eqb mode "ea" then "db"%string else impl in
  impl.

Definition ldstm_pre (impl : string) : Z :=
  if String.eqb impl "ib" then 4 else if String.eqb impl "db" then -4 else 0.

Definition ldstm_post (impl : string) : Z :=
  if String.eqb impl "ia" then 4 else if String.eqb impl "da" then -4 else 0.

(** The two loops of [op_fn]; they return the final [addr]. *)
Fixpoint stm_each (src_rn : list nat) (pre post addr : Z) : M t Z :=
  match src_rn with
  | [] => ret addr
  | rn :: rest =>
      v <- gets (reg rn) ;;
      mem (SimARMMemory.store (addr + pre) v) ;;
      stm_each rest pre post (addr + pre + post)
  end.

Fixpoint ldm_each (dst_funcs : list (Z -> M t unit)) (pre post addr : Z) : M t Z :=
  match dst_funcs with
  | [] => ret addr
  | dF :: rest =>
      v <- mem (SimARMMemory.load (addr + pre)) ;;
      dF v ;;
      ldm_each rest pre post (addr + pre + post)
  end.

(** The factory [op_fn] that [_generate_ldstm(memop, mode)] builds. *)
Definition ldstm_op (memop mode : string) (i : Instr) : exn + Thunk :=
  let pre := ldstm_pre (ldstm_impl memop mode) in
  let post := ldstm_post (ldstm_impl memop mode) in
  p <-! unpack2 (split ", " (Some 1%nat) (args i)) ;;
  _ <-! match p.2 with
        | EmptyString => inl (IndexError 0)
        | String c _ => if Ascii.eqb c "{" then inr tt else inl AssertionError
        end ;;
  let writeback := endswith "!" p.1 in
  left <-! reg_number (strip "!" p.1) ;;
  let regs_ := split ", " None (strip "{}" p.2) in
  if String.eqb memop "st" then
    src_rn <-! map_sum reg_number regs_ ;;
    inr (addr <- gets (reg left) ;;
         final_addr <- stm_each src_rn pre post addr ;;
         if writeback then modify (set_reg left final_addr) else ret tt)
  else
    dst_funcs <-! map_sum _dstpc regs_ ;;
    inr (addr <- gets (reg left) ;;
         final_addr <- ldm_each dst_funcs pre post addr ;;
         if writeback then modify (set_reg left final_addr) else ret tt).

(** *** Condition codes *)

(** [lambda i: lambda fn=fn(i): (test) and fn()]: the base factory runs
    when the instruction is compiled, the test when the thunk is called. *)
Definition conditional (test : t -> bool) (fn : Factory) : Factory :=
  fun i => f <-! fn i ;;
           inr (fun s => if test s then f s else Ok tt s).

Section Codes.
Local Open Scope string_scope.

(** The seventeen entries of [_generate_condition_codes], by suffix. *)
Definition condition_table (fn : Factory) : list (string * Factory) :=
  [ ("eq", conditional (fun s => cpsrZ s) fn);
    ("ne", conditional (fun s => negb (cpsrZ s)) fn);
    ("cs", conditional (fun s => cpsrC s) fn);
    ("hs", conditional (fun s => cpsrC s) fn);
    ("cc", conditional (fun s => negb (cpsrC s)) fn);
    ("lo", conditional (fun s => negb (cpsrC s)) fn);
    ("mi", conditional (fun s => cpsrN s) fn);
    ("pl", conditional (fun s => negb (cpsrN s)) fn);
    ("vs", conditional (fun s => cpsrV s) fn);
    ("vc", conditional (fun s => negb (cpsrV s)) fn);
    ("hi", conditional (fun s => cpsrC s && negb (cpsrZ s)) fn);
    ("ls", conditional (fun s => cpsrZ s || negb (cpsrC s)) fn);
    ("ge", conditional (fun s => Bool.eqb (negb (cpsrN s)) (negb (cpsrV s))) fn);
    ("lt", conditional (fun s => negb (Bool.eqb (negb (cpsrN s)) (negb (cpsrV s)))) fn);
    ("gt", conditional (fun s => Bool.eqb (negb (cpsrN s)) (negb (cpsrV s))
                                 && negb (cpsrZ s)) fn);
    ("le", conditional (fun s => negb (Bool.eqb (negb (cpsrN s)) (negb (cpsrV s)))
                                 || cpsrZ s) fn);
    ("al", fn) ].

(** [setattr(self, name % suffix, ...)] for each entry; [name] is the
    format applied to the suffix. *)
Definition _generate_condition_codes (fn : Factory) (name : string -> string)
    (attrs : gmap string Factory) : gmap string Factory :=
  foldl (fun a e => <[name e.1 := e.2]> a) attrs (condition_table fn).

(** The factories of the class that are embedded here. *)
Definition class_ops : list (string * Factory) :=
  [ ("op_ldr", op_ldr); ("op_str", op_str); ("op_bl", op_bl); ("op_b", op_b);
    ("op_nop", op_nop); ("op_mov", op_mov); ("op_movs", op_movs);
    ("op_mvn", op_mvn); ("op_mvns", op_mvns); ("op_lsls", op_lsls) ].

(** The instance attributes [__init__] creates from them. *)
Definition instance_ops : gmap string Factory :=
  foldl (fun a e => _generate_condition_codes e.2 (fun c => e.1 ++ c) a)
        ∅ class_ops.

(** [getattr(self, name)]: the instance first, then the class. *)
Definition getattr_op (name : string) : option Factory :=
  match instance_ops !! name with
  | Some f => Some f
  | None => assoc name class_ops
  end.
End Codes.

(** *** The step driver *)

Section Driver.

(** The external toolchain, the attribute table of the simulator
    ([getattr(self, 'op_...')]) and the callables behind the hook
    handles.  A hook gets the simulator and may do anything to it. *)
Variable disassembly : list byte -> Z -> bool -> exn + list Line.
Variable getattr : string -> option Factory.
Variable run_hook : nat -> Thunk.

(** [getattr(self, 'op_' + instr.op.split('.', 1)[0])(instr)] *)
Definition compile (instr : Instr) : exn + Thunk :=
  let name := String.append "op_"
                (match split "." (Some 1%nat) (op instr) with
                 | base :: _ => base
                 | [] => EmptyString
                 end) in
  match getattr name with
  | Some factory => factory instr
  | None => inl (AttributeError name)
  end.

(** [self._branch or instr.next_address] *)
Definition branch_or_next (b : option Z) (instr : Instr) : Z :=
  match b with
  | Some target => if truthy target then target else next_address instr
  | None => next_address instr
  end.

(** From the top of the loop body to the [try]: count, look up the hook
    for the current pc, fetch, clear [_branch], set the pipeline pc.
    [rid] is the list that the local variable [regs] was bound to when
    [step] was entered. *)
Definition step_fetch (rid : nat) : M t (option nat * Instr) :=
  modify (fun s => set_step_count (step_count s + 1) s) ;;
  hook <- gets (fun s => SimARMMemory.hooks (memory s) !! local_reg rid 15 s) ;;
  pc <- gets (local_reg rid 15) ;;
  th <- gets thumb ;;
  instr <- mem (SimARMMemory.fetch disassembly pc th) ;;
  modify (set__branch None) ;;
  modify (fun s =>
    if thumb s
    then set_local_reg rid 15 (Z.land (next_address instr + 3) (Z.lnot 3)) s
    else set_local_reg rid 15 (local_reg rid 15 s + 8) s) ;;
  ret (hook, instr).

(** The body of the [try]: compile if needed, run, sink the branch,
    test the breakpoint.  The result says whether [step] returns here. *)
Definition step_try (rid : nat) (instr : Instr) (breakpoint : option Z) : M t bool :=
  opfunc <- of_sum (compile instr) ;;
  opfunc ;;
  modify (fun s => set_local_reg rid 15 (branch_or_next (_branch s) instr) s) ;;
  pc <- gets (local_reg rid 15) ;;
  ret (match breakpoint with
       | Some bp => pc =? bp
       | None => false
       end).

(** What follows the [try] statement: HLE, then the hook. *)
Definition step_after (rid : nat) (hook : option nat) (instr : Instr) : M t unit :=
  (if truthy_name (hle instr) then
     r0 <- gets (local_reg rid 0) ;;
     r0' <- mem (SimARMMemory.hle_invoke instr r0) ;;
     modify (set_local_reg rid 0 r0')
   else ret tt) ;;
  match hook with
  | Some h => run_hook h
  | None => ret tt
  end.

(** One iteration of the [while] loop; [true] when it ends in [return]. *)
Definition step_iteration (rid : nat) (breakpoint : option Z) : M t bool :=
  hi <- step_fetch rid ;;
  let '(hook, instr) := hi in
  stop <- try_reraise (step_try rid instr breakpoint)
                      (fun s => set_local_reg rid 15 (address instr) s) ;;
  if stop then ret true
  else step_after rid hook instr ;; ret false.

Fixpoint step_loop (rid : nat) (n : nat) (breakpoint : option Z) : M t unit :=
  match n with
  | O => ret tt
  | S n' =>
      stop <- step_iteration rid breakpoint ;;
      if stop then ret tt else step_loop rid n' breakpoint
  end.

(** [step(repeat, breakpoint)]: [regs = self.regs] once, then the loop. *)
Definition step (repeat : Z) (breakpoint : option Z) : M t unit :=
  rid <- gets regs_id ;;
  step_loop rid (Z.to_nat repeat) breakpoint.

End Driver.

End SimARM.

(** ** The earlier simulator, [sim_arm.py]

    There an [op_] method executes the instruction directly instead of
    returning a thunk.  Only the condition-code decorator and the branch
    are embedded; they look at the flags and at [_branch] alone, so the
    simulator object is the one above. *)

Module Legacy.

Definition Op : Type := Instr -> M SimARM.t unit.

(** [lambda i, fn=fn: (test) and fn(i)] *)
Definition conditional (test : SimARM.t -> bool) (fn : Op) : Op :=
  fun i s => if test s then fn i s else Ok tt s.

Section Codes.
Local Open Scope string_scope.

Definition condition_table (fn : Op) : list (string * Op) :=
  [ ("eq", conditional (fun s => SimARM.cpsrZ s) fn);
    ("ne", conditional (fun s => negb (SimARM.cpsrZ s)) fn);
    ("cs", conditional (fun s => SimARM.cpsrC s) fn);
    ("hs", conditional (fun s => SimARM.cpsrC s) fn);
    ("cc", conditional (fun s => negb (SimARM.cpsrC s)) fn);
    ("lo", conditional (fun s => negb (SimARM.cpsrC s)) fn);
    ("mi", conditional (fun s => SimARM.cpsrN s) fn);
    ("pl", conditional (fun s => negb (SimARM.cpsrN s)) fn);
    ("vs", conditional (fun s => SimARM.cpsrV s) fn);
    ("vc", conditional (fun s => negb (SimARM.cpsrV s)) fn);
    ("hi", conditional (fun s => SimARM.cpsrC s && negb (SimARM.cpsrZ s)) fn);
    ("ls", conditional (fun s => SimARM.cpsrZ s && negb (SimARM.cpsrC s)) fn);
    ("ge", conditional (fun s => Bool.eqb (negb (negb (SimARM.cpsrN s)))
                                          (negb (negb (SimARM.cpsrV s)))) fn);
    ("lt", conditional (fun s => negb (Bool.eqb (negb (negb (SimARM.cpsrN s)))
                                                (negb (negb (SimARM.cpsrV s))))) fn);
    ("gt", conditional (fun s => Bool.eqb (negb (negb (SimARM.cpsrN s)))
                                          (negb (negb (SimARM.cpsrV s)))
                                 && negb (SimARM.cpsrZ s)) fn);
    ("le", conditional (fun s => negb (Bool.eqb (negb (negb (SimARM.cpsrN s)))
                                                (negb (negb (SimARM.cpsrV s))))
                                 || SimARM.cpsrZ s) fn);
    ("al", fn) ].
End Codes.

Definition op_b (i : Instr) : M SimARM.t unit :=
  dest <- of_sum (py_int (args i)) ;;
  modify (SimARM.set__branch (Some dest)).

End Legacy.


(** * Notions used to state the properties *)

(** A relation between the object before and after holds of every outcome
    of a computation, normal or exceptional. *)
Definition sat {S A} (R : S -> S -> Prop) (c : M S A) : Prop :=
  forall s, R s (final (c s)).

(** What [all_present] answers, as a function of the presence stream: the
    [n] flags at [a] are all there and all 0xff. *)
Definition present (f : BytesIO.t) (a : Z) (n : nat) : bool :=
  bytes_eqb
    (BytesIO.byte_at f
       <$> seqZ a (Z.max 0 (Z.min (Z.of_nat n) (BytesIO.len f - a))))
    (replicate n xff).

(** The stream after [seek(a)] and [read(n)]: only the position moved. *)
Definition seeked (a : Z) (n : Z) (f : BytesIO.t) : BytesIO.t :=
  {| BytesIO.len := BytesIO.len f; BytesIO.cell := BytesIO.cell f;
     BytesIO.pos := a + Z.max 0 (Z.min n (BytesIO.len f - a)) |}.

Section MemoryNotions.
Import SimARMMemory.

(** The shadow data stream is left alone. *)
Definition same_data (m m' : t) : Prop := local_data m' = local_data m.

(** The common shape of [store], [store_half] and [store_byte]. *)
Definition store_shape (n : nat) (packed : exn + list byte) (size a v : Z) : M t unit :=
  local_ <- all_present a n ;;
  if local_ then
    data (BytesIO.seek a) ;;
    bs <- of_sum packed ;;
    data (BytesIO.write bs)
  else store_remote a v size.

(** What a store of [n] bytes does, by the presence flags.  All flags
    set: byte [k] of the little-endian value lands at [a + k] of the
    shadow data, nothing else moves.  Some flag missing: the shadow data
    is left alone and the store takes the remote path, that is, it is
    dropped when the address is in the skip set, and otherwise handed to
    the run encoder, whose answer is posted to the device: nothing when
    the encoder was empty, the displaced store when one was pending that
    this one does not continue. *)
Definition shadow_store_spec (n : nat) (size : Z) (a v : Z)
    (m : t) (r : Res t unit) : Prop :=
  let m1 := set_local_addresses (seeked a (Z.of_nat n) (local_addresses m)) m in
  let run := {| RunEncoder.count := 1; RunEncoder.key := Some (a, v, size) |} in
  (present (local_addresses m) a n = true ->
     raised r = None
     /\ (forall k, (k < n)%nat ->
           Z_of_byte (BytesIO.byte_at (local_data (final r)) (a + Z.of_nat k))
           = (v / 2 ^ (8 * Z.of_nat k)) mod 256)
     /\ (forall j, j < a \/ a + Z.of_nat n <= j ->
           BytesIO.byte_at (local_data (final r)) j = BytesIO.byte_at (local_data m) j)
     /\ transport_log (final r) = transport_log m
     /\ rle (final r) = rle m)
  /\ (present (local_addresses m) a n = false ->
        local_data (final r) = local_data m
        /\ (forall reason, skip_stores m !! a = Some reason -> r = Ok tt m1)
        /\ (skip_stores m !! a = None ->
              r = post_rle_store (RunEncoder.write a v size (rle m)).1
                    (set_rle (RunEncoder.write a v size (rle m)).2 m1)
              /\ (RunEncoder.count (rle m) = 0 -> r = Ok tt (set_rle run m1))
              /\ (forall a0 p0,
                    rle m = {| RunEncoder.count := 1;
                               RunEncoder.key := Some (a0, p0, 4) |} ->
                    ~ (a0 + 4 = a /\ p0 = v /\ size = 4) ->
                    a0 < 0x05000000 ->
                    dev_raises (device m) ((transport_log m).*1) (poke a0 p0) = None ->
                    r = Ok tt (set_transport_log
                                 (transport_log m ++ [(poke a0 p0, 1)])
                                 (set_rle run m1))))).

(** The outcome of a load on the device path, for an address at or above
    the sanity limit: it raises; from an empty encoder and on a transport
    that does not fail it raises the sanity error, and by then the device
    has been read with [calls]. *)
Definition high_load_outcome (calls : list DevCall) (a : Z) (m : t) (r : Res t Z) : Prop :=
  raised r <> None
  /\ (RunEncoder.count (rle m) = 0 ->
      (forall h c, dev_raises (device m) h c = None) ->
      raised r = Some (IndexError a)
      /\ transport_log (final r) = transport_log m ++ ((fun c => (c, 0)) <$> calls)).

(** The device has been called since [m], each time with the RLE buffer
    empty. *)
Definition called_empty (m m' : t) : Prop :=
  exists new, transport_log m' = transport_log m ++ new
              /\ Forall (fun e => e.2 = 0) new.

(** Nothing reached the device and the encoder was not touched. *)
Definition untouched (m m' : t) : Prop :=
  transport_log m' = transport_log m /\ rle m' = rle m.

(** From an empty buffer: calls see it empty, and it stays empty. *)
Definition keeps_empty (m m' : t) : Prop :=
  RunEncoder.count (rle m) = 0 ->
  called_empty m m' /\ RunEncoder.count (rle m') = 0.

(** The buffer was emptied before anything was called. *)
Definition flushed (m m' : t) : Prop :=
  called_empty m m' /\ RunEncoder.count (rle m') = 0.

Definition untouched_or_flushed (m m' : t) : Prop :=
  untouched m m' \/ flushed m m'.

(** The outcome of a load of [n] bytes answered by the shadow: the device
    and the encoder are left alone; the value is that of the shadow bytes,
    and a shadow stream that ends before the access makes the conversion
    fail with [short]. *)
Definition shadow_load_outcome (n : nat) (short : exn) (a : Z) (m : t) (r : Res t Z)
  : Prop :=
  untouched m (final r)
  /\ (a + Z.of_nat n <= BytesIO.len (local_data m) ->
      exists m', r = Ok (le_value (BytesIO.byte_at (local_data m)
                                     <$> seqZ a (Z.of_nat n))) m')
  /\ (BytesIO.len (local_data m) < a + Z.of_nat n -> raised r = Some short).

(** Whatever was called on the device since [m] was called with what was
    pending in [m] still pending, and the encoder is as it was. *)
Definition calls_see_pending (m m' : t) : Prop :=
  exists new, transport_log m' = transport_log m ++ new
              /\ Forall (fun e => e.2 = RunEncoder.count (rle m)) new
              /\ rle m' = rle m.

(** The same, and the device has been called. *)
Definition called_with_pending (m m' : t) : Prop :=
  exists new, transport_log m' = transport_log m ++ new
              /\ new <> []
              /\ Forall (fun e => e.2 = RunEncoder.count (rle m)) new
              /\ rle m' = rle m.

(** The test of [flash_prefetch_hint] on [m]: the address is in flash and
    fewer than 8 bytes are locally available there. *)
Definition wants_prefetch (a : Z) (m : t) : bool :=
  match local_data_available a 0x100 m with
  | Ok avail _ => (a <? 0x200000) && (avail <? 8)
  | Raise _ _ => false
  end.

End MemoryNotions.

(** Compile an instruction with a factory and run the result, as [step]
    does inside its [try]. *)
Definition run_op (f : SimARM.Factory) (i : Instr) : M SimARM.t unit :=
  opfunc <- of_sum (f i) ;; opfunc.

(** The predicate table of the ARM architecture, by suffix, on N Z C V. *)
Definition arm_condition (suffix : string) (n z c v : bool) : option bool :=
  if String.eqb suffix "eq" then Some z
  else if String.eqb suffix "ne" then Some (negb z)
  else if String.eqb suffix "cs" then Some c
  else if String.eqb suffix "hs" then Some c
  else if String.eqb suffix "cc" then Some (negb c)
  else if String.eqb suffix "lo" then Some (negb c)
  else if String.eqb suffix "mi" then Some n
  else if String.eqb suffix "pl" then Some (negb n)
  else if String.eqb suffix "vs" then Some v
  else if String.eqb suffix "vc" then Some (negb v)
  else if String.eqb suffix "hi" then Some (c && negb z)
  else if String.eqb suffix "ls" then Some (z || negb c)
  else if String.eqb suffix "ge" then Some (Bool.eqb n v)
  else if String.eqb suffix "lt" then Some (negb (Bool.eqb n v))
  else if String.eqb suffix "gt" then Some (Bool.eqb n v && negb z)
  else if String.eqb suffix "le" then Some (negb (Bool.eqb n v) || z)
  else if String.eqb suffix "al" then Some true
  else None.

Definition suffixes : list string :=
  [ "eq"; "ne"; "cs"; "hs"; "cc"; "lo"; "mi"; "pl"; "vs"; "vc";
    "hi"; "ls"; "ge"; "lt"; "gt"; "le"; "al" ]%string.

(** ** Notions for the run encoder and the write path *)

(** The writes [(address, pattern, size)] that a run stands for: [count]
    of them at consecutive addresses. *)
Definition run_writes (r : Z * option (Z * Z * Z)) : list (Z * Z * Z) :=
  match r.2 with
  | Some (a, p, size) =>
      (fun i => (a + Z.of_nat i * size, p, size)) <$> seq 0 (Z.to_nat r.1)
  | None => []
  end.

(** Feeding a list of writes to an encoder: the runs it emits on the way,
    and the encoder at the end. *)
Fixpoint encode (ws : list (Z * Z * Z)) (e : RunEncoder.t)
  : list (Z * option (Z * Z * Z)) * RunEncoder.t :=
  match ws with
  | [] => ([], e)
  | w :: ws' =>
      let '(r, e1) := RunEncoder.write w.1.1 w.1.2 w.2 e in
      let '(rs, e2) := encode ws' e1 in
      (r :: rs, e2)
  end.

(** An encoder state that [write] and [flush] can produce: a key whenever
    something is counted. *)
Definition encoder_ok (e : RunEncoder.t) : Prop :=
  0 <= RunEncoder.count e /\ (RunEncoder.key e = None -> RunEncoder.count e = 0).

Section WritePathNotions.
Import SimARMMemory.

(** A store of [size] 4, 2 or 1 as the triple [(address, value, size)]. *)
Definition do_store (w : Z * Z * Z) : M t unit :=
  if w.2 =? 4 then store w.1.1 w.1.2
  else if w.2 =? 2 then store_half w.1.1 w.1.2
  else store_byte w.1.1 w.1.2.

Fixpoint do_stores (ws : list (Z * Z * Z)) : M t unit :=
  match ws with
  | [] => ret tt
  | w :: ws' => do_store w ;; do_stores ws'
  end.

(** The transport calls that one store amounts to when nothing is
    combined: a word poke, a byte poke, or the two byte pokes of a
    half-word. *)
Definition direct_calls (w : Z * Z * Z) : list DevCall :=
  if w.2 =? 4 then [poke w.1.1 w.1.2]
  else if w.2 =? 2 then [poke_byte w.1.1 (Z.land w.1.2 0xff);
                         poke_byte (w.1.1 + 1) (Z.shiftr w.1.2 8)]
  else [poke_byte w.1.1 w.1.2].

(** A fill, spelled out as the pokes it stands for. *)
Definition unroll (c : DevCall) : list DevCall :=
  match c with
  | fill_words a p n => (fun i => poke (a + Z.of_nat i * 4) p) <$> seq 0 (Z.to_nat n)
  | fill_bytes a p n => (fun i => poke_byte (a + Z.of_nat i * 1) p) <$> seq 0 (Z.to_nat n)
  | _ => [c]
  end.

Definition unrolled (log : list (DevCall * Z)) : list DevCall :=
  concat (unroll <$> log.*1).

(** A transport that never fails. *)
Definition quiet (m : t) : Prop := forall h c, dev_raises (device m) h c = None.

(** A store that takes the remote path and passes the address check. *)
Definition remote_write (m : t) (w : Z * Z * Z) : Prop :=
  (w.2 = 4 \/ w.2 = 2 \/ w.2 = 1)
  /\ 0 <= w.1.1 < 0x05000000
  /\ present (local_addresses m) w.1.1 (Z.to_nat w.2) = false
  /\ skip_stores m !! w.1.1 = None.

(** The pending run is one that remote stores have built. *)
Definition pending_ok (m : t) : Prop :=
  encoder_ok (rle m)
  /\ match RunEncoder.key (rle m) with
     | Some (a, p, size) =>
         (size = 4 \/ size = 2 \/ size = 1)
         /\ forall i, 0 <= i < RunEncoder.count (rle m) -> a + i * size < 0x05000000
     | None => True
     end.

Definition pending_calls (m : t) : list DevCall :=
  concat (direct_calls <$> run_writes (RunEncoder.count (rle m), RunEncoder.key (rle m))).

(** What a store leaves alone: the device, the skip set and which
    addresses are present. *)
Definition write_frame (m m' : t) : Prop :=
  device m' = device m
  /\ skip_stores m' = skip_stores m
  /\ forall a n, present (local_addresses m') a n = present (local_addresses m) a n.

End WritePathNotions.

(** ** Fixtures: a remote device, hooks and a few simulator states *)

(** A device that never fails, answers 0 to reads, returns [r0 + 1] from a
    handler and has nothing in its console or flash. *)
Definition quiet_device : Device :=
  {| dev_raises := fun _ _ => None;
     dev_int := fun _ c => match c with blx _ r0 => r0 + 1 | _ => 0 end;
     dev_bytes := fun _ _ => [] |}.

(** A device on which every handler invocation fails. *)
Definition failing_blx_device : Device :=
  {| dev_raises := fun _ c => match c with blx _ _ => Some (RemoteError 2) | _ => None end;
     dev_int := fun _ _ => 0;
     dev_bytes := fun _ _ => [] |}.

(** A toolchain that is never reached (every fetch below hits the cache). *)
Definition no_disassembly : list byte -> Z -> bool -> exn + list Line :=
  fun _ _ _ => inl (RemoteError 0).

(** Hook 7 writes 42 to r1; every other hook raises. *)
Definition sample_hooks (h : nat) : SimARM.Thunk :=
  if (h =? 7)%nat then modify (SimARM.set_reg 1 42) else raise (RemoteError 1).

Definition cache_one (d : Device) (key : Z) (i : Instr) : SimARMMemory.t :=
  SimARMMemory.set_instructions {[ key := i ]} (SimARMMemory.init d).

(** An operation table that knows [nop] and nothing else. *)
Definition nop_table (name : string) : option SimARM.Factory :=
  if String.eqb name "op_nop" then Some SimARM.op_nop else None.

(** ARM mode, pc = 0x1000: [nop] cached at 0x1000, 0x1004 and 0x2000,
    and on 0x1000 a hook that resets the processor to 0x2000. *)
Definition nop_at (a : Z) : Instr :=
  {| address := a; next_address := a + 4; op := "nop"; args := ""; hle := None |}.
Definition resetting_hooks (h : nat) : SimARM.Thunk :=
  if (h =? 9)%nat then SimARM.reset_again 0x2000 else ret tt.
Definition resettable_memory : SimARMMemory.t :=
  let m := SimARMMemory.init quiet_device in
  SimARMMemory.mk (SimARMMemory.device m) (SimARMMemory.transport_log m)
    {[ 0x1000 := nop_at 0x1000; 0x1004 := nop_at 0x1004; 0x2000 := nop_at 0x2000 ]}
    (SimARMMemory.skip_stores m)
    (SimARMMemory.patch_notes m) (SimARMMemory.patch_hle m)
    (SimARMMemory.hle_handlers m) {[ 0x1000 := 9%nat ]}
    (SimARMMemory.local_addresses m) (SimARMMemory.local_data m)
    (SimARMMemory.rle m) (SimARMMemory.hle_symbols m).
Definition resettable_state : SimARM.t :=
  SimARM.reset resettable_memory 0x1000.

(** ARM mode, pc = 0x1000, where [b 0x0] is cached. *)
Definition branch_zero_instr : Instr :=
  {| address := 0x1000; next_address := 0x1004; op := "b"; args := "0x0"; hle := None |}.
Definition branch_zero_state : SimARM.t :=
  SimARM.reset (cache_one quiet_device 0x1000 branch_zero_instr) 0x1000.

(** Thumb mode, pc = 0x1000: a [nop] carrying an HLE tag, with hook [h]
    registered on its address. *)
Definition tagged_nop : Instr :=
  {| address := 0x1000; next_address := 0x1002; op := "nop"; args := "";
     hle := Some "hle_00001000"%string |}.
Definition tagged_memory (d : Device) (h : nat) : SimARMMemory.t :=
  let m := cache_one d 0x1001 tagged_nop in
  SimARMMemory.mk (SimARMMemory.device m) (SimARMMemory.transport_log m)
    (SimARMMemory.instructions m) (SimARMMemory.skip_stores m)
    (SimARMMemory.patch_notes m) {[ 0x1001 := "hle_00001000"%string ]}
    (SimARMMemory.hle_handlers m) {[ 0x1000 := h ]}
    (SimARMMemory.local_addresses m) (SimARMMemory.local_data m)
    (SimARMMemory.rle m) {[ "hle_00001000"%string := 0x1ff0000 ]}.
Definition tagged_state (d : Device) (h : nat) : SimARM.t :=
  SimARM.reset (tagged_memory d h) 0x1001.

(** The same memory before the instruction was ever fetched, on a device
    that serves eight bytes of flash, and a toolchain that disassembles
    them into two [nop] lines. *)
Definition flash_device : Device :=
  {| dev_raises := fun _ _ => None;
     dev_int := fun _ _ => 0;
     dev_bytes := fun _ c => match c with
                             | read_block _ _ _ => replicate 8 x00
                             | _ => []
                             end |}.
Definition two_nops : list byte -> Z -> bool -> exn + list Line :=
  fun _ a _ => inr [ {| l_address := a; l_op := "nop"; l_args := "" |};
                     {| l_address := a + 2; l_op := "nop"; l_args := "" |} ].
Definition tagged_unfetched : SimARMMemory.t :=
  SimARMMemory.set_instructions ∅ (tagged_memory flash_device 7).

(** Thumb mode, pc = 0x1000: an unknown mnemonic, reached while a store to
    0x2000000 is still pending in the run encoder. *)
Definition unknown_instr : Instr :=
  {| address := 0x1000; next_address := 0x1002; op := "frob"; args := "r0"; hle := None |}.
Definition pending_state : SimARM.t :=
  SimARM.reset
    (final (SimARMMemory.store 0x2000000 7 (cache_one quiet_device 0x1001 unknown_instr)))
    0x1001.

(** [bls 0x2000], as [sim_arm.py] is asked to run it. *)
Definition bls_instr : Instr :=
  {| address := 0x1000; next_address := 0x1004; op := "bls"; args := "0x2000"; hle := None |}.

(** A memory with one word of local RAM at 0x2000000 holding 7, and a
    store to 0x3000000 pending in the RLE encoder. *)
Definition shadow_and_pending : SimARMMemory.t :=
  final ((SimARMMemory.local_ram 0x2000000 0x2000003 ;;
          SimARMMemory.store 0x2000000 7 ;;
          SimARMMemory.store 0x3000000 9) (SimARMMemory.init quiet_device)).

(** One word of flash at 0x1000 already in the shadow, holding 7, and the
    same store pending. *)
Definition flash_word_and_pending : SimARMMemory.t :=
  final ((SimARMMemory.local_ram 0x1000 0x1003 ;;
          SimARMMemory.store 0x1000 7 ;;
          SimARMMemory.store 0x3000000 9) (SimARMMemory.init quiet_device)).

(** The memory of the tagged [nop], with the same store pending. *)
Definition tagged_and_pending : SimARMMemory.t :=
  final (SimARMMemory.store 0x3000000 9 (tagged_memory quiet_device 7)).

Section CacheNotions.
Import SimARMMemory.

(** The instruction cache only gains entries: what is cached stays cached,
    unchanged. *)
Definition cache_grows (m m' : t) : Prop :=
  forall k i, instructions m !! k = Some i -> instructions m' !! k = Some i.

(** The instruction cache and the table of HLE patches are left alone. *)
Definition keeps_code (m m' : t) : Prop :=
  instructions m' = instructions m /\ patch_hle m' = patch_hle m.

(** Every cached instruction is either one that was cached in [m0] or
    carries the HLE tag that the patch table has for its key. *)
Definition tagged_from (m0 m : t) : Prop :=
  patch_hle m = patch_hle m0
  /\ forall k i, instructions m !! k = Some i ->
       instructions m0 !! k = Some i \/ hle i = patch_hle m0 !! k.

End CacheNotions.

(** An assembler that answers every request with four bytes. *)
Definition sample_assembler : Z -> string -> bool -> exn + list byte :=
  fun _ _ _ => inr [x00; xbf; x00; xbf].

(** A 32-bit word read as a two's-complement number. *)
Definition signed32 (x : Z) : Z := if x <? 2 ^ 31 then x else x - 2 ^ 32.

(** What the comparison suffixes mean for the two operands of a [cmp]:
    equality, the unsigned order and the signed order. *)
Definition compare_outcome (suffix : string) (a b : Z) : option bool :=
  if String.eqb suffix "eq" then Some (a =? b)
  else if String.eqb suffix "ne" then Some (negb (a =? b))
  else if String.eqb suffix "cs" then Some (b <=? a)
  else if String.eqb suffix "hs" then Some (b <=? a)
  else if String.eqb suffix "cc" then Some (a <? b)
  else if String.eqb suffix "lo" then Some (a <? b)
  else if String.eqb suffix "hi" then Some (b <? a)
  else if String.eqb suffix "ls" then Some (a <=? b)
  else if String.eqb suffix "ge" then Some (signed32 b <=? signed32 a)
  else if String.eqb suffix "lt" then Some (signed32 a <? signed32 b)
  else if String.eqb suffix "gt" then Some (signed32 b <? signed32 a)
  else if String.eqb suffix "le" then Some (signed32 a <=? signed32 b)
  else None.

(** An instruction of the given mnemonic and operand text. *)
Definition instr_of (a n : Z) (mnemonic operands : string) (h : option string) : Instr :=
  {| address := a; next_address := n; op := mnemonic; args := operands; hle := h |}.

(** * Properties *)

(** ** Shifter and data-processing operations *)

Section DataProcessing.
Import SimARM.

Lemma lsl_nonzero (a b : Z) :
  Z.land b 31 <> 0 ->
  lsl a b = (Z.shiftl a (Z.land b 31),
             Z.b2z (Z.testbit a (32 - Z.land b 31))).
Proof.
  intros Hb. unfold lsl.
  destruct (Z.eqb_spec (Z.land b 31) 0) as [E|_]; [contradiction|]. cbn [negb].
  f_equal.
  assert (Hr : 0 <= Z.land b 31 < 32).
  { change 31 with (Z.ones 5). rewrite Z.land_ones by lia.
    apply Z.mod_pos_bound. lia. }
  rewrite Z.land_comm, Z.land_ones with (n := 1) by lia.
  rewrite Z.shiftr_shiftl_r by lia.
  rewrite <- Z.bit0_mod, Z.shiftr_spec by lia.
  f_equal.
Qed.

Example lsl_keeps_bit_32 : lsl 0x80000000 1 = (0x100000000, 1).
Proof. reflexivity. Qed.

Lemma reg_set_reg_eq (n : nat) (v : Z) (s : t) :
  (n < length (regs s))%nat -> reg n (set_reg n v s) = v.
Proof.
  intros H. unfold reg, set_reg. cbn [regs set_regs].
  apply list_lookup_total_insert_eq. exact H.
Qed.

Lemma shifter_r0_lsl1 : _shifter "r0, lsl #1" = inr (fun st => lsl (reg 0 st) 1).
Proof. reflexivity. Qed.

Lemma dstpc_r1 :
  _dstpc "r1" = inr (fun r => modify (set_reg 1 (Z.land r 0xffffffff))).
Proof. reflexivity. Qed.

(** C1 (as the code runs it).  [movs r1, r0, lsl #1] with r0 = 0x80000000,
    from any flag state: r1 becomes 0 and C becomes 1, but Z is cleared,
    because [lsl] hands back the unmasked 0x100000000 and [op_movs] tests
    that value against zero. *)
Theorem movs_lsl_scenario_clears_Z (s : t) (a n : Z) (h : option string) :
  length (regs s) = 16%nat ->
  reg 0 s = 0x80000000 ->
  exists s',
    run_op op_movs {| address := a; next_address := n; op := "movs";
                      args := "r1, r0, lsl #1"; hle := h |} s = Ok tt s'
    /\ reg 1 s' = 0 /\ cpsrC s' = true /\ cpsrZ s' = false.
Proof.
  intros Hl H0.
  unfold run_op, op_movs. cbn [args].
  change (split ", " (Some 1%nat) "r1, r0, lsl #1")
    with ["r1"%string; "r0, lsl #1"%string].
  cbn [unpack2 sum_bind fst snd].
  rewrite shifter_r0_lsl1, dstpc_r1.
  unfold sum_bind, of_sum, bind, gets, modify, ret. cbn [fst snd].
  rewrite H0.
  eexists. split; [reflexivity|].
  split; [|split; reflexivity].
  rewrite reg_set_reg_eq; [reflexivity | cbn; lia].
Qed.

Lemma movs_lsl_scenario_clears_Z_witness :
  exists s',
    run_op op_movs {| address := 0; next_address := 4; op := "movs";
                      args := "r1, r0, lsl #1"; hle := None |}
           (set_reg 0 0x80000000 (reset (SimARMMemory.init quiet_device) 0)) = Ok tt s'
    /\ reg 1 s' = 0 /\ cpsrC s' = true /\ cpsrZ s' = false.
Proof.
  apply (movs_lsl_scenario_clears_Z
           (set_reg 0 0x80000000 (reset (SimARMMemory.init quiet_device) 0))
           0 4 None); reflexivity.
Defined.

(** The sibling [lsls r1, r0, #1] masks before it tests, and sets Z. *)
Example lsls_scenario_sets_Z :
  let s := set_reg 0 0x80000000 (reset (SimARMMemory.init quiet_device) 0) in
  let r := run_op op_lsls {| address := 0; next_address := 4; op := "lsls";
                             args := "r1, r0, #1"; hle := None |} s in
  raised r = None /\ reg 1 (final r) = 0
  /\ cpsrC (final r) = true /\ cpsrZ (final r) = true.
Proof. repeat split. Qed.

(** What a destination function may touch: a register, or the branch sink
    and the ISA mode; never a flag, the stray attribute or the memory. *)
Lemma dstpc_frame (dst : string) (dF : Z -> M t unit) (r : Z) (s : t) :
  _dstpc dst = inr dF ->
  exists s', dF r s = Ok tt s'
    /\ cpsrC s' = cpsrC s /\ cpsrZ s' = cpsrZ s /\ cpsrN s' = cpsrN s
    /\ cpsrV s' = cpsrV s /\ csprC s' = csprC s /\ memory s' = memory s.
Proof.
  unfold _dstpc. destruct (String.eqb dst "pc").
  - intros [= <-]. eexists. split; [reflexivity|]. repeat split.
  - unfold sum_bind. destruct (reg_number dst) as [e|rn]; [discriminate|].
    intros [= <-]. eexists. split; [reflexivity|]. repeat split.
Qed.

(** C8 (as the code runs it).  For every operand string that [op_mvns]
    accepts, running the thunk leaves [cpsrC] as it was: the carry-out of
    the shifter is stored in the attribute [csprC] instead.  N and Z do
    follow the complemented value. *)
Theorem mvns_leaves_cpsrC (i : Instr) (th : Thunk) (s : t) :
  op_mvns i = inr th ->
  exists dst src sF s',
    split ", " (Some 1%nat) (args i) = [dst; src]
    /\ _shifter src = inr sF
    /\ th s = Ok tt s'
    /\ cpsrC s' = cpsrC s
    /\ csprC s' = Some (truthy (sF s).2)
    /\ cpsrZ s' = (Z.lxor (sF s).1 0xffffffff =? 0)
    /\ cpsrN s' = truthy (Z.land (Z.shiftr (Z.lxor (sF s).1 0xffffffff) 31) 1).
Proof.
  unfold op_mvns. intros H.
  destruct (split ", " (Some 1%nat) (args i)) as [|dst [|src [|x l]]] eqn:Hs;
    try discriminate H.
  cbn [unpack2 sum_bind fst snd] in H.
  destruct (_shifter src) as [e|sF] eqn:HsF; [discriminate H|].
  cbn [sum_bind] in H.
  destruct (_dstpc dst) as [e|dF] eqn:HdF; [discriminate H|].
  cbn [sum_bind] in H. injection H as <-.
  unfold bind, gets, modify.
  match goal with |- context [dF ?r ?s0] =>
    destruct (dstpc_frame dst dF r s0 HdF) as (s' & -> & HC & HZ & HN & HV & Hx & Hm)
  end.
  exists dst, src, sF, s'. repeat split; assumption.
Qed.

Lemma mvns_leaves_cpsrC_witness :
  let s := set_reg 0 0x80000000 (reset (SimARMMemory.init quiet_device) 0) in
  exists th dst src sF s',
    op_mvns {| address := 0; next_address := 4; op := "mvns";
               args := "r1, r0, lsl #1"; hle := None |} = inr th
    /\ split ", " (Some 1%nat) "r1, r0, lsl #1" = [dst; src]
    /\ _shifter src = inr sF
    /\ th s = Ok tt s'
    /\ cpsrC s' = false
    /\ (sF s).2 = 1
    /\ csprC s' = Some true.
Proof.
  intros s.
  destruct (op_mvns {| address := 0; next_address := 4; op := "mvns";
                       args := "r1, r0, lsl #1"; hle := None |}) as [e|th] eqn:Hop;
    [discriminate Hop|].
  destruct (mvns_leaves_cpsrC _ th s Hop)
    as (dst & src & sF & s' & Hs & HsF & Hrun & HC & Hx & _).
  exists th, dst, src, sF, s'.
  vm_compute in Hs. injection Hs as <- <-.
  rewrite shifter_r0_lsl1 in HsF. injection HsF as <-.
  repeat split; try assumption; reflexivity.
Defined.

End DataProcessing.

(** ** Condition codes *)

Section ConditionCodes.
Import SimARM.

(** X18.  In [sim_arm_core.py] every suffix is registered with the predicate of
    the ARM table: the conditional factory fails exactly when the base
    factory does, and the thunk it returns runs the base thunk iff the
    predicate holds on the flags of the state it is called on. *)
Lemma core_condition_table (fn : Factory) (c : string) :
  In c suffixes ->
  exists g, assoc c (condition_table fn) = Some g
    /\ forall i,
         match fn i, g i with
         | inl e, inl e' => e = e'
         | inr f, inr th =>
             forall s, exists b,
               arm_condition c (cpsrN s) (cpsrZ s) (cpsrC s) (cpsrV s) = Some b
               /\ th s = if b then f s else Ok tt s
         | _, _ => False
         end.
Proof.
  intros Hin. cbn in Hin.
  repeat (destruct Hin as [<-|Hin]); try contradiction;
    (eexists; split; [reflexivity|]; intros i;
     unfold conditional, sum_bind; cbn [snd]; destruct (fn i) as [e|f];
     [reflexivity|];
     intros s; eexists; split; [reflexivity|];
     destruct (cpsrN s), (cpsrZ s), (cpsrC s), (cpsrV s); reflexivity).
Qed.

(** C4 (as [sim_arm.py] runs it).  With Z = 0 and C = 0 the ARM table says
    [ls] holds, yet the [ls] entry of the earlier simulator (which tests
    [Z and not C]) does not run the branch; the unconditional branch on the
    same state does set the branch sink. *)
Theorem legacy_bls_not_taken :
  let s := reset (SimARMMemory.init quiet_device) 0x1000 in
  exists g, assoc "ls" (Legacy.condition_table Legacy.op_b) = Some g
    /\ arm_condition "ls" (cpsrN s) (cpsrZ s) (cpsrC s) (cpsrV s) = Some true
    /\ g bls_instr s = Ok tt s
    /\ Legacy.op_b bls_instr s = Ok tt (set__branch (Some 0x2000) s).
Proof. eexists. repeat split. Qed.

(** The same entry, on every state: it fires iff [Z && !C]. *)
Lemma legacy_ls_test (fn : Legacy.Op) (i : Instr) (s : t) :
  exists g, assoc "ls" (Legacy.condition_table fn) = Some g
    /\ g i s = if cpsrZ s && negb (cpsrC s) then fn i s else Ok tt s.
Proof. eexists. split; reflexivity. Qed.

End ConditionCodes.

(** ** The step driver *)

Section StepDriver.
Import SimARM.

Variable disassembly : list byte -> Z -> bool -> exn + list Line.
Variable getattr : string -> option Factory.
Variable run_hook : nat -> Thunk.

Lemma branch_or_next_target (b : Z) (i : Instr) :
  b <> 0 -> branch_or_next (Some b) i = b.
Proof.
  intros H. unfold branch_or_next, truthy.
  destruct (Z.eqb_spec b 0); [contradiction|reflexivity].
Qed.

Lemma branch_or_next_zero (i : Instr) :
  branch_or_next (Some 0) i = next_address i.
Proof. reflexivity. Qed.

Lemma local_reg_attached (rid n : nat) (s : t) :
  regs_id s = rid -> local_reg rid n s = reg n s.
Proof. intros <-. unfold local_reg. rewrite Nat.eqb_refl. reflexivity. Qed.

Lemma set_local_reg_attached (rid n : nat) (v : Z) (s : t) :
  regs_id s = rid -> set_local_reg rid n v s = set_reg n v s.
Proof. intros <-. unfold set_local_reg. rewrite Nat.eqb_refl. reflexivity. Qed.

(** Writing through the local variable touches a register list and
    nothing else. *)
Lemma set_local_reg_frame (rid n : nat) (v : Z) (s : t) :
  memory (set_local_reg rid n v s) = memory s
  /\ regs_id (set_local_reg rid n v s) = regs_id s
  /\ _branch (set_local_reg rid n v s) = _branch s
  /\ thumb (set_local_reg rid n v s) = thumb s.
Proof. unfold set_local_reg. destruct (regs_id s =? rid)%nat; repeat split. Qed.

(** When the body of the [try] completes, the pc is the sunk branch
    target unless that target is 0 (or nothing was sunk). *)
Lemma step_try_sinks_branch
    (rid : nat) (instr : Instr) (bp : option Z) (th : Thunk) (s s1 : t) :
  compile getattr instr = inr th ->
  th s = Ok tt s1 ->
  exists stop, step_try getattr rid instr bp s
               = Ok stop (set_local_reg rid 15 (branch_or_next (_branch s1) instr) s1).
Proof.
  intros Hc Hth. unfold step_try. rewrite Hc.
  unfold of_sum, bind, ret, gets, modify. rewrite Hth.
  eexists. reflexivity.
Qed.

(** C2 (as the code runs it).  [b 0x0] stores 0 in [_branch]; the step
    driver then reads [_branch or next_address] and continues at the next
    instruction, not at address 0. *)
Theorem branch_to_zero_falls_through :
  let r := step disassembly getattr_op run_hook 1 None branch_zero_state in
  raised r = None
  /\ _branch (final r) = Some 0
  /\ reg 15 (final r) = 0x1004.
Proof. vm_compute. repeat split. Qed.

(** The tagged [nop] is what a first fetch installs in the cache: the
    prefetch reads the flash block, the lines are linked and the HLE tag
    registered for the address is attached. *)
Example fetch_installs_tagged_nop :
  exists m', SimARMMemory.fetch two_nops 0x1000 true tagged_unfetched = Ok tagged_nop m'
    /\ SimARMMemory.instructions m' !! 0x1001 = Some tagged_nop
    /\ (SimARMMemory.transport_log m').*1 = [read_block 0x1000 0x100 (Some 1)].
Proof. eexists. split; [vm_compute; reflexivity|]. split; reflexivity. Qed.

(** C6 (as the code runs it).  The tagged [nop] at 0x1000 with a hook on
    it, stepped with the breakpoint on the next instruction: the step
    returns at the breakpoint test with no call made on the device and r1
    untouched, so neither the handler nor the hook ran.  Without the
    breakpoint the same step runs the handler (r0 becomes 1) and then the
    hook (r1 becomes 42). *)
Theorem breakpoint_skips_hle_and_hook :
  let s := tagged_state quiet_device 7 in
  let stopped := step disassembly getattr_op sample_hooks 1 (Some 0x1002) s in
  let free := step disassembly getattr_op sample_hooks 1 None s in
  (raised stopped = None
   /\ reg 15 (final stopped) = 0x1002
   /\ SimARMMemory.transport_log (memory (final stopped)) = []
   /\ reg 0 (final stopped) = 0 /\ reg 1 (final stopped) = 0)
  /\ (raised free = None
      /\ reg 15 (final free) = 0x1002
      /\ (SimARMMemory.transport_log (memory (final free))).*1
         = [console_discard; blx 0x1ff0000 0; console_read]
      /\ reg 0 (final free) = 1 /\ reg 1 (final free) = 42).
Proof. vm_compute. repeat split. Qed.

(** On every state: an iteration that ends at the breakpoint test ends in
    the state the [try] body left; nothing after the [try] has run. *)
Lemma step_iteration_returns_at_breakpoint
    (rid : nat) (bp : option Z) (s s1 s2 : t) (hook : option nat) (instr : Instr) :
  step_fetch disassembly rid s = Ok (hook, instr) s1 ->
  step_try getattr rid instr bp s1 = Ok true s2 ->
  step_iteration disassembly getattr run_hook rid bp s = Ok true s2.
Proof.
  intros Hf Ht. unfold step_iteration, bind, try_reraise.
  rewrite Hf, Ht. reflexivity.
Qed.

(** The first iteration of [step], entered on [s]. *)
Lemma step_first_iteration (repeat : Z) (bp : option Z) (s : t) :
  0 < repeat ->
  step disassembly getattr run_hook repeat bp s
  = (stop <- step_iteration disassembly getattr run_hook (regs_id s) bp ;;
     if stop then ret tt
     else step_loop disassembly getattr run_hook (regs_id s)
            (Nat.pred (Z.to_nat repeat)) bp) s.
Proof.
  intros Hrep. unfold step. unfold bind at 1, gets.
  destruct (Z.to_nat repeat) as [|n] eqn:Hn; [lia|]. reflexivity.
Qed.

(** C9, amended.  The [try] of [step] encloses the operation, the branch
    sink and the breakpoint test, and nothing else.  When its body raises
    (the operation cannot be compiled, or its thunk raises), [step]
    propagates that exception from the state the body left, with the pc
    of the list that [step] works on overwritten by the address of the
    instruction and nothing else changed: the memory proxy, and with it
    the run pending in the RLE encoder, is exactly as the failing
    operation left it.  When the body completes without reaching the
    breakpoint and the HLE handler or the hook raises, [step] propagates
    the exception from exactly the state that the handler or hook left:
    the pc is not restored.  After a failing handler that state is the
    one the [try] body left, with only the memory proxy changed, so the
    pc is the value assigned there, [_branch or next_address]. *)
Theorem step_restores_pc_only_inside_try
    (repeat : Z) (bp : option Z) (s s1 : t) (hook : option nat)
    (instr : Instr) (e : exn) :
  0 < repeat ->
  step_fetch disassembly (regs_id s) s = Ok (hook, instr) s1 ->
  let rid := regs_id s in
  let r := step disassembly getattr run_hook repeat bp s in
  (forall s2,
     step_try getattr rid instr bp s1 = Raise e s2 ->
     raised r = Some e
     /\ final r = set_local_reg rid 15 (address instr) s2
     /\ memory (final r) = memory s2
     /\ SimARMMemory.rle (memory (final r)) = SimARMMemory.rle (memory s2)
     /\ (regs_id s2 = rid -> (15 < length (regs s2))%nat ->
         final r = set_reg 15 (address instr) s2
         /\ reg 15 (final r) = address instr))
  /\ (forall s2 s3,
        step_try getattr rid instr bp s1 = Ok false s2 ->
        step_after run_hook rid hook instr s2 = Raise e s3 ->
        raised r = Some e /\ final r = s3)
  /\ (forall th s1' m',
        compile getattr instr = inr th ->
        th s1 = Ok tt s1' ->
        let s2 := set_local_reg rid 15 (branch_or_next (_branch s1') instr) s1' in
        step_try getattr rid instr bp s1 = Ok false s2 ->
        truthy_name (hle instr) = true ->
        SimARMMemory.hle_invoke instr (local_reg rid 0 s2) (memory s2) = Raise e m' ->
        raised r = Some e
        /\ final r = set_memory m' s2
        /\ local_reg rid 15 (final r) = local_reg rid 15 s2
        /\ (regs_id s1' = rid -> (15 < length (regs s1'))%nat ->
            reg 15 (final r) = branch_or_next (_branch s1') instr)).
Proof.
  intros Hrep Hf rid r. subst rid. set (rid := regs_id s) in *.
  assert (Hr : r = (stop <- step_iteration disassembly getattr run_hook rid bp ;;
                    if stop then ret tt
                    else step_loop disassembly getattr run_hook rid
                           (Nat.pred (Z.to_nat repeat)) bp) s)
    by (apply step_first_iteration; exact Hrep).
  assert (Hafter : forall s2 s3,
            step_try getattr rid instr bp s1 = Ok false s2 ->
            step_after run_hook rid hook instr s2 = Raise e s3 ->
            r = Raise e s3).
  { intros s2 s3 Ht Ha. rewrite Hr. unfold bind at 1, step_iteration.
    unfold bind at 1. rewrite Hf. unfold bind at 1, try_reraise. rewrite Ht.
    unfold bind at 1. rewrite Ha. reflexivity. }
  split; [|split].
  - intros s2 Ht.
    assert (Hr2 : r = Raise e (set_local_reg rid 15 (address instr) s2)).
    { rewrite Hr. unfold bind at 1, step_iteration.
      unfold bind at 1. rewrite Hf. unfold bind at 1, try_reraise. rewrite Ht.
      reflexivity. }
    rewrite Hr2. cbn [raised final].
    destruct (set_local_reg_frame rid 15 (address instr) s2) as (Hm & _).
    split; [reflexivity|]. split; [reflexivity|]. split; [exact Hm|].
    split; [rewrite Hm; reflexivity|].
    intros Hid Hlen. rewrite set_local_reg_attached by exact Hid.
    split; [reflexivity | apply reg_set_reg_eq; exact Hlen].
  - intros s2 s3 Ht Ha. rewrite (Hafter s2 s3 Ht Ha). split; reflexivity.
  - intros th s1' m' Hc Hth s2 Ht Hhle Hinv.
    assert (Ha : step_after run_hook rid hook instr s2 = Raise e (set_memory m' s2)).
    { unfold step_after. rewrite Hhle. unfold bind, gets, mem, zoom.
      rewrite Hinv. reflexivity. }
    rewrite (Hafter s2 _ Ht Ha). cbn [raised final].
    split; [reflexivity|]. split; [reflexivity|]. split; [reflexivity|].
    intros Hid Hlen. change (reg 15 (set_memory m' s2)) with (reg 15 s2).
    subst s2. rewrite set_local_reg_attached by exact Hid.
    apply reg_set_reg_eq. exact Hlen.
Qed.

End StepDriver.

(** C9, counterexample.  The hook of the tagged [nop] raises: the
    exception leaves [step] with the pc on the next instruction (0x1002),
    not on the instruction's own address (0x1000).  The same happens when
    the HLE invocation raises. *)
Lemma raising_hook_keeps_advanced_pc :
  let by_hook := SimARM.step no_disassembly SimARM.getattr_op sample_hooks 1 None
                      (tagged_state quiet_device 8) in
  let by_hle := SimARM.step no_disassembly SimARM.getattr_op sample_hooks 1 None
                     (tagged_state failing_blx_device 7) in
  raised by_hook = Some (RemoteError 1)
  /\ SimARM.reg 15 (final by_hook) = 0x1002
  /\ raised by_hle = Some (RemoteError 2)
  /\ SimARM.reg 15 (final by_hle) = 0x1002
  /\ address tagged_nop = 0x1000.
Proof. vm_compute. repeat split. Qed.

Lemma step_restores_pc_only_inside_try_witness :
  let s1 := final (SimARM.step_fetch no_disassembly 0 pending_state) in
  let t1 := final (SimARM.step_fetch no_disassembly 0 (tagged_state failing_blx_device 7)) in
  let u1 := final (SimARM.step_fetch no_disassembly 0 (tagged_state quiet_device 8)) in
  (SimARM.step_fetch no_disassembly (SimARM.regs_id pending_state) pending_state
   = Ok (None, unknown_instr) s1
   /\ SimARM.step_try SimARM.getattr_op 0 unknown_instr None s1
      = Raise (AttributeError "op_frob") s1
   /\ (let r := SimARM.step no_disassembly SimARM.getattr_op sample_hooks 1 None
                            pending_state in
       raised r = Some (AttributeError "op_frob")
       /\ final r = SimARM.set_reg 15 (address unknown_instr) s1
       /\ SimARM.reg 15 (final r) = address unknown_instr
       /\ SimARM.memory (final r) = SimARM.memory s1))
  /\ (exists t2 m',
        SimARM.step_try SimARM.getattr_op 0 tagged_nop None t1 = Ok false t2
        /\ SimARMMemory.hle_invoke tagged_nop (SimARM.local_reg 0 0 t2) (SimARM.memory t2)
           = Raise (RemoteError 2) m'
        /\ (let r := SimARM.step no_disassembly SimARM.getattr_op sample_hooks 1 None
                                 (tagged_state failing_blx_device 7) in
            raised r = Some (RemoteError 2)
            /\ final r = SimARM.set_memory m' t2
            /\ SimARM.reg 15 (final r) = 0x1002))
  /\ (exists u2 u3,
        SimARM.step_try SimARM.getattr_op 0 tagged_nop None u1 = Ok false u2
        /\ SimARM.step_after sample_hooks 0 (Some 8%nat) tagged_nop u2
           = Raise (RemoteError 1) u3
        /\ (let r := SimARM.step no_disassembly SimARM.getattr_op sample_hooks 1 None
                                 (tagged_state quiet_device 8) in
            raised r = Some (RemoteError 1) /\ final r = u3)).
Proof.
  intros s1 t1 u1. split; [|split].
  - assert (Hf : SimARM.step_fetch no_disassembly (SimARM.regs_id pending_state) pending_state
                 = Ok (None, unknown_instr) s1) by (vm_compute; reflexivity).
    assert (Ht : SimARM.step_try SimARM.getattr_op 0 unknown_instr None s1
                 = Raise (AttributeError "op_frob") s1) by (vm_compute; reflexivity).
    split; [exact Hf|]. split; [exact Ht|].
    destruct (step_restores_pc_only_inside_try no_disassembly SimARM.getattr_op
                sample_hooks 1 None pending_state s1 None unknown_instr
                (AttributeError "op_frob") ltac:(lia) Hf) as (H1 & _ & _).
    destruct (H1 s1 Ht) as (Hr & _ & Hm & _ & Hpc).
    destruct (Hpc eq_refl ltac:(vm_compute; lia)) as (Hfin & H15).
    split; [exact Hr|]. split; [exact Hfin|]. split; [exact H15 | exact Hm].
  - assert (Hf : SimARM.step_fetch no_disassembly
                   (SimARM.regs_id (tagged_state failing_blx_device 7))
                   (tagged_state failing_blx_device 7)
                 = Ok (Some 7%nat, tagged_nop) t1) by (vm_compute; reflexivity).
    destruct (SimARM.step_try SimARM.getattr_op 0 tagged_nop None t1) as [b t2|x t2] eqn:Ht;
      [|vm_compute in Ht; discriminate].
    assert (Hb : b = false) by (vm_compute in Ht; congruence). subst b.
    destruct (SimARMMemory.hle_invoke tagged_nop (SimARM.local_reg 0 0 t2) (SimARM.memory t2))
      as [v m'|x m'] eqn:Hi.
    { exfalso. vm_compute in Ht. injection Ht as <-. vm_compute in Hi. discriminate. }
    assert (Hx : x = RemoteError 2).
    { vm_compute in Ht. injection Ht as <-. vm_compute in Hi. congruence. }
    subst x. exists t2, m'. split; [reflexivity|]. split; [exact Hi|].
    destruct (step_restores_pc_only_inside_try no_disassembly SimARM.getattr_op
                sample_hooks 1 None (tagged_state failing_blx_device 7) t1 (Some 7%nat)
                tagged_nop (RemoteError 2) ltac:(lia) Hf) as (_ & _ & H3).
    assert (Et2 : t2 = SimARM.set_local_reg 0 15
                         (SimARM.branch_or_next (SimARM._branch t1) tagged_nop) t1)
      by (vm_compute in Ht; injection Ht as <-; vm_compute; reflexivity).
    subst t2.
    destruct (H3 (ret tt) t1 m' eq_refl eq_refl) as (Hr & Hfin & _ & Hpc).
    + exact Ht.
    + reflexivity.
    + exact Hi.
    + split; [exact Hr|]. split; [exact Hfin|].
      rewrite (Hpc eq_refl ltac:(vm_compute; lia)). vm_compute. reflexivity.
  - assert (Hf : SimARM.step_fetch no_disassembly
                   (SimARM.regs_id (tagged_state quiet_device 8))
                   (tagged_state quiet_device 8)
                 = Ok (Some 8%nat, tagged_nop) u1) by (vm_compute; reflexivity).
    destruct (SimARM.step_try SimARM.getattr_op 0 tagged_nop None u1) as [b u2|x u2] eqn:Ht;
      [|vm_compute in Ht; discriminate].
    assert (Hb : b = false) by (vm_compute in Ht; congruence). subst b.
    destruct (SimARM.step_after sample_hooks 0 (Some 8%nat) tagged_nop u2)
      as [v u3|x u3] eqn:Ha.
    { exfalso. vm_compute in Ht. injection Ht as <-. vm_compute in Ha. discriminate. }
    assert (Hx : x = RemoteError 1).
    { vm_compute in Ht. injection Ht as <-. vm_compute in Ha. congruence. }
    subst x. exists u2, u3. split; [reflexivity|]. split; [exact Ha|].
    destruct (step_restores_pc_only_inside_try no_disassembly SimARM.getattr_op
                sample_hooks 1 None (tagged_state quiet_device 8) u1 (Some 8%nat)
                tagged_nop (RemoteError 1) ltac:(lia) Hf) as (_ & H2 & _).
    exact (H2 u2 u3 Ht Ha).
Defined.

(** In that run the store that was pending before the step is still
    pending after the exception, and the device has seen nothing. *)
Example failed_step_keeps_pending_run :
  let r := SimARM.step no_disassembly SimARM.getattr_op sample_hooks 1 None
                       pending_state in
  RunEncoder.count (SimARMMemory.rle (SimARM.memory (final r))) = 1
  /\ RunEncoder.key (SimARMMemory.rle (SimARM.memory (final r))) = Some (0x2000000, 7, 4)
  /\ SimARMMemory.transport_log (SimARM.memory (final r)) = [].
Proof. vm_compute. repeat split. Qed.

(** ** The memory proxy *)

Section Sat.
Context {S : Type}.

Lemma sat_bind_gen {A B} (R1 R2 R3 : S -> S -> Prop) (c : M S A) (k : A -> M S B) :
  sat R1 c -> (forall a, sat R2 (k a)) ->
  (forall x y, R1 x y -> R3 x y) ->
  (forall x y z, R1 x y -> R2 y z -> R3 x z) ->
  sat R3 (bind c k).
Proof.
  intros Hc Hk H1 H12 s. unfold bind. specialize (Hc s).
  destruct (c s) as [a s'|e s']; cbn [final] in *.
  - eapply H12; [exact Hc | apply Hk].
  - apply H1. exact Hc.
Qed.

Lemma sat_bind {A B} (R : S -> S -> Prop) `{!PreOrder R} (c : M S A) (k : A -> M S B) :
  sat R c -> (forall a, sat R (k a)) -> sat R (bind c k).
Proof.
  intros Hc Hk. eapply sat_bind_gen; eauto.
  intros x y z Hxy Hyz. etransitivity; eauto.
Qed.

Lemma sat_ret {A} (R : S -> S -> Prop) `{!Reflexive R} (a : A) : sat R (ret a).
Proof. intros s. reflexivity. Qed.

Lemma sat_raise {A} (R : S -> S -> Prop) `{!Reflexive R} (e : exn) :
  sat R (raise (A := A) e).
Proof. intros s. reflexivity. Qed.

Lemma sat_gets {A} (R : S -> S -> Prop) `{!Reflexive R} (f : S -> A) : sat R (gets f).
Proof. intros s. reflexivity. Qed.

Lemma sat_of_sum {A} (R : S -> S -> Prop) `{!Reflexive R} (r : exn + A) :
  sat R (of_sum r).
Proof. destruct r; intros s; reflexivity. Qed.

Lemma sat_weaken {A} (R R' : S -> S -> Prop) (c : M S A) :
  (forall x y, R x y -> R' x y) -> sat R c -> sat R' c.
Proof. intros H Hc s. apply H, Hc. Qed.

End Sat.

Section MemoryProxy.
Import SimARMMemory.

Lemma all_present_spec (m : t) (a : Z) (n : nat) :
  0 <= a ->
  all_present a n m
  = Ok (present (local_addresses m) a n)
       (set_local_addresses (seeked a (Z.of_nat n) (local_addresses m)) m).
Proof.
  intros Ha. unfold all_present, addresses, zoom, bind, ret, BytesIO.seek, BytesIO.read.
  destruct (Z.ltb_spec a 0) as [?|_]; [lia|].
  destruct (Z.ltb_spec (Z.of_nat n) 0) as [?|_]; [lia|]. reflexivity.
Qed.

#[local] Instance same_data_preorder : PreOrder same_data.
Proof.
  split; [intros m; reflexivity|].
  intros x y z Hxy Hyz. unfold same_data in *. congruence.
Qed.

Lemma device_call_same_data (c : DevCall) : sat same_data (device_call c).
Proof.
  intros m. unfold device_call.
  destruct (dev_raises _ _ _); reflexivity.
Qed.

Lemma check_address_sat (R : t -> t -> Prop) `{!Reflexive R} (a : Z) :
  sat R (check_address a).
Proof. unfold check_address. destruct (a >=? 0x05000000); intros m; reflexivity. Qed.

Lemma store_each_same_data (n : nat) (a p size : Z) :
  sat same_data (store_each n a p size).
Proof.
  revert a. induction n as [|n IH]; intros a; cbn [store_each].
  - apply sat_ret; apply _.
  - apply sat_bind; [apply _ | apply check_address_sat; apply _ |]. intros _.
    apply sat_bind; [apply _ | | intros _; apply IH].
    unfold log_store.
    destruct (size =? 4); [|destruct (size =? 2); [|destruct (size =? 1)]];
      repeat (first [ apply device_call_same_data
                    | apply sat_ret; apply _
                    | apply sat_raise; apply _
                    | apply sat_bind; [apply _ | | intros _] ]).
Qed.

Lemma post_rle_store_same_data (r : Z * option (Z * Z * Z)) :
  sat same_data (post_rle_store r).
Proof.
  destruct r as [count [[[a p] size]|]]; cbn [post_rle_store].
  - unfold log_fill.
    destruct ((count >? 1) && (size =? 4)); [|destruct ((count >? 1) && (size =? 1))];
      try apply store_each_same_data;
      repeat (first [ apply device_call_same_data
                    | apply check_address_sat; apply _
                    | apply sat_ret; apply _
                    | apply sat_bind; [apply _ | | intros _] ]).
  - destruct (count >? 0); [apply sat_raise | apply sat_ret]; apply _.
Qed.

Lemma store_remote_same_data (a v size : Z) : sat same_data (store_remote a v size).
Proof.
  unfold store_remote.
  apply sat_bind; [apply _ | apply sat_gets; apply _ |]. intros [reason|].
  - unfold log_store. apply sat_ret; apply _.
  - apply sat_bind; [apply _ | | apply post_rle_store_same_data].
    intros m. unfold rle_write. destruct (RunEncoder.write _ _ _ _). reflexivity.
Qed.

Lemma put_lookup (bs : list byte) (c : gmap Z byte) (p j : Z) :
  BytesIO.put c p bs !! j
  = if (p <=? j) && (j <? p + Z.of_nat (length bs))
    then bs !! Z.to_nat (j - p) else c !! j.
Proof.
  revert c p. induction bs as [|b bs IH]; intros c p; cbn [BytesIO.put length].
  - destruct (Z.leb_spec p j), (Z.ltb_spec j (p + Z.of_nat 0)); cbn; try reflexivity; lia.
  - rewrite IH. destruct (decide (j = p)) as [->|Hne].
    + destruct (Z.leb_spec (p + 1) p); [lia|].
      destruct (Z.leb_spec p p); [|lia].
      destruct (Z.ltb_spec p (p + Z.of_nat (S (length bs)))); [|lia].
      cbn [andb]. rewrite lookup_insert_eq.
      replace (Z.to_nat (p - p)) with 0%nat by lia. reflexivity.
    + destruct (Z.leb_spec (p + 1) j), (Z.ltb_spec j (p + 1 + Z.of_nat (length bs)));
        destruct (Z.leb_spec p j), (Z.ltb_spec j (p + Z.of_nat (S (length bs))));
        cbn [andb]; try lia; try (rewrite lookup_insert_ne by lia; reflexivity).
      replace (Z.to_nat (j - p)) with (S (Z.to_nat (j - (p + 1)))) by lia. reflexivity.
Qed.

Lemma store_shape_present (n : nat) (bs : list byte) (size a v : Z) (m : t) :
  0 <= a -> length bs = n -> (0 < n)%nat ->
  present (local_addresses m) a n = true ->
  let r := store_shape n (inr bs) size a v m in
  raised r = None
  /\ (forall k b, bs !! k = Some b ->
        BytesIO.byte_at (local_data (final r)) (a + Z.of_nat k) = b)
  /\ (forall j, j < a \/ a + Z.of_nat n <= j ->
        BytesIO.byte_at (local_data (final r)) j = BytesIO.byte_at (local_data m) j)
  /\ transport_log (final r) = transport_log m
  /\ rle (final r) = rle m.
Proof.
  intros Ha Hlen Hn Hp r.
  set (m1 := set_local_addresses (seeked a (Z.of_nat n) (local_addresses m)) m).
  assert (Hr : r = (data (BytesIO.seek a) ;;
                    bs' <- of_sum (inr bs) ;; data (BytesIO.write bs')) m1).
  { subst r. unfold store_shape. unfold bind at 1.
    rewrite all_present_spec by exact Ha. rewrite Hp. reflexivity. }
  rewrite Hr. clear Hr r.
  unfold bind, data, zoom, BytesIO.seek, of_sum, ret, BytesIO.write.
  destruct (Z.ltb_spec a 0) as [?|_]; [lia|].
  destruct bs as [|b0 bs']; [cbn in Hlen; lia|].
  cbn [final raised local_data set_local_data BytesIO.cell BytesIO.pos
       transport_log rle m1 set_local_addresses].
  split; [reflexivity|]. split; [|split; [|split; reflexivity]].
  - intros k b Hk. unfold BytesIO.byte_at. cbn [BytesIO.cell].
    rewrite put_lookup.
    assert (Hlt := lookup_lt_Some _ _ _ Hk).
    destruct (Z.leb_spec a (a + Z.of_nat k)); [|lia].
    destruct (Z.ltb_spec (a + Z.of_nat k) (a + Z.of_nat (length (b0 :: bs')))); [|lia].
    cbn [andb]. replace (Z.to_nat (a + Z.of_nat k - a)) with k by lia.
    rewrite Hk. reflexivity.
  - intros j Hj. unfold BytesIO.byte_at. cbn [BytesIO.cell].
    rewrite put_lookup. rewrite Hlen.
    destruct (Z.leb_spec a j), (Z.ltb_spec j (a + Z.of_nat n)); cbn [andb];
      try reflexivity; lia.
Qed.

Lemma store_shape_absent (n : nat) (packed : exn + list byte) (size a v : Z) (m : t) :
  0 <= a ->
  present (local_addresses m) a n = false ->
  store_shape n packed size a v m
  = store_remote a v size
      (set_local_addresses (seeked a (Z.of_nat n) (local_addresses m)) m).
Proof.
  intros Ha Hp. unfold store_shape. unfold bind at 1.
  rewrite all_present_spec by exact Ha. rewrite Hp. reflexivity.
Qed.

(** On an empty encoder a write starts a run and nothing is emitted. *)
Lemma rle_write_starts_run (m : t) (a p size : Z) :
  RunEncoder.count (rle m) = 0 ->
  (r <- rle_write a p size ;; post_rle_store r) m
  = Ok tt (set_rle {| RunEncoder.count := 1; RunEncoder.key := Some (a, p, size) |} m).
Proof.
  intros Hc. unfold bind, rle_write, RunEncoder.write, RunEncoder.flush.
  rewrite Hc.
  destruct (RunEncoder.key_eqb (RunEncoder.key (rle m)) (a - 0 * size) p size) eqn:E.
  - unfold RunEncoder.key_eqb in E.
    destruct (RunEncoder.key (rle m)) as [[[a' p'] s']|] eqn:Hk; [|discriminate].
    apply andb_prop in E as [E E3]. apply andb_prop in E as [E1 E2].
    apply Z.eqb_eq in E1, E2, E3. subst.
    replace (a - 0 * size) with a by lia. reflexivity.
  - destruct (RunEncoder.key (rle m)) as [[[a' p'] s']|]; reflexivity.
Qed.

(** The remote path, case by case. *)
Lemma store_remote_cases (a v size : Z) (m1 : t) :
  let run := {| RunEncoder.count := 1; RunEncoder.key := Some (a, v, size) |} in
  let r := store_remote a v size m1 in
  (forall reason, skip_stores m1 !! a = Some reason -> r = Ok tt m1)
  /\ (skip_stores m1 !! a = None ->
        r = post_rle_store (RunEncoder.write a v size (rle m1)).1
              (set_rle (RunEncoder.write a v size (rle m1)).2 m1)
        /\ (RunEncoder.count (rle m1) = 0 -> r = Ok tt (set_rle run m1))
        /\ (forall a0 p0,
              rle m1 = {| RunEncoder.count := 1; RunEncoder.key := Some (a0, p0, 4) |} ->
              ~ (a0 + 4 = a /\ p0 = v /\ size = 4) ->
              a0 < 0x05000000 ->
              dev_raises (device m1) ((transport_log m1).*1) (poke a0 p0) = None ->
              r = Ok tt (set_transport_log
                           (transport_log m1 ++ [(poke a0 p0, 1)])
                           (set_rle run m1)))).
Proof.
  intros run r.
  assert (E0 : r = match skip_stores m1 !! a with
                   | Some _ => log_store a v m1
                   | None => (out <- rle_write a v size ;; post_rle_store out) m1
                   end).
  { subst r. unfold store_remote. unfold bind at 1, gets.
    destruct (skip_stores m1 !! a); reflexivity. }
  rewrite E0. clear E0 r. split.
  - intros reason ->. reflexivity.
  - intros ->.
    assert (E : (out <- rle_write a v size ;; post_rle_store out) m1
                = post_rle_store (RunEncoder.write a v size (rle m1)).1
                    (set_rle (RunEncoder.write a v size (rle m1)).2 m1)).
    { unfold bind, rle_write.
      destruct (RunEncoder.write a v size (rle m1)) as [out e]. reflexivity. }
    split; [exact E|]. split.
    + intros Hc. apply rle_write_starts_run. exact Hc.
    + intros a0 p0 Hr Hne Ha0 Hq. rewrite E. unfold RunEncoder.write. rewrite Hr.
      cbn [RunEncoder.count RunEncoder.key RunEncoder.key_eqb RunEncoder.flush fst snd].
      destruct ((a0 =? a - 1 * size) && (p0 =? v) && (4 =? size)) eqn:Ek.
      { exfalso. apply Hne.
        apply andb_prop in Ek as [Ek E3]. apply andb_prop in Ek as [E1 E2].
        apply Z.eqb_eq in E1, E2, E3. lia. }
      cbn [fst snd post_rle_store].
      change (1 >? 1) with false. cbn [andb].
      change (Z.to_nat 1) with 1%nat. cbn [store_each].
      unfold check_address, log_store, bind, ret, device_call.
      destruct (Z.geb_spec a0 0x05000000); [lia|].
      cbn [Z.eqb Pos.eqb].
      cbn [device transport_log set_rle rle RunEncoder.count].
      rewrite Hq. reflexivity.
Qed.

Lemma le_bytes_lookup (n k : nat) (v : Z) :
  (k < n)%nat ->
  le_bytes n v !! k = Some (byte_of_Z (Z.shiftr v (8 * Z.of_nat k))).
Proof.
  revert k v. induction n as [|n IH]; intros k v Hk; [lia|].
  destruct k as [|k]; cbn [le_bytes lookup list_lookup].
  - reflexivity.
  - etransitivity; [apply IH; lia|].
    rewrite Z.shiftr_shiftr by lia.
    replace (8 + 8 * Z.of_nat k) with (8 * Z.of_nat (S k)) by lia. reflexivity.
Qed.

Lemma length_le_bytes (n : nat) (v : Z) : length (le_bytes n v) = n.
Proof. revert v. induction n as [|n IH]; intros v; cbn; [reflexivity|]. now rewrite IH. Qed.

Lemma Z_of_byte_of_Z (z : Z) : Z_of_byte (byte_of_Z z) = z mod 256.
Proof.
  unfold Z_of_byte, byte_of_Z.
  assert (Hr : 0 <= z mod 256 < 256) by (apply Z.mod_pos_bound; lia).
  destruct (Byte.of_N (Z.to_N (z mod 256))) as [b|] eqn:E.
  - apply Byte.to_of_N in E.
    change (Z.of_N (Byte.to_N b) = z mod 256). rewrite E. lia.
  - apply Byte.of_N_None_iff in E. lia.
Qed.

(** What is packed is what is unpacked: the packed bytes are the little
    endian digits of the value. *)
Lemma le_value_le_bytes (n : nat) (v : Z) :
  le_value (le_bytes n v) = v mod 2 ^ (8 * Z.of_nat n).
Proof.
  revert v. induction n as [|n IH]; intros v; cbn [le_bytes le_value].
  - change (2 ^ (8 * Z.of_nat 0)) with 1. now rewrite Z.mod_1_r.
  - rewrite IH, Z_of_byte_of_Z, Z.shiftr_div_pow2 by lia.
    replace (8 * Z.of_nat (S n)) with (8 + 8 * Z.of_nat n) by lia.
    rewrite Z.pow_add_r by lia.
    change (2 ^ 8) with 256.
    rewrite Z.rem_mul_r by lia. reflexivity.
Qed.

Lemma struct_unpack_pack (n : nat) (v : Z) (bs : list byte) :
  struct_pack n v = inr bs -> struct_unpack n bs = inr v.
Proof.
  unfold struct_pack, struct_unpack.
  destruct (Z.leb_spec 0 v); [|discriminate].
  destruct (Z.ltb_spec v (2 ^ (8 * Z.of_nat n))); [|discriminate].
  intros [= <-]. rewrite length_le_bytes, Nat.eqb_refl, le_value_le_bytes.
  rewrite Z.mod_small by lia. reflexivity.
Qed.

Lemma store_shape_spec (n : nat) (size a v : Z) (m : t) :
  0 <= a -> (0 < n)%nat ->
  shadow_store_spec n size a v m (store_shape n (inr (le_bytes n v)) size a v m).
Proof.
  intros Ha Hn. split; intros Hp.
  - destruct (store_shape_present n (le_bytes n v) size a v m Ha
                (length_le_bytes n v) Hn Hp) as (Hr & Hb & Hf & Hl & He).
    split; [exact Hr|]. split; [|split; [exact Hf | split; [exact Hl | exact He]]].
    intros k Hk. rewrite (Hb k _ (le_bytes_lookup n k v Hk)).
    rewrite Z_of_byte_of_Z, Z.shiftr_div_pow2 by lia. reflexivity.
  - rewrite (store_shape_absent n _ size a v m Ha Hp).
    set (m1 := set_local_addresses (seeked a (Z.of_nat n) (local_addresses m)) m).
    split.
    + change (local_data m) with (local_data m1). apply store_remote_same_data.
    + exact (store_remote_cases a v size m1).
Qed.

(** C10.  [store(a, v)] writes the shadow exactly when all four covered
    presence flags are 0xff: then byte [k] of the little-endian value,
    [(v / 2^(8k)) mod 256], is at [a + k] of the shadow data, every other
    shadow byte keeps its value and neither the RLE encoder nor the
    device is touched.  When some flag is missing the shadow data is left
    as it is and the store goes down the remote path: an address in the
    skip set drops it, with nothing but the position of the presence
    stream changed; otherwise it is written to the run encoder and what
    the encoder hands back is posted to the device, which is nothing when
    the encoder was empty (the store stays pending, the device is not
    called) and the displaced word when one was pending that this store
    does not continue (one [poke], issued while the new store is
    pending).  Likewise [store_half] with two flags and [store_byte] with
    one.  ([a] is a non-negative address, [v] a value of the access
    width.) *)
Theorem store_writes_shadow_iff_all_present (m : t) (a v : Z) :
  0 <= a ->
  (0 <= v < 2 ^ 32 -> shadow_store_spec 4 4 a v m (store a v m))
  /\ (0 <= v < 2 ^ 16 -> shadow_store_spec 2 2 a v m (store_half a v m))
  /\ (0 <= v < 2 ^ 8 -> shadow_store_spec 1 1 a v m (store_byte a v m)).
Proof.
  intros Ha. split; [|split]; intros Hv.
  - assert (E : store a v m = store_shape 4 (inr (le_bytes 4 v)) 4 a v m).
    { unfold store, store_shape, struct_pack.
      destruct (Z.leb_spec 0 v); [|lia].
      destruct (Z.ltb_spec v (2 ^ (8 * Z.of_nat 4))); [reflexivity|].
      change (2 ^ (8 * Z.of_nat 4)) with (2 ^ 32) in *. lia. }
    rewrite E. apply (store_shape_spec 4 4 a v m Ha). lia.
  - assert (E : store_half a v m = store_shape 2 (inr (le_bytes 2 v)) 2 a v m).
    { unfold store_half, store_shape, struct_pack.
      destruct (Z.leb_spec 0 v); [|lia].
      destruct (Z.ltb_spec v (2 ^ (8 * Z.of_nat 2))); [reflexivity|].
      change (2 ^ (8 * Z.of_nat 2)) with (2 ^ 16) in *. lia. }
    rewrite E. apply (store_shape_spec 2 2 a v m Ha). lia.
  - assert (E : store_byte a v m = store_shape 1 (inr (le_bytes 1 v)) 1 a v m).
    { unfold store_byte, store_shape, bytes_of_int.
      destruct (Z.leb_spec 0 v); [|lia].
      destruct (Z.ltb_spec v 256); [reflexivity|].
      change (2 ^ 8) with 256 in *. lia. }
    rewrite E. apply (store_shape_spec 1 1 a v m Ha). lia.
Qed.

(** *** Fill coalescing *)

Lemma store_absent (m : t) (a v : Z) :
  0 <= a ->
  present (local_addresses m) a 4 = false ->
  skip_stores m !! a = None ->
  store a v m
  = (r <- rle_write a v 4 ;; post_rle_store r)
      (set_local_addresses (seeked a 4 (local_addresses m)) m).
Proof.
  intros Ha Hp Hs. unfold store. unfold bind at 1.
  rewrite all_present_spec by exact Ha. rewrite Hp.
  unfold store_remote. unfold bind at 1, gets. cbn [skip_stores set_local_addresses].
  rewrite Hs. reflexivity.
Qed.

(** A write that continues the pending run only lengthens it. *)
Lemma rle_write_extends_run (m : t) (a0 a p size c c' : Z) :
  rle m = {| RunEncoder.count := c; RunEncoder.key := Some (a0, p, size) |} ->
  a = a0 + c * size ->
  c' = c + 1 ->
  (r <- rle_write a p size ;; post_rle_store r) m
  = Ok tt (set_rle {| RunEncoder.count := c'; RunEncoder.key := Some (a0, p, size) |} m).
Proof.
  intros Hr -> ->. unfold bind, rle_write, RunEncoder.write. rewrite Hr.
  cbn [RunEncoder.count RunEncoder.key RunEncoder.key_eqb].
  replace (a0 + c * size - c * size) with a0 by lia.
  rewrite !Z.eqb_refl. reflexivity.
Qed.

(** Flushing a pending run of several words is one [fill_words]. *)
Lemma flush_word_run (m : t) (a p c : Z) :
  rle m = {| RunEncoder.count := c; RunEncoder.key := Some (a, p, 4) |} ->
  1 < c -> a < 0x05000000 ->
  flush m = device_call (fill_words a p c) (set_rle RunEncoder.init m).
Proof.
  intros Hr Hc Ha. unfold flush, bind at 1, rle_flush, RunEncoder.flush.
  rewrite Hr. cbn [RunEncoder.count RunEncoder.key post_rle_store].
  destruct (Z.gtb_spec c 1); [|lia]. cbn [Z.eqb Pos.eqb andb].
  unfold check_address, log_fill, bind, ret.
  destruct (Z.geb_spec a 0x05000000); [lia|]. reflexivity.
Qed.

Lemma device_call_effect (c : DevCall) (m : t) :
  (transport_log (final (device_call c m))).*1 = (transport_log m).*1 ++ [c]
  /\ rle (final (device_call c m)) = rle m
  /\ raised (device_call c m) = dev_raises (device m) ((transport_log m).*1) c.
Proof.
  unfold device_call.
  destruct (dev_raises (device m) (transport_log m).*1 c);
    cbn [final raised transport_log set_transport_log rle];
    rewrite fmap_app; repeat split.
Qed.

(** C5.  Three word stores of one pattern to 0x2000000, 0x2000004 and
    0x2000008 (none of them locally present or in the skip set, nothing
    pending before), then a flush: the transport receives one call,
    [fill_words(0x2000000, pattern, 3)], and nothing else; the encoder is
    empty again and the only way to fail is the transport's. *)
Theorem fill_coalescing (m : t) (pattern : Z) :
  RunEncoder.count (rle m) = 0 ->
  (forall a, In a [0x2000000; 0x2000004; 0x2000008] ->
     present (local_addresses m) a 4 = false /\ skip_stores m !! a = None) ->
  let r := (store 0x2000000 pattern ;; store 0x2000004 pattern ;;
            store 0x2000008 pattern ;; flush) m in
  (transport_log (final r)).*1
    = (transport_log m).*1 ++ [fill_words 0x2000000 pattern 3]
  /\ RunEncoder.count (rle (final r)) = 0
  /\ raised r = dev_raises (device m) ((transport_log m).*1)
                           (fill_words 0x2000000 pattern 3).
Proof.
  intros Hc H r.
  destruct (H 0x2000000) as [Hp0 Hs0]; [cbn; tauto|].
  destruct (H 0x2000004) as [Hp1 Hs1]; [cbn; tauto|].
  destruct (H 0x2000008) as [Hp2 Hs2]; [cbn; tauto|].
  eassert (E : r = device_call (fill_words 0x2000000 pattern 3) _).
  { subst r. unfold bind at 1.
    rewrite store_absent by (assumption || lia).
    rewrite rle_write_starts_run by exact Hc.
    unfold bind at 1.
    rewrite store_absent by (assumption || lia).
    rewrite (rle_write_extends_run _ 0x2000000 0x2000004 pattern 4 1 2)
      by (reflexivity || lia).
    unfold bind at 1.
    rewrite store_absent by (assumption || lia).
    rewrite (rle_write_extends_run _ 0x2000000 0x2000008 pattern 4 2 3)
      by (reflexivity || lia).
    rewrite (flush_word_run _ 0x2000000 pattern 3) by (reflexivity || lia).
    reflexivity. }
  rewrite E. clear E r.
  match goal with |- context [device_call ?c ?m0] =>
    destruct (device_call_effect c m0) as (Hlog & Hrle & Hraise)
  end.
  rewrite Hlog, Hrle, Hraise. repeat split.
Qed.

(** *** The address check of the loads *)

Lemma flash_prefetch_hint_outside_flash (m : t) (a : Z) :
  0x200000 <= a ->
  exists avail,
    flash_prefetch_hint a m
    = Ok avail (set_local_addresses (seeked a 0x100 (local_addresses m)) m).
Proof.
  intros Ha. unfold flash_prefetch_hint, local_data_available, addresses, zoom,
    bind, ret, BytesIO.seek, BytesIO.read.
  destruct (Z.ltb_spec a 0) as [?|_]; [lia|].
  destruct (Z.ltb_spec a 0x200000) as [?|_]; [lia|].
  cbn [andb]. eexists. reflexivity.
Qed.

Lemma flush_empty (m : t) :
  RunEncoder.count (rle m) = 0 -> flush m = Ok tt (set_rle RunEncoder.init m).
Proof.
  intros Hc. unfold flush, bind, rle_flush, RunEncoder.flush. rewrite Hc.
  destruct (RunEncoder.key (rle m)) as [[[a p] s]|]; reflexivity.
Qed.

(** Outside the flash window a load that is not served by the shadow is
    the device path, entered with only the stream position moved. *)
Lemma load_device_path (m : t) (a : Z) :
  0x200000 <= a ->
  present (local_addresses m) a 4 = false ->
  load a m
  = (flush ;; d <- device_int (peek a) ;; log_load a d ;;
     check_address a ;; ret d)
      (set_local_addresses (seeked a 4 (local_addresses m)) m).
Proof.
  intros Ha Hp. unfold load. unfold bind at 1.
  destruct (flash_prefetch_hint_outside_flash m a Ha) as [avail ->].
  unfold bind at 1. rewrite all_present_spec by lia.
  cbn [local_addresses set_local_addresses].
  change (present (seeked a 256 (local_addresses m)) a 4)
    with (present (local_addresses m) a 4).
  rewrite Hp. reflexivity.
Qed.

Lemma load_half_device_path (m : t) (a : Z) :
  0x200000 <= a ->
  present (local_addresses m) a 2 = false ->
  load_half a m
  = (flush ;; lo <- device_int (peek_byte a) ;;
     hi <- device_int (peek_byte (a + 1)) ;;
     log_load a (Z.lor lo (Z.shiftl hi 8)) ;;
     check_address a ;; ret (Z.lor lo (Z.shiftl hi 8)))
      (set_local_addresses (seeked a 2 (local_addresses m)) m).
Proof.
  intros Ha Hp. unfold load_half. unfold bind at 1.
  destruct (flash_prefetch_hint_outside_flash m a Ha) as [avail ->].
  unfold bind at 1. rewrite all_present_spec by lia.
  cbn [local_addresses set_local_addresses].
  change (present (seeked a 256 (local_addresses m)) a 2)
    with (present (local_addresses m) a 2).
  rewrite Hp. reflexivity.
Qed.

Lemma load_byte_device_path (m : t) (a : Z) :
  0x200000 <= a ->
  present (local_addresses m) a 1 = false ->
  load_byte a m
  = (flush ;; d <- device_int (peek_byte a) ;; log_load a d ;;
     check_address a ;; ret d)
      (set_local_addresses (seeked a 1 (local_addresses m)) m).
Proof.
  intros Ha Hp. unfold load_byte. unfold bind at 1.
  destruct (flash_prefetch_hint_outside_flash m a Ha) as [avail ->].
  unfold bind at 1. rewrite all_present_spec by lia.
  cbn [local_addresses set_local_addresses].
  change (present (seeked a 256 (local_addresses m)) a 1)
    with (present (local_addresses m) a 1).
  rewrite Hp. reflexivity.
Qed.

Lemma check_address_high (a : Z) (m : t) :
  0x05000000 <= a -> check_address a m = Raise (IndexError a) m.
Proof.
  intros Ha. unfold check_address.
  destruct (Z.geb_spec a 0x05000000); [reflexivity|lia].
Qed.

Lemma device_int_quiet (c : DevCall) (m : t) :
  dev_raises (device m) ((transport_log m).*1) c = None ->
  exists d m', device_int c m = Ok d m' /\ device m' = device m.
Proof.
  intros Hq. unfold device_int, bind, device_call, ret. rewrite Hq.
  eexists _, _. split; reflexivity.
Qed.

(** C7, counterexample.  0x5000000..0x5000003 are made local and a word is
    stored there; the load of that address returns the word and raises
    nothing, although the address is at the sanity limit. *)
Lemma shadow_load_skips_address_check :
  let m := final ((local_ram 0x5000000 0x5000003 ;; store 0x5000000 7)
                    (init quiet_device)) in
  0x05000000 <= 0x5000000
  /\ present (local_addresses m) 0x5000000 4 = true
  /\ raised (load 0x5000000 m) = None
  /\ (exists m', load 0x5000000 m = Ok 7 m').
Proof. vm_compute. repeat split; try discriminate. eexists. reflexivity. Qed.

Lemma device_int_quiet_effect (c : DevCall) (m : t) :
  (forall h c', dev_raises (device m) h c' = None) ->
  exists d, device_int c m
            = Ok d (set_transport_log
                      (transport_log m ++ [(c, RunEncoder.count (rle m))]) m).
Proof.
  intros Hq. unfold device_int, bind, device_call, ret. rewrite Hq.
  eexists. reflexivity.
Qed.

(** A load at or above 0x200000 whose presence flags are set is answered
    from the shadow data alone. *)
Lemma load_shape_shadow {A} (n : nat) (unpack : list byte -> exn + A) (remote : M t A)
    (a : Z) (m : t) :
  0x200000 <= a ->
  present (local_addresses m) a n = true ->
  exists m',
    (flash_prefetch_hint a ;;
     local_ <- all_present a n ;;
     if local_ then
       data (BytesIO.seek a) ;;
       bs <- data (BytesIO.read (Z.of_nat n)) ;;
       of_sum (unpack bs)
     else remote) m
    = of_sum (unpack (BytesIO.byte_at (local_data m)
                        <$> seqZ a (Z.max 0 (Z.min (Z.of_nat n)
                                               (BytesIO.len (local_data m) - a))))) m'
    /\ untouched m m'
    /\ BytesIO.cell (local_data m') = BytesIO.cell (local_data m)
    /\ BytesIO.len (local_data m') = BytesIO.len (local_data m)
    /\ BytesIO.cell (local_addresses m') = BytesIO.cell (local_addresses m)
    /\ BytesIO.len (local_addresses m') = BytesIO.len (local_addresses m).
Proof.
  intros Ha Hp. unfold bind at 1.
  destruct (flash_prefetch_hint_outside_flash m a Ha) as [avail ->].
  unfold bind at 1. rewrite all_present_spec by lia.
  cbn [local_addresses set_local_addresses].
  change (present (seeked a 256 (local_addresses m)) a n)
    with (present (local_addresses m) a n).
  rewrite Hp.
  unfold bind, data, zoom, BytesIO.seek, BytesIO.read.
  destruct (Z.ltb_spec a 0) as [?|_]; [lia|].
  destruct (Z.ltb_spec (Z.of_nat n) 0) as [?|_]; [lia|].
  cbn [local_data set_local_data set_local_addresses BytesIO.pos BytesIO.len BytesIO.cell].
  eexists. split; [reflexivity|]. repeat split.
Qed.

(** What the shadow path of the three loads returns. *)
Lemma shadow_load_value (n : nat) (short : exn) (unpack : list byte -> exn + Z)
    (remote : M t Z) (a : Z) (m : t) :
  0x200000 <= a -> (0 < n)%nat ->
  present (local_addresses m) a n = true ->
  (forall bs, length bs = n -> unpack bs = inr (le_value bs)) ->
  (forall bs, length bs <> n -> unpack bs = inl short) ->
  shadow_load_outcome n short a m
    ((flash_prefetch_hint a ;;
      local_ <- all_present a n ;;
      if local_ then
        data (BytesIO.seek a) ;;
        bs <- data (BytesIO.read (Z.of_nat n)) ;;
        of_sum (unpack bs)
      else remote) m).
Proof.
  intros Ha Hn Hp Hfull Hshort.
  destruct (load_shape_shadow n unpack remote a m Ha Hp) as (m' & El & Hu & _).
  rewrite El. clear El.
  set (k := Z.max 0 (Z.min (Z.of_nat n) (BytesIO.len (local_data m) - a))).
  assert (Hlen : length (BytesIO.byte_at (local_data m) <$> seqZ a k) = Z.to_nat k)
    by (rewrite length_fmap, length_seqZ; reflexivity).
  split; [|split].
  - destruct (unpack _); exact Hu.
  - intros Hcover. assert (Hk : k = Z.of_nat n) by (unfold k; lia).
    rewrite Hfull by (rewrite Hlen, Hk; apply Nat2Z.id).
    rewrite Hk. exists m'. reflexivity.
  - intros Hend. rewrite Hshort by (rewrite Hlen; unfold k; lia). reflexivity.
Qed.

Lemma ord_spec :
  (forall bs, length bs = 1%nat -> ord bs = inr (le_value bs))
  /\ (forall bs, length bs <> 1%nat -> ord bs = inl TypeError).
Proof.
  split; intros [|b [|b' bs]] H; cbn in H; try lia; try reflexivity.
  cbn [ord le_value]. f_equal. lia.
Qed.

Lemma struct_unpack_spec (n : nat) :
  (forall bs, length bs = n -> struct_unpack n bs = inr (le_value bs))
  /\ (forall bs, length bs <> n -> struct_unpack n bs = inl StructError).
Proof.
  split; intros bs H; unfold struct_unpack.
  - rewrite H, Nat.eqb_refl. reflexivity.
  - destruct (Nat.eqb_spec (length bs) n); [contradiction | reflexivity].
Qed.

(** C7, amended.  At an address [a >= 0x05000000] the outcome of [load],
    [load_half] and [load_byte] depends on the presence flags.  When the
    covered bytes are not all present, the load never returns: it raises.
    With nothing pending in the RLE encoder and a transport that does not
    fail, what it raises is the address-sanity [IndexError] for [a], and
    the device has been read by then ([peek a]; one [peek_byte] per byte
    for the narrow loads): the check comes after the read.  When the
    covered bytes are all present, no address check is made: the load
    calls nothing, leaves the encoder alone and returns the little-endian
    value of the shadow bytes, unless the shadow data stream ends before
    the access, in which case the conversion of the short read raises
    ([struct.error], or [TypeError] from [ord] in [load_byte]). *)
Theorem load_checks_address_on_device_path (m : t) (a : Z) :
  0x05000000 <= a ->
  (present (local_addresses m) a 4 = false ->
     high_load_outcome [peek a] a m (load a m))
  /\ (present (local_addresses m) a 2 = false ->
        high_load_outcome [peek_byte a; peek_byte (a + 1)] a m (load_half a m))
  /\ (present (local_addresses m) a 1 = false ->
        high_load_outcome [peek_byte a] a m (load_byte a m))
  /\ (present (local_addresses m) a 4 = true ->
        shadow_load_outcome 4 StructError a m (load a m))
  /\ (present (local_addresses m) a 2 = true ->
        shadow_load_outcome 2 StructError a m (load_half a m))
  /\ (present (local_addresses m) a 1 = true ->
        shadow_load_outcome 1 TypeError a m (load_byte a m)).
Proof.
  intros Ha. split; [|split; [|split; [|split; [|split]]]]; intros Hp.
  - rewrite load_device_path by (assumption || lia). split.
    + unfold bind at 1. destruct (flush _) as [[] m1|e m1]; [|discriminate].
      unfold bind at 1. destruct (device_int _ m1) as [d m2|e m2]; [|discriminate].
      unfold log_load, bind, ret. rewrite check_address_high by exact Ha. discriminate.
    + intros Hc Hq. unfold bind, log_load, ret. rewrite flush_empty by exact Hc.
      match goal with |- context [device_int ?c ?m0] =>
        destruct (device_int_quiet_effect c m0 Hq) as (d & ->)
      end.
      rewrite check_address_high by exact Ha.
      split; reflexivity.
  - rewrite load_half_device_path by (assumption || lia). split.
    + unfold bind at 1. destruct (flush _) as [[] m1|e m1]; [|discriminate].
      unfold bind at 1. destruct (device_int _ m1) as [d m2|e m2]; [|discriminate].
      unfold bind at 1. destruct (device_int _ m2) as [d' m3|e m3]; [|discriminate].
      unfold log_load, bind, ret. rewrite check_address_high by exact Ha. discriminate.
    + intros Hc Hq. unfold bind, log_load, ret. rewrite flush_empty by exact Hc.
      match goal with |- context [device_int ?c ?m0] =>
        destruct (device_int_quiet_effect c m0 Hq) as (d & ->)
      end.
      match goal with |- context [device_int ?c ?m0] =>
        destruct (device_int_quiet_effect c m0 Hq) as (d' & ->)
      end.
      rewrite check_address_high by exact Ha.
      split; [reflexivity|].
      cbn [final transport_log set_transport_log set_rle set_local_addresses rle
           RunEncoder.count RunEncoder.init fmap list_fmap].
      rewrite <- app_assoc. reflexivity.
  - rewrite load_byte_device_path by (assumption || lia). split.
    + unfold bind at 1. destruct (flush _) as [[] m1|e m1]; [|discriminate].
      unfold bind at 1. destruct (device_int _ m1) as [d m2|e m2]; [|discriminate].
      unfold log_load, bind, ret. rewrite check_address_high by exact Ha. discriminate.
    + intros Hc Hq. unfold bind, log_load, ret. rewrite flush_empty by exact Hc.
      match goal with |- context [device_int ?c ?m0] =>
        destruct (device_int_quiet_effect c m0 Hq) as (d & ->)
      end.
      rewrite check_address_high by exact Ha.
      split; reflexivity.
  - destruct (struct_unpack_spec 4) as [Hfull Hshort].
    apply (shadow_load_value 4 StructError (struct_unpack 4)); (assumption || lia).
  - destruct (struct_unpack_spec 2) as [Hfull Hshort].
    apply (shadow_load_value 2 StructError (struct_unpack 2)); (assumption || lia).
  - destruct ord_spec as [Hfull Hshort].
    apply (shadow_load_value 1 TypeError ord); (assumption || lia).
Qed.

(** *** The RLE buffer at the transport boundary *)

Lemma called_empty_refl (m : t) : called_empty m m.
Proof. exists []. split; [symmetry; apply app_nil_r | constructor]. Qed.

Lemma called_empty_trans (x y z : t) :
  called_empty x y -> called_empty y z -> called_empty x z.
Proof.
  intros (n1 & E1 & F1) (n2 & E2 & F2). exists (n1 ++ n2). split.
  - rewrite E2, E1. symmetry. apply app_assoc.
  - apply Forall_app. split; assumption.
Qed.

Lemma untouched_called_empty (x y : t) : untouched x y -> called_empty x y.
Proof. intros [E _]. exists []. split; [rewrite E; symmetry; apply app_nil_r | constructor]. Qed.

#[local] Instance untouched_preorder : PreOrder untouched.
Proof.
  split; [intros m; split; reflexivity|].
  intros x y z [E1 R1] [E2 R2]. split; congruence.
Qed.

#[local] Instance keeps_empty_preorder : PreOrder keeps_empty.
Proof.
  split.
  - intros m H. split; [apply called_empty_refl | exact H].
  - intros x y z Hxy Hyz H. destruct (Hxy H) as [C1 E1]. destruct (Hyz E1) as [C2 E2].
    split; [eapply called_empty_trans; eassumption | exact E2].
Qed.

#[local] Instance untouched_or_flushed_preorder : PreOrder untouched_or_flushed.
Proof.
  split; [intros m; left; reflexivity|].
  intros x y z [U1|[C1 E1]] [U2|[C2 E2]].
  - left. etransitivity; eassumption.
  - right. split; [|exact E2].
    eapply called_empty_trans; [apply untouched_called_empty|]; eassumption.
  - right. split.
    + eapply called_empty_trans; [|apply untouched_called_empty]; eassumption.
    + destruct U2 as [_ ->]. exact E1.
  - right. split; [eapply called_empty_trans; eassumption | exact E2].
Qed.

Lemma untouched_keeps_empty (x y : t) : untouched x y -> keeps_empty x y.
Proof.
  intros U H. split; [apply untouched_called_empty; exact U|].
  destruct U as [_ ->]. exact H.
Qed.

Lemma loose_keeps_empty (x y : t) : untouched_or_flushed x y -> keeps_empty x y.
Proof. intros [U|F]; [apply untouched_keeps_empty; exact U | intros _; exact F]. Qed.

Lemma loose_called_empty (x y : t) : untouched_or_flushed x y -> called_empty x y.
Proof. intros [U|[C _]]; [apply untouched_called_empty; exact U | exact C]. Qed.

Lemma addresses_untouched {A} (c : M BytesIO.t A) : sat untouched (addresses c).
Proof. intros m. unfold addresses, zoom. destruct (c _); split; reflexivity. Qed.

Lemma data_untouched {A} (c : M BytesIO.t A) : sat untouched (data c).
Proof. intros m. unfold data, zoom. destruct (c _); split; reflexivity. Qed.

Lemma local_ram_untouched (b e : Z) : sat untouched (local_ram b e).
Proof.
  unfold local_ram.
  apply (sat_bind untouched); [apply addresses_untouched | intros _; apply addresses_untouched].
Qed.

Lemma local_data_available_untouched (a limit : Z) :
  sat untouched (local_data_available a limit).
Proof.
  unfold local_data_available.
  apply (sat_bind untouched); [apply addresses_untouched | intros _].
  apply (sat_bind untouched); [apply addresses_untouched | intros flags].
  apply (sat_ret untouched).
Qed.

Lemma all_present_untouched (a : Z) (n : nat) : sat untouched (all_present a n).
Proof.
  unfold all_present.
  apply (sat_bind untouched); [apply addresses_untouched | intros _].
  apply (sat_bind untouched); [apply addresses_untouched | intros flags].
  apply (sat_ret untouched).
Qed.

Lemma device_call_keeps_empty (c : DevCall) : sat keeps_empty (device_call c).
Proof.
  intros m H. unfold device_call. rewrite H.
  destruct (dev_raises _ _ _); cbn [final]; (split; [|exact H]);
    (eexists; split; [reflexivity|]); repeat constructor.
Qed.

Lemma device_int_keeps_empty (c : DevCall) : sat keeps_empty (device_int c).
Proof.
  intros m. unfold device_int.
  apply (sat_bind keeps_empty); [apply device_call_keeps_empty | intros _].
  apply (sat_ret keeps_empty).
Qed.

Lemma device_bytes_keeps_empty (c : DevCall) : sat keeps_empty (device_bytes c).
Proof.
  intros m. unfold device_bytes.
  apply (sat_bind keeps_empty); [apply device_call_keeps_empty | intros _].
  apply (sat_ret keeps_empty).
Qed.

Lemma store_each_keeps_empty (n : nat) (a p size : Z) :
  sat keeps_empty (store_each n a p size).
Proof.
  revert a. induction n as [|n IH]; intros a; cbn [store_each].
  - apply (sat_ret keeps_empty).
  - apply (sat_bind keeps_empty); [apply (check_address_sat keeps_empty) | intros _].
    apply (sat_bind keeps_empty); [|intros _; apply IH].
    unfold log_store.
    destruct (size =? 4); [|destruct (size =? 2); [|destruct (size =? 1)]];
      repeat first [ apply device_call_keeps_empty
                   | apply (sat_ret keeps_empty)
                   | apply (sat_raise keeps_empty)
                   | apply (sat_bind keeps_empty); [ | intros _] ].
Qed.

Lemma post_rle_store_keeps_empty (r : Z * option (Z * Z * Z)) :
  sat keeps_empty (post_rle_store r).
Proof.
  destruct r as [count [[[a p] size]|]]; cbn [post_rle_store].
  - unfold log_fill.
    destruct ((count >? 1) && (size =? 4)); [|destruct ((count >? 1) && (size =? 1))];
      try apply store_each_keeps_empty;
      repeat first [ apply device_call_keeps_empty
                   | apply (check_address_sat keeps_empty)
                   | apply (sat_ret keeps_empty)
                   | apply (sat_bind keeps_empty); [ | intros _] ].
  - destruct (count >? 0); [apply (sat_raise keeps_empty) | apply (sat_ret keeps_empty)].
Qed.

(** [flush] empties the encoder before it calls the device, whatever was
    pending and whether or not the call then fails. *)
Lemma flush_flushed : sat flushed flush.
Proof.
  intros m. unfold flush, bind, rle_flush, RunEncoder.flush.
  destruct (post_rle_store_keeps_empty (RunEncoder.count (rle m), RunEncoder.key (rle m))
              (set_rle RunEncoder.init m) eq_refl) as [C E].
  destruct (post_rle_store _ _) as [[] m'|e m']; cbn [final] in *; split; assumption.
Qed.

Lemma after_flush {A} (c : M t A) : sat keeps_empty c -> sat flushed (flush ;; c).
Proof.
  intros Hc. eapply sat_bind_gen; [apply flush_flushed | intros _; exact Hc | auto |].
  intros x y z [C1 E1] Hyz. destruct (Hyz E1) as [C2 E2].
  split; [eapply called_empty_trans; eassumption | exact E2].
Qed.

Lemma fetch_local_data_keeps_empty (a size : Z) (mrt : option Z) :
  sat keeps_empty (fetch_local_data a size mrt).
Proof.
  unfold fetch_local_data.
  apply (sat_bind keeps_empty); [apply device_bytes_keeps_empty | intros block].
  apply (sat_bind keeps_empty);
    [eapply sat_weaken; [apply untouched_keeps_empty | apply local_ram_untouched] | intros _].
  apply (sat_bind keeps_empty);
    [eapply sat_weaken; [apply untouched_keeps_empty | apply data_untouched] | intros _].
  apply (sat_bind keeps_empty);
    [eapply sat_weaken; [apply untouched_keeps_empty | apply data_untouched] | intros _].
  apply (sat_ret keeps_empty).
Qed.

Lemma flash_prefetch_hint_loose (a : Z) : sat untouched_or_flushed (flash_prefetch_hint a).
Proof.
  unfold flash_prefetch_hint.
  apply (sat_bind untouched_or_flushed);
    [eapply sat_weaken; [|apply local_data_available_untouched]; intros x y U; left; exact U
    | intros avail].
  destruct ((a <? 0x200000) && (avail <? 8)).
  - eapply sat_weaken; [intros x y F; right; exact F|].
    apply after_flush. unfold log_prefetch.
    apply (sat_bind keeps_empty); [apply (sat_ret keeps_empty) | intros _].
    apply fetch_local_data_keeps_empty.
  - apply (sat_ret untouched_or_flushed).
Qed.

(** The shape shared by the three loads. *)
Lemma load_shape_loose {A} (a : Z) (n : nat) (local_read remote_read : M t A) :
  sat untouched local_read ->
  sat keeps_empty remote_read ->
  sat untouched_or_flushed
    (flash_prefetch_hint a ;; local_ <- all_present a n ;;
     if local_ then local_read else flush ;; remote_read).
Proof.
  intros Hl Hr.
  apply (sat_bind untouched_or_flushed); [apply flash_prefetch_hint_loose | intros _].
  apply (sat_bind untouched_or_flushed);
    [eapply sat_weaken; [|apply all_present_untouched]; intros x y U; left; exact U
    | intros [|]].
  - eapply sat_weaken; [|exact Hl]. intros x y U; left; exact U.
  - eapply sat_weaken; [|apply after_flush; exact Hr]. intros x y F; right; exact F.
Qed.

Lemma load_assembly_untouched (a : Z) (lines : list Line) (thumb : bool) (m : t) :
  untouched m (_load_assembly a lines thumb m).
Proof.
  revert m. induction lines as [|l rest IH]; intros m; cbn [_load_assembly].
  - reflexivity.
  - destruct rest as [|l' rest']; [reflexivity|].
    etransitivity; [|apply IH].
    destruct (instructions m !! _); split; reflexivity.
Qed.

(** [flash_prefetch_hint], by its test. *)
Lemma flash_prefetch_hint_split (a : Z) (m : t) :
  flash_prefetch_hint a m
  = match local_data_available a 0x100 m with
    | Ok avail m1 =>
        if wants_prefetch a m
        then (flush ;; log_prefetch a ;; fetch_local_data a 0x100 (Some 1)) m1
        else Ok avail m1
    | Raise e m1 => Raise e m1
    end.
Proof.
  unfold flash_prefetch_hint, wants_prefetch, bind.
  destruct (local_data_available a 256 m) as [avail m1|e m1]; [|reflexivity].
  destruct ((a <? 0x200000) && (avail <? 8)); reflexivity.
Qed.

Lemma wants_prefetch_outside_flash (a : Z) (m : t) :
  0x200000 <= a -> wants_prefetch a m = false.
Proof.
  intros Ha. unfold wants_prefetch.
  destruct (local_data_available a 256 m) as [avail m1|e m1]; [|reflexivity].
  destruct (Z.ltb_spec a 0x200000) as [?|_]; [lia | reflexivity].
Qed.

(** Counting the available bytes moves a stream position and nothing
    else. *)
Lemma local_data_available_keeps_flags (a limit : Z) (m : t) :
  forall b n,
    present (local_addresses (final (local_data_available a limit m))) b n
    = present (local_addresses m) b n.
Proof.
  intros b n.
  unfold local_data_available, bind, addresses, zoom, BytesIO.seek, BytesIO.read, ret.
  destruct (a <? 0); reflexivity.
Qed.

Lemma local_data_available_from (a limit : Z) (m m1 : t) (avail : Z) :
  local_data_available a limit m = Ok avail m1 -> 0 <= a.
Proof.
  unfold local_data_available, bind, addresses, zoom, BytesIO.seek.
  destruct (Z.ltb_spec a 0) as [?|?]; [discriminate | intros _; assumption].
Qed.

(** The three loads when the prefetch does not fire and the flags are
    set: the shadow answers. *)
Lemma load_shape_local {A} (n : nat) (local_read remote : M t A) (a : Z) (m : t) :
  wants_prefetch a m = false ->
  present (local_addresses m) a n = true ->
  sat untouched local_read ->
  untouched m (final ((flash_prefetch_hint a ;;
                       local_ <- all_present a n ;;
                       if local_ then local_read else remote) m)).
Proof.
  intros Hw Hp Hl. unfold bind at 1. rewrite flash_prefetch_hint_split, Hw.
  assert (Hu := local_data_available_untouched a 0x100 m).
  assert (Hf := local_data_available_keeps_flags a 0x100 m a n).
  destruct (local_data_available a 256 m) as [avail m1|e m1] eqn:E;
    cbn [final] in Hu, Hf; [|exact Hu].
  unfold bind at 1.
  rewrite all_present_spec by (eapply local_data_available_from; exact E).
  rewrite Hf, Hp.
  etransitivity; [exact Hu|]. etransitivity; [|apply Hl]. split; reflexivity.
Qed.

(** The three loads when the prefetch fires: the flush comes first,
    whatever the flags say. *)
Lemma load_shape_prefetching {A} (n : nat) (local_read remote : M t A) (a : Z) (m : t) :
  wants_prefetch a m = true ->
  sat untouched local_read ->
  sat keeps_empty remote ->
  flushed m (final ((flash_prefetch_hint a ;;
                     local_ <- all_present a n ;;
                     if local_ then local_read else flush ;; remote) m)).
Proof.
  intros Hw Hl Hr. unfold bind at 1. rewrite flash_prefetch_hint_split, Hw.
  assert (Hu := local_data_available_untouched a 0x100 m).
  unfold wants_prefetch in Hw.
  destruct (local_data_available a 256 m) as [avail m1|e m1]; [|discriminate].
  cbn [final] in Hu.
  assert (Hrest : sat keeps_empty (local_ <- all_present a n ;;
                                   if local_ then local_read else flush ;; remote)).
  { apply (sat_bind keeps_empty);
      [eapply sat_weaken; [apply untouched_keeps_empty | apply all_present_untouched]
      | intros [|]].
    - eapply sat_weaken; [apply untouched_keeps_empty | exact Hl].
    - eapply sat_weaken; [|apply after_flush; exact Hr]. intros x y F _. exact F. }
  assert (Hpre : sat flushed (flush ;; log_prefetch a ;; fetch_local_data a 0x100 (Some 1))).
  { apply after_flush. unfold log_prefetch.
    apply (sat_bind keeps_empty); [apply (sat_ret keeps_empty) | intros _].
    apply fetch_local_data_keeps_empty. }
  specialize (Hpre m1).
  assert (Hall : flushed m1
            (final (match (flush ;; log_prefetch a ;; fetch_local_data a 0x100 (Some 1)) m1 with
                    | Ok _ s' => (local_ <- all_present a n ;;
                                  if local_ then local_read else flush ;; remote) s'
                    | Raise e s' => Raise e s'
                    end))).
  { destruct ((flush ;; log_prefetch a ;; fetch_local_data a 0x100 (Some 1)) m1)
      as [v m2|e m2]; cbn [final] in Hpre; [|exact Hpre].
    destruct Hpre as [C E]. destruct (Hrest m2 E) as [C2 E2].
    split; [eapply called_empty_trans; eassumption | exact E2]. }
  destruct Hall as [C E]. split; [|exact E].
  eapply called_empty_trans; [apply untouched_called_empty; exact Hu | exact C].
Qed.

Lemma shadow_read_untouched {A} (a k : Z) (unpack : list byte -> exn + A) :
  sat untouched (data (BytesIO.seek a) ;; bs <- data (BytesIO.read k) ;; of_sum (unpack bs)).
Proof.
  apply (sat_bind untouched); [apply data_untouched | intros _].
  apply (sat_bind untouched); [apply data_untouched | intros bs].
  apply (sat_of_sum untouched).
Qed.

Lemma peek_word_keeps_empty (a : Z) :
  sat keeps_empty (d <- device_int (peek a) ;; log_load a d ;; check_address a ;; ret d).
Proof.
  apply (sat_bind keeps_empty); [apply device_int_keeps_empty | intros d].
  unfold log_load.
  apply (sat_bind keeps_empty); [apply (sat_ret keeps_empty) | intros _].
  apply (sat_bind keeps_empty); [apply (check_address_sat keeps_empty) | intros _].
  apply (sat_ret keeps_empty).
Qed.

Lemma peek_half_keeps_empty (a : Z) :
  sat keeps_empty (lo <- device_int (peek_byte a) ;;
                   hi <- device_int (peek_byte (a + 1)) ;;
                   let d := Z.lor lo (Z.shiftl hi 8) in
                   log_load a d ;; check_address a ;; ret d).
Proof.
  apply (sat_bind keeps_empty); [apply device_int_keeps_empty | intros lo].
  apply (sat_bind keeps_empty); [apply device_int_keeps_empty | intros hi].
  unfold log_load.
  apply (sat_bind keeps_empty); [apply (sat_ret keeps_empty) | intros _].
  apply (sat_bind keeps_empty); [apply (check_address_sat keeps_empty) | intros _].
  apply (sat_ret keeps_empty).
Qed.

Lemma peek_byte_keeps_empty (a : Z) :
  sat keeps_empty (d <- device_int (peek_byte a) ;; log_load a d ;; check_address a ;; ret d).
Proof.
  apply (sat_bind keeps_empty); [apply device_int_keeps_empty | intros d].
  unfold log_load.
  apply (sat_bind keeps_empty); [apply (sat_ret keeps_empty) | intros _].
  apply (sat_bind keeps_empty); [apply (check_address_sat keeps_empty) | intros _].
  apply (sat_ret keeps_empty).
Qed.

#[local] Instance calls_see_pending_preorder : PreOrder calls_see_pending.
Proof.
  split.
  - intros m. exists []. split; [symmetry; apply app_nil_r|]. split; [constructor | reflexivity].
  - intros x y z (n1 & E1 & F1 & R1) (n2 & E2 & F2 & R2). exists (n1 ++ n2).
    split; [rewrite E2, E1; symmetry; apply app_assoc|].
    split; [|congruence].
    apply Forall_app. split; [exact F1|]. rewrite <- R1. exact F2.
Qed.

Lemma device_call_sees_pending (c : DevCall) : sat calls_see_pending (device_call c).
Proof.
  intros m. unfold device_call.
  destruct (dev_raises _ _ _); cbn [final]; eexists;
    (split; [reflexivity|]); (split; [repeat constructor | reflexivity]).
Qed.

Lemma device_int_sees_pending (c : DevCall) : sat calls_see_pending (device_int c).
Proof.
  intros m. unfold device_int.
  apply (sat_bind calls_see_pending); [apply device_call_sees_pending | intros _].
  apply (sat_ret calls_see_pending).
Qed.

Lemma device_bytes_sees_pending (c : DevCall) : sat calls_see_pending (device_bytes c).
Proof.
  intros m. unfold device_bytes.
  apply (sat_bind calls_see_pending); [apply device_call_sees_pending | intros _].
  apply (sat_ret calls_see_pending).
Qed.

(** [hle_invoke] goes to the device without a flush. *)
Lemma hle_invoke_keeps_pending (instr : Instr) (r0 : Z) (m : t) :
  called_with_pending m (final (hle_invoke instr r0 m)).
Proof.
  unfold hle_invoke.
  match goal with |- context [bind _ ?k] =>
    assert (Hrest : sat calls_see_pending (k tt))
  end.
  { apply (sat_bind calls_see_pending); [apply (sat_gets calls_see_pending) | intros [entry|]];
      [|apply (sat_raise calls_see_pending)].
    apply (sat_bind calls_see_pending); [apply device_int_sees_pending | intros r0'].
    apply (sat_bind calls_see_pending); [apply device_bytes_sees_pending | intros _].
    apply (sat_ret calls_see_pending). }
  unfold bind at 1. unfold device_call at 1.
  destruct (dev_raises (device m) (transport_log m).*1 console_discard); cbn [final].
  - eexists. split; [reflexivity|]. split; [discriminate|].
    split; [repeat constructor | reflexivity].
  - match goal with |- context [final (_ ?m1)] =>
      destruct (Hrest m1) as (new & E & F & R)
    end.
    exists ((console_discard, RunEncoder.count (rle m)) :: new).
    split; [rewrite E; cbn [transport_log set_transport_log];
            rewrite <- app_assoc; reflexivity|].
    split; [discriminate|]. split; [|exact R].
    constructor; [reflexivity | exact F].
Qed.

Section Fetch.
Variable disassembly : list byte -> Z -> bool -> exn + list Line.

Lemma load_instruction_flushed (a : Z) (thumb : bool) :
  sat flushed (_load_instruction disassembly a thumb).
Proof.
  unfold _load_instruction. apply after_flush.
  apply (sat_bind keeps_empty);
    [eapply sat_weaken; [apply loose_keeps_empty | apply flash_prefetch_hint_loose]
    | intros block_size].
  apply (sat_bind keeps_empty);
    [destruct (block_size >=? 8); [apply (sat_ret keeps_empty) | apply (sat_raise keeps_empty)]
    | intros _].
  apply (sat_bind keeps_empty);
    [eapply sat_weaken; [apply untouched_keeps_empty | apply data_untouched] | intros _].
  apply (sat_bind keeps_empty);
    [eapply sat_weaken; [apply untouched_keeps_empty | apply data_untouched] | intros d].
  apply (sat_bind keeps_empty); [apply (sat_of_sum keeps_empty) | intros lines].
  intros m. apply untouched_keeps_empty. apply load_assembly_untouched.
Qed.

Lemma fetch_loose (a : Z) (thumb : bool) :
  sat untouched_or_flushed (fetch disassembly a thumb).
Proof.
  unfold fetch.
  apply (sat_bind untouched_or_flushed); [apply (sat_gets untouched_or_flushed) | intros [i|]].
  - apply (sat_ret untouched_or_flushed).
  - apply (sat_bind untouched_or_flushed);
      [apply (check_address_sat untouched_or_flushed) | intros _].
    apply (sat_bind untouched_or_flushed);
      [eapply sat_weaken; [|apply load_instruction_flushed]; intros x y F; right; exact F
      | intros _].
    unfold cached.
    apply (sat_bind untouched_or_flushed); [apply (sat_gets untouched_or_flushed) | intros [i|]];
      [apply (sat_ret untouched_or_flushed) | apply (sat_raise untouched_or_flushed)].
Qed.

(** C3, amended.  Every call that [load], [load_half], [load_byte] and
    [fetch] make on the transport (the flash prefetch, the device reads,
    the writes of the flush itself) is made while the RLE buffer is empty,
    whatever was pending when they were entered and whether or not they
    complete.  Whether a load flushes is decided by the prefetch test and
    the presence flags.  When the prefetch does not fire (always so at or
    above 0x200000) and every covered flag is set, the load calls nothing
    on the transport and leaves the buffer as it is.  When the prefetch
    fires (an address in flash with fewer than 8 bytes available), the
    load flushes first, also when the covered flags are set: the buffer
    is empty afterwards.  A [fetch] that finds the instruction in the
    cache returns it and changes nothing; [save_state] changes nothing.
    [hle_invoke] never flushes: it calls the device, each time with what
    was pending still pending, and leaves the buffer as it was. *)
Theorem reads_reach_device_with_empty_rle (a : Z) (thumb : bool) (m : t) :
  (called_empty m (final (load a m))
   /\ called_empty m (final (load_half a m))
   /\ called_empty m (final (load_byte a m))
   /\ called_empty m (final (fetch disassembly a thumb m)))
  /\ (0x200000 <= a -> wants_prefetch a m = false)
  /\ (wants_prefetch a m = false ->
        (present (local_addresses m) a 4 = true -> untouched m (final (load a m)))
        /\ (present (local_addresses m) a 2 = true -> untouched m (final (load_half a m)))
        /\ (present (local_addresses m) a 1 = true -> untouched m (final (load_byte a m))))
  /\ (wants_prefetch a m = true ->
        flushed m (final (load a m))
        /\ flushed m (final (load_half a m))
        /\ flushed m (final (load_byte a m)))
  /\ (forall i, instructions m !! icache_key a thumb = Some i ->
                fetch disassembly a thumb m = Ok i m)
  /\ (exists files, save_state m = Ok files m)
  /\ (forall instr r0, called_with_pending m (final (hle_invoke instr r0 m))).
Proof.
  split; [|split; [|split; [|split; [|split; [|split]]]]].
  - repeat split; apply loose_called_empty.
    + apply (load_shape_loose a 4);
        [apply shadow_read_untouched | apply peek_word_keeps_empty].
    + apply (load_shape_loose a 2);
        [apply shadow_read_untouched | apply peek_half_keeps_empty].
    + apply (load_shape_loose a 1);
        [apply shadow_read_untouched | apply peek_byte_keeps_empty].
    + apply fetch_loose.
  - apply wants_prefetch_outside_flash.
  - intros Hw. split; [|split]; intros Hp.
    + apply (load_shape_local 4); [exact Hw | exact Hp | apply shadow_read_untouched].
    + apply (load_shape_local 2); [exact Hw | exact Hp | apply shadow_read_untouched].
    + apply (load_shape_local 1); [exact Hw | exact Hp | apply shadow_read_untouched].
  - intros Hw. split; [|split].
    + apply (load_shape_prefetching 4);
        [exact Hw | apply shadow_read_untouched | apply peek_word_keeps_empty].
    + apply (load_shape_prefetching 2);
        [exact Hw | apply shadow_read_untouched | apply peek_half_keeps_empty].
    + apply (load_shape_prefetching 1);
        [exact Hw | apply shadow_read_untouched | apply peek_byte_keeps_empty].
  - intros i Hi. unfold fetch, bind, gets. rewrite Hi. reflexivity.
  - eexists. reflexivity.
  - intros instr r0. apply hle_invoke_keeps_pending.
Qed.

End Fetch.

(** A load served by the shadow does not flush. *)
Lemma shadow_load_untouched (m : t) (a : Z) :
  0x200000 <= a ->
  present (local_addresses m) a 4 = true ->
  untouched m (final (load a m)).
Proof.
  intros Ha Hp. unfold load. unfold bind at 1.
  destruct (flash_prefetch_hint_outside_flash m a Ha) as [avail ->].
  unfold bind at 1. rewrite all_present_spec by lia.
  cbn [local_addresses set_local_addresses].
  change (present (seeked a 256 (local_addresses m)) a 4)
    with (present (local_addresses m) a 4).
  rewrite Hp.
  match goal with |- untouched _ (final (?c ?m0)) =>
    assert (H : sat untouched c)
  end.
  { apply (sat_bind untouched); [apply data_untouched | intros _].
    apply (sat_bind untouched); [apply data_untouched | intros bs].
    apply (sat_of_sum untouched). }
  etransitivity; [|apply H]. split; reflexivity.
Qed.

End MemoryProxy.

(** C3, counterexample.  With a store pending in the RLE buffer
    (count = 1): a load served by the shadow returns with the buffer still
    holding it and the device never called; [hle_invoke] makes its three
    calls on the device while the buffer holds it; [save_state] leaves it
    there. *)
Lemma pending_run_survives_shadow_load_hle_and_snapshot :
  RunEncoder.count (SimARMMemory.rle shadow_and_pending) = 1
  /\ (exists m', SimARMMemory.load 0x2000000 shadow_and_pending = Ok 7 m'
                 /\ RunEncoder.count (SimARMMemory.rle m') = 1
                 /\ SimARMMemory.transport_log m' = [])
  /\ RunEncoder.count (SimARMMemory.rle tagged_and_pending) = 1
  /\ SimARMMemory.transport_log
       (final (SimARMMemory.hle_invoke tagged_nop 0 tagged_and_pending))
     = [(console_discard, 1); (blx 0x1ff0000 0, 1); (console_read, 1)]
  /\ RunEncoder.count
       (SimARMMemory.rle (final (SimARMMemory.save_state shadow_and_pending))) = 1.
Proof.
  split; [reflexivity|]. split.
  - eexists. split; [vm_compute; reflexivity|]. split; reflexivity.
  - split; [reflexivity|]. split; [vm_compute; reflexivity|]. reflexivity.
Qed.

Lemma reads_reach_device_with_empty_rle_witness :
  (wants_prefetch 0x2000000 shadow_and_pending = false
   /\ present (SimARMMemory.local_addresses shadow_and_pending) 0x2000000 4 = true
   /\ untouched shadow_and_pending
        (final (SimARMMemory.load 0x2000000 shadow_and_pending)))
  /\ (wants_prefetch 0x1000 flash_word_and_pending = true
      /\ present (SimARMMemory.local_addresses flash_word_and_pending) 0x1000 4 = true
      /\ RunEncoder.count (SimARMMemory.rle flash_word_and_pending) = 1
      /\ RunEncoder.count
           (SimARMMemory.rle (final (SimARMMemory.load 0x1000 flash_word_and_pending))) = 0)
  /\ SimARMMemory.fetch no_disassembly 0x1000 true (tagged_memory quiet_device 7)
     = Ok tagged_nop (tagged_memory quiet_device 7).
Proof.
  assert (W1 : wants_prefetch 0x2000000 shadow_and_pending = false)
    by (vm_compute; reflexivity).
  assert (P1 : present (SimARMMemory.local_addresses shadow_and_pending) 0x2000000 4 = true)
    by (vm_compute; reflexivity).
  assert (W2 : wants_prefetch 0x1000 flash_word_and_pending = true)
    by (vm_compute; reflexivity).
  assert (P2 : present (SimARMMemory.local_addresses flash_word_and_pending) 0x1000 4 = true)
    by (vm_compute; reflexivity).
  split; [|split].
  - destruct (reads_reach_device_with_empty_rle no_disassembly 0x2000000 true
                shadow_and_pending) as (_ & _ & Hlocal & _).
    destruct (Hlocal W1) as (H4 & _).
    split; [exact W1|]. split; [exact P1 | exact (H4 P1)].
  - destruct (reads_reach_device_with_empty_rle no_disassembly 0x1000 true
                flash_word_and_pending) as (_ & _ & _ & Hfire & _).
    destruct (Hfire W2) as ((_ & H0) & _).
    split; [exact W2|]. split; [exact P2|]. split; [vm_compute; reflexivity | exact H0].
  - destruct (reads_reach_device_with_empty_rle no_disassembly 0x1000 true
                (tagged_memory quiet_device 7)) as (_ & _ & _ & _ & Hhit & _).
    apply Hhit. vm_compute. reflexivity.
Defined.

Lemma store_writes_shadow_iff_all_present_witness :
  let local := final (SimARMMemory.local_ram 0x2000000 0x2000003
                        (SimARMMemory.init quiet_device)) in
  let remote := final (SimARMMemory.local_ram 0x2000000 0x2000001
                         (SimARMMemory.init quiet_device)) in
  0 <= 0x2000000 /\ 0 <= 0x12345678 < 2 ^ 32
  /\ (present (SimARMMemory.local_addresses local) 0x2000000 4 = true
      /\ Z_of_byte (BytesIO.byte_at
                      (SimARMMemory.local_data
                         (final (SimARMMemory.store 0x2000000 0x12345678 local)))
                      (0x2000000 + 1)) = 0x56)
  /\ (present (SimARMMemory.local_addresses remote) 0x2000000 4 = false
      /\ SimARMMemory.skip_stores remote !! 0x2000000 = None
      /\ RunEncoder.count (SimARMMemory.rle remote) = 0
      /\ SimARMMemory.local_data
           (final (SimARMMemory.store 0x2000000 0x12345678 remote))
         = SimARMMemory.local_data remote
      /\ SimARMMemory.rle (final (SimARMMemory.store 0x2000000 0x12345678 remote))
         = {| RunEncoder.count := 1;
              RunEncoder.key := Some (0x2000000, 0x12345678, 4) |}
      /\ SimARMMemory.transport_log
           (final (SimARMMemory.store 0x2000000 0x12345678 remote)) = []).
Proof.
  intros local remote.
  assert (Ha : 0 <= 0x2000000) by lia.
  assert (Hv : 0 <= 0x12345678 < 2 ^ 32) by lia.
  destruct (store_writes_shadow_iff_all_present local 0x2000000 0x12345678 Ha)
    as [Hl _].
  destruct (store_writes_shadow_iff_all_present remote 0x2000000 0x12345678 Ha)
    as [Hr _].
  destruct (Hl Hv) as [Hpresent _]. destruct (Hr Hv) as [_ Habsent].
  split; [exact Ha|]. split; [exact Hv|]. split.
  - split; [reflexivity|].
    destruct (Hpresent eq_refl) as (_ & Hbytes & _).
    exact (Hbytes 1%nat ltac:(lia)).
  - split; [reflexivity|]. split; [reflexivity|]. split; [reflexivity|].
    destruct (Habsent eq_refl) as (Hd & _ & Hrun).
    destruct (Hrun eq_refl) as (_ & Hempty & _).
    split; [exact Hd|]. rewrite (Hempty eq_refl). split; reflexivity.
Defined.

Lemma fill_coalescing_witness :
  let m := SimARMMemory.init quiet_device in
  let r := (SimARMMemory.store 0x2000000 0xdeadbeef ;;
            SimARMMemory.store 0x2000004 0xdeadbeef ;;
            SimARMMemory.store 0x2000008 0xdeadbeef ;;
            SimARMMemory.flush) m in
  RunEncoder.count (SimARMMemory.rle m) = 0
  /\ (SimARMMemory.transport_log (final r)).*1
     = [fill_words 0x2000000 0xdeadbeef 3]
  /\ raised r = None.
Proof.
  intros m r.
  destruct (fill_coalescing m 0xdeadbeef) as (Hlog & _ & Hraise).
  - reflexivity.
  - intros a Ha. cbn in Ha.
    destruct Ha as [<-|[<-|[<-|[]]]]; split; reflexivity.
  - split; [reflexivity|]. split; [exact Hlog | exact Hraise].
Defined.

Lemma load_checks_address_on_device_path_witness :
  let m := SimARMMemory.init quiet_device in
  let local := final ((SimARMMemory.local_ram 0x5000000 0x5000003 ;;
                       SimARMMemory.store 0x5000000 7) (SimARMMemory.init quiet_device)) in
  0x05000000 <= 0x05000000
  /\ (present (SimARMMemory.local_addresses m) 0x05000000 4 = false
      /\ raised (SimARMMemory.load 0x05000000 m) = Some (IndexError 0x05000000)
      /\ SimARMMemory.transport_log (final (SimARMMemory.load 0x05000000 m))
         = [(peek 0x05000000, 0)]
      /\ raised (SimARMMemory.load_half 0x05000000 m) = Some (IndexError 0x05000000)
      /\ SimARMMemory.transport_log (final (SimARMMemory.load_half 0x05000000 m))
         = [(peek_byte 0x05000000, 0); (peek_byte 0x05000001, 0)]
      /\ raised (SimARMMemory.load_byte 0x05000000 m) = Some (IndexError 0x05000000))
  /\ (present (SimARMMemory.local_addresses local) 0x05000000 4 = true
      /\ 0x05000000 + 4 <= BytesIO.len (SimARMMemory.local_data local)
      /\ exists m', SimARMMemory.load 0x05000000 local = Ok 7 m').
Proof.
  intros m local.
  assert (Ha : 0x05000000 <= 0x05000000) by lia.
  split; [exact Ha|]. split.
  - destruct (load_checks_address_on_device_path m 0x05000000 Ha) as (H4 & H2 & H1 & _).
    assert (Hq : forall h c, dev_raises (SimARMMemory.device m) h c = None)
      by (intros h c; reflexivity).
    destruct (H4 eq_refl) as [_ H4']. destruct (H4' eq_refl Hq) as [E4 L4].
    destruct (H2 eq_refl) as [_ H2']. destruct (H2' eq_refl Hq) as [E2 L2].
    destruct (H1 eq_refl) as [_ H1']. destruct (H1' eq_refl Hq) as [E1 _].
    split; [reflexivity|]. split; [exact E4|]. split; [exact L4|].
    split; [exact E2|]. split; [exact L2 | exact E1].
  - destruct (load_checks_address_on_device_path local 0x05000000 Ha)
      as (_ & _ & _ & H4 & _).
    assert (Hp : present (SimARMMemory.local_addresses local) 0x05000000 4 = true)
      by (vm_compute; reflexivity).
    assert (Hl : 0x05000000 + 4 <= BytesIO.len (SimARMMemory.local_data local))
      by (vm_compute; discriminate).
    split; [exact Hp|]. split; [exact Hl|].
    destruct (H4 Hp) as (_ & Hv & _). destruct (Hv Hl) as [m' E].
    exists m'. rewrite E. f_equal.
Defined.

(** ** Shift and rotate primitives, continued *)

Lemma shift_amount_range (b : Z) : 0 <= Z.land b 31 < 32.
Proof.
  change 31 with (Z.ones 5). rewrite Z.land_ones by lia.
  apply Z.mod_pos_bound. lia.
Qed.

Lemma shift_amount_period (b : Z) : Z.land (b + 32) 31 = Z.land b 31.
Proof.
  change 31 with (Z.ones 5). rewrite !Z.land_ones by lia.
  change 32 with (1 * 2 ^ 5). apply Z.mod_add. lia.
Qed.

Lemma land_1_bit (x : Z) : Z.land 1 x = Z.b2z (Z.testbit x 0).
Proof.
  rewrite Z.land_comm. change 1 with (Z.ones 1).
  rewrite Z.land_ones by lia. symmetry. apply Z.bit0_mod.
Qed.

Lemma word_bits_high (a n : Z) : 0 <= a < 2 ^ 32 -> 32 <= n -> Z.testbit a n = false.
Proof.
  intros Ha Hn. destruct (Z.eq_dec a 0) as [->|Hne]; [apply Z.bits_0|].
  apply Z.bits_above_log2; [lia|].
  assert (Z.log2 a < 32) by (apply Z.log2_lt_pow2; lia). lia.
Qed.

Lemma mask32_bits (n : Z) : 0 <= n -> Z.testbit 0xffffffff n = (n <? 32).
Proof.
  intros Hn. change 0xffffffff with (Z.ones 32).
  destruct (Z.ltb_spec n 32).
  - apply Z.ones_spec_low. lia.
  - apply Z.ones_spec_high. lia.
Qed.

(** The bits of a right rotation of a 32-bit word. *)
Lemma ror_bits (a k n : Z) :
  0 <= a < 2 ^ 32 -> 0 < k < 32 -> 0 <= n ->
  Z.testbit (Z.lor (Z.shiftr a k) (Z.land (Z.shiftl a (32 - k)) 0xffffffff)) n
  = if n <? 32 - k then Z.testbit a (n + k)
    else if n <? 32 then Z.testbit a (n - (32 - k)) else false.
Proof.
  intros Ha Hk Hn.
  rewrite Z.lor_spec, Z.shiftr_spec, Z.land_spec, Z.shiftl_spec, mask32_bits by lia.
  destruct (Z.ltb_spec n (32 - k)), (Z.ltb_spec n 32); try lia.
  - rewrite (Z.testbit_neg_r a (n - (32 - k))) by lia. cbn. apply orb_false_r.
  - rewrite (word_bits_high a (n + k)) by lia. cbn. apply andb_true_r.
  - rewrite (word_bits_high a (n + k)) by lia. cbn. apply andb_false_r.
Qed.

Lemma rol_bits (a k n : Z) :
  0 <= a < 2 ^ 32 -> 0 < k < 32 -> 0 <= n ->
  Z.testbit (Z.lor (Z.shiftr a (32 - k)) (Z.land (Z.shiftl a k) 0xffffffff)) n
  = if n <? k then Z.testbit a (n + (32 - k))
    else if n <? 32 then Z.testbit a (n - k) else false.
Proof.
  intros Ha Hk Hn.
  rewrite Z.lor_spec, Z.shiftr_spec, Z.land_spec, Z.shiftl_spec, mask32_bits by lia.
  destruct (Z.ltb_spec n k), (Z.ltb_spec n 32); try lia.
  - rewrite (Z.testbit_neg_r a (n - k)) by lia. cbn. apply orb_false_r.
  - rewrite (word_bits_high a (n + (32 - k))) by lia. cbn. apply andb_true_r.
  - rewrite (word_bits_high a (n + (32 - k))) by lia. cbn. apply andb_false_r.
Qed.

Lemma word_of_bits (x : Z) :
  (forall n, 0 <= n -> 32 <= n -> Z.testbit x n = false) ->
  0 <= x -> 0 <= x < 2 ^ 32.
Proof.
  intros Hb Hx. split; [exact Hx|].
  destruct (Z.eq_dec x 0) as [->|Hne]; [lia|].
  apply Z.log2_lt_pow2; [lia|].
  destruct (Z.lt_ge_cases (Z.log2 x) 32) as [?|Hge]; [assumption|].
  assert (Hbit : Z.testbit x (Z.log2 x) = true) by (apply Z.bit_log2; lia).
  rewrite Hb in Hbit by lia. discriminate.
Qed.

Lemma ror_value_range (a k : Z) :
  0 <= a < 2 ^ 32 -> 0 < k < 32 ->
  0 <= Z.lor (Z.shiftr a k) (Z.land (Z.shiftl a (32 - k)) 0xffffffff) < 2 ^ 32.
Proof.
  intros Ha Hk. apply word_of_bits.
  - intros n Hn Hn32. rewrite ror_bits by lia.
    destruct (Z.ltb_spec n (32 - k)), (Z.ltb_spec n 32); try reflexivity; lia.
  - apply Z.lor_nonneg. split.
    + apply Z.shiftr_nonneg. lia.
    + apply Z.land_nonneg. right. lia.
Qed.

(** X2.  [lsr] on a non-negative operand, for a shift amount that is not a
    multiple of 32: the result is the quotient by [2^k], the carry is bit
    [k-1] of the operand, and a 32-bit operand gives a 32-bit result. *)
Theorem lsr_value_and_carry (a b : Z) :
  0 <= a -> Z.land b 31 <> 0 ->
  lsr a b = (a / 2 ^ Z.land b 31, Z.b2z (Z.testbit a (Z.land b 31 - 1)))
  /\ (a < 2 ^ 32 -> 0 <= (lsr a b).1 < 2 ^ 32).
Proof.
  intros Ha Hb. assert (Hr := shift_amount_range b).
  assert (E : lsr a b = (a / 2 ^ Z.land b 31, Z.b2z (Z.testbit a (Z.land b 31 - 1)))).
  { unfold lsr. destruct (Z.eqb_spec (Z.land b 31) 0) as [?|_]; [contradiction|].
    cbn [negb]. rewrite land_1_bit, Z.shiftr_spec, Z.shiftr_div_pow2 by lia.
    reflexivity. }
  split; [exact E|]. intros Hlt. rewrite E. cbn [fst].
  split; [apply Z.div_pos; lia|].
  apply Z.div_lt_upper_bound; [lia|].
  assert (1 <= 2 ^ Z.land b 31) by (apply Z.pow_le_mono_r with (b := 0); lia). nia.
Qed.

Lemma lsr_value_and_carry_witness :
  0 <= 0x80000001 /\ Z.land 1 31 <> 0
  /\ lsr 0x80000001 1 = (0x40000000, 1).
Proof.
  assert (Ha : 0 <= 0x80000001) by lia.
  assert (Hb : Z.land 1 31 <> 0) by (vm_compute; discriminate).
  split; [exact Ha|]. split; [exact Hb|].
  destruct (lsr_value_and_carry 0x80000001 1 Ha Hb) as [E _].
  rewrite E. reflexivity.
Defined.

(** X4.  Rotating a 32-bit word right and then left by the same amount
    gives the word back, and the rotated word is a 32-bit word. *)
Theorem rol_ror_round_trip (a b : Z) :
  0 <= a < 2 ^ 32 ->
  (rol (ror a b).1 b).1 = a /\ 0 <= (ror a b).1 < 2 ^ 32.
Proof.
  intros Ha. assert (Hr := shift_amount_range b).
  unfold ror, rol. destruct (Z.eqb_spec (Z.land b 31) 0) as [E|Hne]; cbn [negb fst].
  - split; [reflexivity | exact Ha].
  - set (k := Z.land b 31) in *.
    assert (Hk : 0 < k < 32) by lia.
    assert (Hror := ror_value_range a k Ha Hk).
    split; [|exact Hror].
    apply Z.bits_inj'. intros n Hn.
    rewrite rol_bits by assumption.
    destruct (Z.ltb_spec n k).
    + rewrite ror_bits by lia.
      destruct (Z.ltb_spec (n + (32 - k)) (32 - k)); [lia|].
      destruct (Z.ltb_spec (n + (32 - k)) 32); [|lia].
      f_equal. lia.
    + destruct (Z.ltb_spec n 32).
      * rewrite ror_bits by lia.
        destruct (Z.ltb_spec (n - k) (32 - k)); [|lia].
        f_equal. lia.
      * symmetry. apply word_bits_high; lia.
Qed.

Lemma rol_ror_round_trip_witness :
  0 <= 0x12345678 < 2 ^ 32
  /\ (ror 0x12345678 8).1 = 0x78123456
  /\ (rol (ror 0x12345678 8).1 8).1 = 0x12345678.
Proof.
  assert (Ha : 0 <= 0x12345678 < 2 ^ 32) by lia.
  split; [exact Ha|]. split; [reflexivity|].
  exact (proj1 (rol_ror_round_trip 0x12345678 8 Ha)).
Defined.

(** X3.  [asr] of a 32-bit word whose sign bit is set: modulo [2^32] the
    result is the floor of the two's-complement value divided by [2^k],
    and the carry is bit [k-1] of the operand. *)
Theorem asr_negative_word (a b : Z) :
  2 ^ 31 <= a < 2 ^ 32 -> Z.land b 31 <> 0 ->
  (asr a b).1 mod 2 ^ 32 = ((a - 2 ^ 32) / 2 ^ Z.land b 31) mod 2 ^ 32
  /\ (asr a b).2 = Z.b2z (Z.testbit a (Z.land b 31 - 1)).
Proof.
  intros Ha Hb. assert (Hr := shift_amount_range b).
  set (k := Z.land b 31) in *.
  assert (Hsign : Z.land a 0x80000000 <> 0).
  { intros E. assert (Hbit : Z.testbit (Z.land a 0x80000000) 31 = false)
      by (rewrite E; apply Z.bits_0).
    rewrite Z.land_spec in Hbit. change 0x80000000 with (2 ^ 31) in Hbit.
    rewrite Z.pow2_bits_true in Hbit by lia. rewrite andb_true_r in Hbit.
    assert (Htop : Z.testbit a 31 = true).
    { rewrite Z.testbit_true by lia.
      assert (E1 : a / 2 ^ 31 = 1)
        by (symmetry; apply Z.div_unique with (r := a - 2 ^ 31); lia).
      rewrite E1. reflexivity. }
    congruence. }
  assert (Hext : Z.lor a 0xffffffff00000000 = a + 0xffffffff00000000).
  { symmetry. apply Z.add_nocarry_lor. apply Z.bits_inj'. intros n Hn.
    rewrite Z.land_spec, Z.bits_0.
    destruct (Z.lt_ge_cases n 32).
    - change 0xffffffff00000000 with (Z.shiftl 0xffffffff 32).
      rewrite Z.shiftl_spec_low by lia. apply andb_false_r.
    - rewrite (word_bits_high a n) by lia. reflexivity. }
  unfold asr. fold k.
  destruct (Z.eqb_spec k 0) as [?|_]; [contradiction|].
  destruct (Z.eqb_spec (Z.land a 0x80000000) 0) as [?|_]; [contradiction|].
  cbn [negb fst snd]. rewrite Hext. split.
  - rewrite !Z.shiftr_div_pow2 by lia.
    replace (a + 0xffffffff00000000) with (a - 2 ^ 32 + 2 ^ (64 - k) * 2 ^ k).
    2:{ rewrite <- Z.pow_add_r by lia. replace (64 - k + k) with 64 by lia. lia. }
    rewrite Z.div_add by lia.
    replace (2 ^ (64 - k)) with (2 ^ (32 - k) * 2 ^ 32).
    2:{ rewrite <- Z.pow_add_r by lia. f_equal. lia. }
    apply Z.mod_add. lia.
  - rewrite land_1_bit, Z.shiftr_spec by lia.
    replace (0 + (k - 1)) with (k - 1) by lia.
    f_equal. rewrite <- Hext, Z.lor_spec.
    change 0xffffffff00000000 with (Z.shiftl 0xffffffff 32).
    rewrite Z.shiftl_spec_low by lia. apply orb_false_r.
Qed.

Lemma asr_negative_word_witness :
  2 ^ 31 <= 0xfffffff0 < 2 ^ 32 /\ Z.land 4 31 <> 0
  /\ (asr 0xfffffff0 4).1 mod 2 ^ 32 = 0xffffffff
  /\ (asr 0xfffffff0 4).2 = 0.
Proof.
  assert (Ha : 2 ^ 31 <= 0xfffffff0 < 2 ^ 32) by lia.
  assert (Hb : Z.land 4 31 <> 0) by (vm_compute; discriminate).
  split; [exact Ha|]. split; [exact Hb|].
  destruct (asr_negative_word 0xfffffff0 4 Ha Hb) as [E1 E2].
  split; [rewrite E1; reflexivity | rewrite E2; reflexivity].
Defined.

(** X1.  The five shifts only look at the low five bits of the amount:
    adding 32 to it changes nothing, so an amount of 32 leaves the operand
    unshifted with carry 0. *)
Theorem shift_amount_is_modulo_32 (a b : Z) :
  lsl a (b + 32) = lsl a b /\ lsr a (b + 32) = lsr a b
  /\ asr a (b + 32) = asr a b /\ ror a (b + 32) = ror a b
  /\ rol a (b + 32) = rol a b
  /\ lsl a 32 = (a, 0) /\ lsr a 32 = (a, 0).
Proof.
  unfold lsl, lsr, asr, ror, rol. rewrite shift_amount_period.
  repeat split.
Qed.

(** X5.  [rrx] by one position on a 32-bit word: the carry comes in as bit
    31 and bit 0 goes out as the carry. *)
Theorem rrx_by_one (a carry : Z) :
  0 <= a < 2 ^ 32 -> 0 <= carry <= 1 ->
  rrx a 1 carry = (a / 2 + carry * 2 ^ 31, a mod 2).
Proof.
  intros Ha Hc. unfold rrx. change (Z.land 1 31) with 1. change (33 - 1) with 32.
  assert (Hc1 : Z.land carry 1 = carry).
  { change 1 with (Z.ones 1). rewrite Z.land_ones by lia. apply Z.mod_small. lia. }
  rewrite Hc1.
  assert (Ha' : Z.land a 0xffffffff = a).
  { change 0xffffffff with (Z.ones 32). rewrite Z.land_ones by lia.
    apply Z.mod_small. lia. }
  rewrite Ha'.
  assert (E33 : Z.lor a (Z.shiftl carry 32) = a + carry * 2 ^ 32).
  { rewrite Z.shiftl_mul_pow2 by lia. symmetry. apply Z.add_nocarry_lor.
    apply Z.bits_inj'. intros n Hn. rewrite Z.land_spec, Z.bits_0.
    destruct (Z.lt_ge_cases n 32).
    - rewrite Z.mul_pow2_bits_low by lia. apply andb_false_r.
    - rewrite (word_bits_high a n) by lia. reflexivity. }
  rewrite E33. set (x := a + carry * 2 ^ 32).
  assert (Hx : 0 <= x < 2 ^ 33) by (subst x; lia).
  assert (Er : Z.lor (Z.shiftr x 1) (Z.shiftl x 32) = x / 2 + x * 2 ^ 32).
  { rewrite Z.shiftl_mul_pow2, Z.shiftr_div_pow2 by lia. change (2 ^ 1) with 2.
    symmetry. apply Z.add_nocarry_lor.
    apply Z.bits_inj'. intros n Hn. rewrite Z.land_spec, Z.bits_0.
    destruct (Z.lt_ge_cases n 32).
    - rewrite Z.mul_pow2_bits_low by lia. apply andb_false_r.
    - assert (Hh : 0 <= x / 2 < 2 ^ 32).
      { split; [apply Z.div_pos; lia|]. apply Z.div_lt_upper_bound; lia. }
      rewrite (word_bits_high (x / 2) n) by lia. reflexivity. }
  rewrite Er. f_equal.
  - change 0xffffffff with (Z.ones 32). rewrite Z.land_ones by lia.
    rewrite Z.mod_add by lia. subst x.
    replace (a + carry * 2 ^ 32) with (a + (carry * 2 ^ 31) * 2) by lia.
    rewrite Z.div_add by lia.
    apply Z.mod_small.
    assert (0 <= a / 2 < 2 ^ 31).
    { split; [apply Z.div_pos; lia|]. apply Z.div_lt_upper_bound; lia. }
    lia.
  - assert (Hh : x / 2 / 2 ^ 32 = 0).
    { apply Z.div_small. split; [apply Z.div_pos; lia|].
      apply Z.div_lt_upper_bound; lia. }
    rewrite Z.shiftr_div_pow2, Z.div_add, Hh by lia.
    rewrite Z.add_0_l, Z.land_comm. change 1 with (Z.ones 1).
    rewrite Z.land_ones by lia. change (2 ^ 1) with 2. subst x.
    replace (a + carry * 2 ^ 32) with (a + (carry * 2 ^ 31) * 2) by lia.
    apply Z.mod_add. lia.
Qed.

Lemma rrx_by_one_witness :
  0 <= 3 < 2 ^ 32 /\ 0 <= 1 <= 1 /\ rrx 3 1 1 = (0x80000001, 1).
Proof.
  assert (Ha : 0 <= 3 < 2 ^ 32) by lia.
  assert (Hc : 0 <= 1 <= 1) by lia.
  split; [exact Ha|]. split; [exact Hc|].
  rewrite (rrx_by_one 3 1 Ha Hc). reflexivity.
Defined.


(** ** The run encoder *)

Lemma run_writes_snoc (c a p size : Z) :
  0 <= c ->
  run_writes (c + 1, Some (a, p, size))
  = run_writes (c, Some (a, p, size)) ++ [(a + c * size, p, size)].
Proof.
  intros Hc. unfold run_writes. cbn [fst snd].
  replace (Z.to_nat (c + 1)) with (S (Z.to_nat c)) by lia.
  rewrite seq_S, fmap_app. cbn [fmap list_fmap Nat.add].
  rewrite Z2Nat.id by lia. reflexivity.
Qed.

Lemma run_writes_one (a p size : Z) :
  run_writes (1, Some (a, p, size)) = [(a, p, size)].
Proof.
  change (run_writes (1, Some (a, p, size))) with [(a + Z.of_nat 0 * size, p, size)].
  replace (a + Z.of_nat 0 * size) with a by lia. reflexivity.
Qed.

(** One write: what is emitted plus what is then pending is what was
    pending plus the write. *)
Lemma write_preserves_writes (a p size : Z) (e : RunEncoder.t) :
  encoder_ok e ->
  let '(r, e') := RunEncoder.write a p size e in
  encoder_ok e'
  /\ run_writes r ++ run_writes (RunEncoder.count e', RunEncoder.key e')
     = run_writes (RunEncoder.count e, RunEncoder.key e) ++ [(a, p, size)].
Proof.
  intros [Hc Hk]. unfold RunEncoder.write.
  destruct (RunEncoder.key_eqb (RunEncoder.key e)
              (a - RunEncoder.count e * size) p size) eqn:E.
  - unfold RunEncoder.key_eqb in E.
    destruct (RunEncoder.key e) as [[[a' p'] s']|] eqn:Hkey; [|discriminate].
    apply andb_prop in E as [E E3]. apply andb_prop in E as [E1 E2].
    apply Z.eqb_eq in E1, E2, E3. subst a' p' s'.
    cbn [RunEncoder.count RunEncoder.key]. split.
    + split; cbn [RunEncoder.count RunEncoder.key]; [lia | intros; discriminate].
    + rewrite run_writes_snoc by exact Hc.
      change (run_writes (0, None)) with (@nil (Z * Z * Z)). cbn [app].
      replace (a - RunEncoder.count e * size + RunEncoder.count e * size)
        with a by lia.
      reflexivity.
  - cbn [RunEncoder.flush RunEncoder.count RunEncoder.key]. split.
    + split; cbn [RunEncoder.count RunEncoder.key]; [lia | intros; discriminate].
    + rewrite run_writes_one. reflexivity.
Qed.

Lemma encode_preserves_writes (ws : list (Z * Z * Z)) (e : RunEncoder.t) :
  encoder_ok e ->
  encoder_ok (encode ws e).2
  /\ concat (run_writes <$> (encode ws e).1)
       ++ run_writes (RunEncoder.flush (encode ws e).2).1
     = run_writes (RunEncoder.count e, RunEncoder.key e) ++ ws.
Proof.
  revert e. induction ws as [|[[a p] size] ws IH]; intros e He.
  - cbn [encode fst snd fmap list_fmap concat app RunEncoder.flush].
    split; [exact He|]. rewrite app_nil_r. reflexivity.
  - cbn [encode fst snd].
    assert (Hw := write_preserves_writes a p size e He).
    destruct (RunEncoder.write a p size e) as [r e1].
    destruct Hw as [He1 Hw].
    specialize (IH e1 He1). destruct (encode ws e1) as [rs e2].
    cbn [fst snd] in *. destruct IH as [He2 IH].
    split; [exact He2|].
    cbn [fmap list_fmap concat]. rewrite <- app_assoc, IH, app_assoc, Hw.
    rewrite <- app_assoc. reflexivity.
Qed.

(** X6.  The run encoder loses and reorders nothing.  Whatever writes are
    fed to a fresh encoder, the runs it emits, followed by the run that
    the final [flush] returns, expand to exactly those writes, in order. *)
Theorem run_encoder_is_lossless (ws : list (Z * Z * Z)) :
  let '(emitted, e) := encode ws RunEncoder.init in
  let '(last, e') := RunEncoder.flush e in
  concat (run_writes <$> emitted) ++ run_writes last = ws
  /\ RunEncoder.count e' = 0.
Proof.
  assert (H0 : encoder_ok RunEncoder.init) by (split; [cbn; lia | reflexivity]).
  destruct (encode_preserves_writes ws RunEncoder.init H0) as [_ H].
  destruct (encode ws RunEncoder.init) as [emitted e]. cbn [fst snd] in H.
  unfold RunEncoder.flush in *. cbn [fst] in H. split; [exact H | reflexivity].
Qed.


(** ** Write combining on the transport *)

Section WriteCombining.
Import SimARMMemory.

Lemma set_transport_log_same (m : t) : set_transport_log (transport_log m ++ []) m = m.
Proof. destruct m. unfold set_transport_log. cbn. rewrite app_nil_r. reflexivity. Qed.

Lemma unrolled_app (l1 l2 : list (DevCall * Z)) :
  unrolled (l1 ++ l2) = unrolled l1 ++ unrolled l2.
Proof. unfold unrolled. rewrite !fmap_app, concat_app. reflexivity. Qed.

Lemma device_call_quiet (c : DevCall) (m : t) :
  quiet m ->
  device_call c m
  = Ok tt (set_transport_log (transport_log m ++ [(c, RunEncoder.count (rle m))]) m).
Proof. intros Hq. unfold device_call. rewrite Hq. reflexivity. Qed.

Lemma consecutive_cons {A} (f : Z -> A) (a size : Z) (n : nat) :
  (fun i => f (a + Z.of_nat i * size)) <$> seq 0 (S n)
  = f a :: ((fun i => f (a + size + Z.of_nat i * size)) <$> seq 0 n).
Proof.
  cbn [seq fmap list_fmap]. f_equal; [f_equal; lia|].
  rewrite <- fmap_S_seq, <- list_fmap_compose.
  apply list_fmap_ext. intros _ i _. cbn. f_equal. lia.
Qed.

(** The poke loop makes exactly the direct calls of the run. *)
Lemma store_each_emits (n : nat) (p size : Z) (a : Z) (m : t) :
  quiet m -> (size = 4 \/ size = 2 \/ size = 1) ->
  (forall i, 0 <= i < Z.of_nat n -> a + i * size < 0x05000000) ->
  exists new,
    store_each n a p size m = Ok tt (set_transport_log (transport_log m ++ new) m)
    /\ new.*1 = concat (direct_calls
                          <$> ((fun i => (a + Z.of_nat i * size, p, size)) <$> seq 0 n)).
Proof.
  intros Hq Hs. revert a m Hq. induction n as [|n IH]; intros a m Hq Ha.
  - exists []. split; [|reflexivity]. cbn [store_each]. unfold ret.
    rewrite set_transport_log_same. reflexivity.
  - assert (Ha0 : a < 0x05000000) by (specialize (Ha 0); lia).
    assert (Hq' : forall l, quiet (set_transport_log l m)) by (intros l; exact Hq).
    cbn [store_each]. unfold check_address.
    destruct (Z.geb_spec a 0x05000000); [lia|].
    rewrite (consecutive_cons (fun x => (x, p, size))).
    cbn [fmap list_fmap concat].
    destruct Hs as [-> | [-> | ->]]; cbn [Z.eqb Pos.eqb];
      unfold log_store, bind, ret;
      repeat (rewrite device_call_quiet by (apply Hq' || exact Hq));
      cbn [transport_log set_transport_log rle];
      match goal with |- context [store_each n ?a' p ?sz ?m'] =>
        destruct (IH a' m') as (new & -> & Hnew);
          [apply Hq' | intros i Hi; specialize (Ha (i + 1)); lia |]
      end;
      cbn [transport_log set_transport_log];
      eexists; (split; [rewrite <- !app_assoc; reflexivity|]);
      rewrite !fmap_app, Hnew; reflexivity.
Qed.

Lemma concat_singletons {A B} (f : A -> B) (l : list A) :
  concat ((fun x => [f x]) <$> l) = f <$> l.
Proof. induction l as [|x l IH]; cbn; [reflexivity|]. now rewrite IH. Qed.

Lemma unroll_direct (l : list (Z * Z * Z)) :
  concat (unroll <$> concat (direct_calls <$> l)) = concat (direct_calls <$> l).
Proof.
  induction l as [|[[a v] size] l IH]; [reflexivity|].
  cbn [fmap list_fmap concat]. rewrite fmap_app, concat_app, IH. f_equal.
  unfold direct_calls. cbn [fst snd].
  destruct (size =? 4); [reflexivity|]. destruct (size =? 2); reflexivity.
Qed.

(** What [post_rle_store] sends for a run, spelled out, is the direct
    calls of the writes of the run. *)
Lemma post_rle_store_emits (c a p size : Z) (m : t) :
  quiet m -> 0 <= c -> (size = 4 \/ size = 2 \/ size = 1) ->
  (forall i, 0 <= i < c -> a + i * size < 0x05000000) ->
  exists new,
    post_rle_store (c, Some (a, p, size)) m
    = Ok tt (set_transport_log (transport_log m ++ new) m)
    /\ unrolled new = concat (direct_calls <$> run_writes (c, Some (a, p, size))).
Proof.
  intros Hq Hc Hs Ha. cbn [post_rle_store].
  assert (Hloop : exists new,
             store_each (Z.to_nat c) a p size m
             = Ok tt (set_transport_log (transport_log m ++ new) m)
             /\ unrolled new
                = concat (direct_calls <$> run_writes (c, Some (a, p, size)))).
  { destruct (store_each_emits (Z.to_nat c) p size a m Hq Hs) as (new & E & Hnew).
    { intros i Hi. apply Ha. lia. }
    exists new. split; [exact E|]. unfold unrolled. rewrite Hnew.
    apply unroll_direct. }
  destruct (Z.gtb_spec c 1) as [Hgt|Hle]; cbn [andb]; [|exact Hloop].
  assert (Ha0 : a < 0x05000000) by (specialize (Ha 0); lia).
  destruct Hs as [-> | [-> | ->]]; cbn [Z.eqb Pos.eqb andb]; try exact Hloop.
  - unfold check_address, log_fill, bind, ret.
    destruct (Z.geb_spec a 0x05000000); [lia|].
    rewrite device_call_quiet by exact Hq.
    eexists. split; [reflexivity|].
    unfold unrolled, run_writes. cbn [fmap list_fmap fst snd concat unroll].
    rewrite app_nil_r, <- list_fmap_compose.
    rewrite <- (concat_singletons (fun i => poke (a + Z.of_nat i * 4) p)).
    f_equal.
  - unfold check_address, log_fill, bind, ret.
    destruct (Z.geb_spec a 0x05000000); [lia|].
    rewrite device_call_quiet by exact Hq.
    eexists. split; [reflexivity|].
    unfold unrolled, run_writes. cbn [fmap list_fmap fst snd concat unroll].
    rewrite app_nil_r, <- list_fmap_compose.
    rewrite <- (concat_singletons (fun i => poke_byte (a + Z.of_nat i * 1) p)).
    f_equal.
Qed.


Lemma do_store_remote (m : t) (w : Z * Z * Z) :
  remote_write m w ->
  do_store w m
  = (r <- rle_write w.1.1 w.1.2 w.2 ;; post_rle_store r)
      (set_local_addresses (seeked w.1.1 w.2 (local_addresses m)) m).
Proof.
  destruct w as [[a v] size]. unfold remote_write. cbn [fst snd].
  intros (Hs & Ha & Hp & Hk). unfold do_store. cbn [fst snd].
  destruct Hs as [-> | [-> | ->]]; cbn [Z.eqb Pos.eqb];
    [change (Z.to_nat 4) with 4%nat in Hp; unfold store
    |change (Z.to_nat 2) with 2%nat in Hp; unfold store_half
    |change (Z.to_nat 1) with 1%nat in Hp; unfold store_byte];
    unfold bind at 1; rewrite all_present_spec by lia; rewrite Hp;
    unfold store_remote; unfold bind at 1, gets;
    cbn [skip_stores set_local_addresses]; rewrite Hk; reflexivity.
Qed.

Lemma remote_write_frame (m m' : t) (w : Z * Z * Z) :
  write_frame m m' -> remote_write m w -> remote_write m' w.
Proof.
  intros (Hd & Hk & Hp) (Hs & Ha & Hpr & Hsk).
  split; [exact Hs|]. split; [exact Ha|].
  split; [rewrite Hp; exact Hpr | rewrite Hk; exact Hsk].
Qed.

(** One remote store: the calls made, spelled out, followed by what is
    pending afterwards, are what was pending before followed by the direct
    calls of the store. *)
Lemma store_step (m : t) (w : Z * Z * Z) :
  quiet m -> pending_ok m -> remote_write m w ->
  exists m' new,
    do_store w m = Ok tt m'
    /\ quiet m' /\ write_frame m m' /\ pending_ok m'
    /\ transport_log m' = transport_log m ++ new
    /\ unrolled new ++ pending_calls m' = pending_calls m ++ direct_calls w.
Proof.
  intros Hq [[Hc Hk] Hpend] Hw. rewrite (do_store_remote m w Hw).
  destruct w as [[a v] size]. destruct Hw as (Hs & Ha & _ & _). cbn [fst snd] in *.
  set (m1 := set_local_addresses (seeked a size (local_addresses m)) m).
  unfold bind, rle_write, RunEncoder.write.
  change (rle m1) with (rle m).
  destruct (RunEncoder.key_eqb (RunEncoder.key (rle m))
              (a - RunEncoder.count (rle m) * size) v size) eqn:E.
  - unfold RunEncoder.key_eqb in E.
    destruct (RunEncoder.key (rle m)) as [[[a' p'] s']|] eqn:Hkey; [|discriminate].
    apply andb_prop in E as [E E3]. apply andb_prop in E as [E1 E2].
    apply Z.eqb_eq in E1, E2, E3. subst a' p' s'. destruct Hpend as [_ Hpend].
    cbn [post_rle_store Z.gtb Z.compare]. unfold ret.
    eexists _, []. split; [reflexivity|].
    split; [exact Hq|]. split; [repeat split|].
    split.
    + unfold pending_ok, encoder_ok.
      cbn [rle set_rle RunEncoder.count RunEncoder.key]. split.
      * split; [lia | intros; discriminate].
      * split; [exact Hs|]. intros i Hi.
        destruct (Z.eq_dec i (RunEncoder.count (rle m))) as [->|Hne];
          [lia | apply Hpend; lia].
    + split; [cbn [transport_log set_rle m1 set_local_addresses];
              symmetry; apply app_nil_r|].
      unfold pending_calls. cbn [rle set_rle RunEncoder.count RunEncoder.key].
      rewrite Hkey, run_writes_snoc by exact Hc.
      rewrite fmap_app, concat_app. cbn [app unrolled fmap list_fmap concat].
      rewrite app_nil_r.
      replace (a - RunEncoder.count (rle m) * size + RunEncoder.count (rle m) * size)
        with a by lia.
      reflexivity.
  - cbn [RunEncoder.flush].
    set (m2 := set_rle {| RunEncoder.count := 1; RunEncoder.key := Some (a, v, size) |} m1).
    assert (Hnew : pending_ok m2 /\ pending_calls m2 = direct_calls (a, v, size)).
    { split.
      - unfold pending_ok, encoder_ok.
        cbn [rle m2 set_rle RunEncoder.count RunEncoder.key]. split.
        + split; [lia | intros; discriminate].
        + split; [exact Hs|]. intros i Hi. assert (i = 0) as -> by lia. lia.
      - unfold pending_calls. cbn [rle m2 set_rle RunEncoder.count RunEncoder.key].
        rewrite run_writes_one. cbn [fmap list_fmap concat]. apply app_nil_r. }
    destruct Hnew as [Hok2 Hcalls2].
    destruct (RunEncoder.key (rle m)) as [[[a0 p0] s0]|] eqn:Hkey.
    + destruct Hpend as [Hs0 Hpend].
      destruct (post_rle_store_emits (RunEncoder.count (rle m)) a0 p0 s0 m2)
        as (new & -> & Hun); try assumption.
      eexists _, new. split; [reflexivity|].
      split; [exact Hq|]. split; [repeat split|].
      split; [exact Hok2|]. split; [reflexivity|].
      change (pending_calls (set_transport_log (transport_log m2 ++ new) m2))
        with (pending_calls m2).
      rewrite Hcalls2, Hun. unfold pending_calls. rewrite Hkey. reflexivity.
    + rewrite (Hk eq_refl). cbn [post_rle_store Z.gtb Z.compare]. unfold ret.
      eexists _, []. split; [reflexivity|].
      split; [exact Hq|]. split; [repeat split|].
      split; [exact Hok2|].
      split; [cbn [transport_log set_rle m1 m2 set_local_addresses];
              symmetry; apply app_nil_r|].
      rewrite Hcalls2. unfold pending_calls. rewrite Hkey. reflexivity.
Qed.

Lemma do_stores_spec (ws : list (Z * Z * Z)) (m : t) :
  quiet m -> pending_ok m -> Forall (remote_write m) ws ->
  exists m' new,
    do_stores ws m = Ok tt m'
    /\ quiet m' /\ pending_ok m'
    /\ transport_log m' = transport_log m ++ new
    /\ unrolled new ++ pending_calls m'
       = pending_calls m ++ concat (direct_calls <$> ws).
Proof.
  revert m. induction ws as [|w ws IH]; intros m Hq Hok Hws.
  - exists m, []. cbn [do_stores fmap list_fmap concat]. unfold ret.
    rewrite !app_nil_r. split; [reflexivity|]. split; [exact Hq|].
    split; [exact Hok|]. split; reflexivity.
  - apply Forall_cons in Hws as [Hw Hws].
    destruct (store_step m w Hq Hok Hw) as (m1 & new1 & E1 & Hq1 & Hf1 & Hok1 & Hl1 & Hc1).
    destruct (IH m1 Hq1 Hok1) as (m2 & new2 & E2 & Hq2 & Hok2 & Hl2 & Hc2).
    { eapply Forall_impl; [exact Hws|]. intros w'. apply remote_write_frame. exact Hf1. }
    exists m2, (new1 ++ new2). cbn [do_stores]. unfold bind. rewrite E1, E2.
    split; [reflexivity|]. split; [exact Hq2|]. split; [exact Hok2|].
    split; [rewrite Hl2, Hl1; symmetry; apply app_assoc|].
    rewrite unrolled_app, <- app_assoc, Hc2, app_assoc, Hc1.
    cbn [fmap list_fmap concat]. rewrite <- !app_assoc. reflexivity.
Qed.

(** Remote stores from an empty encoder, then a flush. *)
Lemma stores_then_flush (m : t) (ws : list (Z * Z * Z)) :
  quiet m ->
  rle m = RunEncoder.init ->
  Forall (remote_write m) ws ->
  exists m1 m' new,
    do_stores ws m = Ok tt m1
    /\ flush m1 = Ok tt m'
    /\ transport_log m' = transport_log m ++ new
    /\ unrolled new = concat (direct_calls <$> ws)
    /\ rle m' = RunEncoder.init.
Proof.
  intros Hq Hrle Hws.
  assert (Hok : pending_ok m).
  { unfold pending_ok, encoder_ok. rewrite Hrle. cbn. repeat split; lia. }
  assert (Hp0 : pending_calls m = []) by (unfold pending_calls; rewrite Hrle; reflexivity).
  destruct (do_stores_spec ws m Hq Hok Hws)
    as (m1 & new1 & E1 & Hq1 & [[Hc1 Hk1] Hpend1] & Hl1 & Hcalls).
  rewrite Hp0 in Hcalls. cbn [app] in Hcalls.
  exists m1. unfold flush, bind, rle_flush, RunEncoder.flush.
  unfold pending_calls in Hcalls.
  destruct (RunEncoder.key (rle m1)) as [[[a0 p0] s0]|] eqn:Hkey.
  - destruct Hpend1 as [Hs0 Hpend1].
    destruct (post_rle_store_emits (RunEncoder.count (rle m1)) a0 p0 s0
                (set_rle RunEncoder.init m1))
      as (new2 & -> & Hun); try assumption.
    eexists _, (new1 ++ new2). split; [exact E1|]. split; [reflexivity|].
    split; [cbn [transport_log set_transport_log set_rle]; rewrite Hl1;
            symmetry; apply app_assoc|].
    split; [|reflexivity].
    rewrite unrolled_app, Hun. exact Hcalls.
  - rewrite (Hk1 eq_refl). cbn [post_rle_store Z.gtb Z.compare]. unfold ret.
    eexists _, new1. split; [exact E1|]. split; [reflexivity|].
    split; [exact Hl1|]. split; [|reflexivity].
    rewrite (Hk1 eq_refl) in Hcalls. unfold run_writes in Hcalls.
    cbn [fst snd fmap list_fmap concat] in Hcalls.
    rewrite app_nil_r in Hcalls. exact Hcalls.
Qed.

(** X7.  Write combining is transparent.  For any sequence of stores of any
    width that take the remote path (addresses below the sanity limit, not
    locally present, not skipped), started on an empty encoder and
    followed by a flush, on a transport that does not fail: all of them
    complete, and the calls the device receives, with every fill spelled
    out as its pokes, are exactly the pokes of the stores, one after the
    other in program order (a half-word as its two byte pokes). *)
Theorem write_combining_is_transparent (m : t) (ws : list (Z * Z * Z)) :
  quiet m ->
  rle m = RunEncoder.init ->
  Forall (remote_write m) ws ->
  exists m' new,
    (do_stores ws ;; flush) m = Ok tt m'
    /\ transport_log m' = transport_log m ++ new
    /\ unrolled new = concat (direct_calls <$> ws)
    /\ rle m' = RunEncoder.init.
Proof.
  intros Hq Hrle Hws.
  destruct (stores_then_flush m ws Hq Hrle Hws) as (m1 & m' & new & E1 & E2 & H).
  exists m', new. split; [|exact H]. unfold bind. rewrite E1. exact E2.
Qed.

End WriteCombining.

Lemma write_combining_is_transparent_witness :
  let m := SimARMMemory.init quiet_device in
  let ws := [(0x2000000, 5, 4); (0x2000004, 5, 4); (0x2000008, 5, 4);
             (0x2000100, 0x1234, 2); (0x2000200, 7, 1); (0x2000201, 7, 1)] in
  quiet m /\ SimARMMemory.rle m = RunEncoder.init
  /\ Forall (remote_write m) ws
  /\ exists m',
       (do_stores ws ;; SimARMMemory.flush) m = Ok tt m'
       /\ (SimARMMemory.transport_log m').*1
          = [fill_words 0x2000000 5 3; poke_byte 0x2000100 0x34;
             poke_byte 0x2000101 0x12; fill_bytes 0x2000200 7 2]
       /\ unrolled (SimARMMemory.transport_log m') = concat (direct_calls <$> ws).
Proof.
  intros m ws.
  assert (Hq : quiet m) by (intros h c; reflexivity).
  assert (Hr : SimARMMemory.rle m = RunEncoder.init) by reflexivity.
  assert (Hws : Forall (remote_write m) ws).
  { repeat constructor; cbn; try lia; tauto. }
  split; [exact Hq|]. split; [exact Hr|]. split; [exact Hws|].
  destruct (write_combining_is_transparent m ws Hq Hr Hws)
    as (m' & new & E & Hl & Hun & _).
  exists m'. split; [exact E|].
  assert (Hm' : final ((do_stores ws ;; SimARMMemory.flush) m) = m')
    by (rewrite E; reflexivity).
  split.
  - rewrite <- Hm'. vm_compute. reflexivity.
  - rewrite Hl. exact Hun.
Defined.


(** ** The shadow memory, skipped stores and the instruction cache *)

Section ShadowAndCache.
Import SimARMMemory.

Lemma bytes_eqb_refl (x : list byte) : bytes_eqb x x = true.
Proof.
  induction x as [|b x IH]; cbn [bytes_eqb]; [reflexivity|].
  rewrite IH. assert (E : Byte.eqb b b = true) by (apply Byte.byte_dec_lb; reflexivity).
  rewrite E. reflexivity.
Qed.

Lemma fmap_seqZ_const {A} (f : Z -> A) (c : A) (n : nat) (a : Z) :
  (forall j, a <= j < a + Z.of_nat n -> f j = c) ->
  f <$> seqZ a (Z.of_nat n) = replicate n c.
Proof.
  intros H. apply list_eq. intros i. rewrite list_lookup_fmap.
  destruct (decide (i < n)%nat) as [Hi|Hi].
  - rewrite lookup_seqZ_lt by lia. rewrite lookup_replicate_2 by exact Hi.
    cbn. f_equal. apply H. lia.
  - rewrite lookup_seqZ_ge by lia. symmetry. apply lookup_replicate_None. lia.
Qed.

(** Reading back what [put] wrote. *)
Lemma fmap_put_seqZ (c : gmap Z byte) (a : Z) (bs : list byte) :
  (fun j => default x00 (BytesIO.put c a bs !! j)) <$> seqZ a (Z.of_nat (length bs)) = bs.
Proof.
  apply list_eq. intros i. rewrite list_lookup_fmap.
  destruct (decide (i < length bs)%nat) as [Hi|Hi].
  - rewrite lookup_seqZ_lt by lia. cbn. rewrite put_lookup.
    destruct (Z.leb_spec a (a + Z.of_nat i)); [|lia].
    destruct (Z.ltb_spec (a + Z.of_nat i) (a + Z.of_nat (length bs))); [|lia].
    cbn [andb]. replace (Z.to_nat (a + Z.of_nat i - a)) with i by lia.
    destruct (lookup_lt_is_Some_2 bs i Hi) as [b Hb]. rewrite Hb. reflexivity.
  - rewrite lookup_seqZ_ge by lia. symmetry. apply lookup_ge_None_2. lia.
Qed.

(** X8.  A skipped store is dropped.  After [skip(a, reason)] a store of any
    width to [a], when [a] is not local RAM, completes without a call on
    the transport and without touching the run encoder or the shadow data;
    the address is not even checked against the sanity limit. *)
Theorem skipped_store_is_dropped (m : t) (a v size : Z) (reason : string) :
  0 <= a -> (size = 4 \/ size = 2 \/ size = 1) ->
  present (local_addresses m) a (Z.to_nat size) = false ->
  exists m',
    (skip a reason ;; do_store (a, v, size)) m = Ok tt m'
    /\ untouched m m' /\ local_data m' = local_data m.
Proof.
  intros Ha Hs Hp. unfold bind at 1, skip, modify.
  set (m0 := set_skip_stores _ m).
  unfold do_store. cbn [fst snd].
  destruct Hs as [-> | [-> | ->]]; cbn [Z.eqb Pos.eqb];
    [change (Z.to_nat 4) with 4%nat in Hp; unfold store
    |change (Z.to_nat 2) with 2%nat in Hp; unfold store_half
    |change (Z.to_nat 1) with 1%nat in Hp; unfold store_byte];
    unfold bind at 1; rewrite all_present_spec by lia;
    change (local_addresses m0) with (local_addresses m); rewrite Hp;
    unfold store_remote, bind, gets;
    cbn [skip_stores set_local_addresses m0 set_skip_stores];
    rewrite lookup_insert_eq; unfold log_store, ret;
    (eexists; split; [reflexivity|]; repeat split).
Qed.

Lemma skipped_store_is_dropped_witness :
  let m := SimARMMemory.init quiet_device in
  0 <= 0x4002000 /\ present (local_addresses m) 0x4002000 (Z.to_nat 4) = false
  /\ exists m', (skip 0x4002000 "watchdog" ;; do_store (0x4002000, 1, 4)) m = Ok tt m'
                /\ untouched m m' /\ local_data m' = local_data m.
Proof.
  intros m. split; [lia|]. split; [reflexivity|].
  apply (skipped_store_is_dropped m 0x4002000 1 4 "watchdog");
    [lia | left; reflexivity | reflexivity].
Defined.

Lemma local_ram_effect (m : t) (b e : Z) :
  0 <= b <= e ->
  local_ram b e m
  = Ok tt (set_local_addresses
             {| BytesIO.len := Z.max (BytesIO.len (local_addresses m)) (e + 1);
                BytesIO.cell := BytesIO.put (BytesIO.cell (local_addresses m)) b
                                  (replicate (Z.to_nat (e - b + 1)) xff);
                BytesIO.pos := e + 1 |} m).
Proof.
  intros Hbe. unfold local_ram, bind, addresses, zoom, BytesIO.seek, BytesIO.write.
  destruct (Z.ltb_spec b 0) as [?|_]; [lia|].
  cbn [local_addresses set_local_addresses BytesIO.pos BytesIO.len BytesIO.cell].
  assert (Hlen := length_replicate (Z.to_nat (e - b + 1)) xff).
  destruct (replicate (Z.to_nat (e - b + 1)) xff) as [|b0 bs']; [cbn in Hlen; lia|].
  rewrite Hlen. replace (b + Z.of_nat (Z.to_nat (e - b + 1))) with (e + 1) by lia.
  reflexivity.
Qed.

(** X9.  [local_ram(begin, end)] marks exactly the addresses from [begin] to
    [end], both included: every access that lies inside the range finds
    its presence flags set afterwards, the flags outside the range are as
    before, and neither the shadow data, the run encoder nor the transport
    is involved. *)
Theorem local_ram_marks_inclusive_range (m : t) (b e : Z) :
  0 <= b <= e ->
  exists m',
    local_ram b e m = Ok tt m'
    /\ untouched m m' /\ local_data m' = local_data m
    /\ (forall a n, b <= a -> a + Z.of_nat n <= e + 1 ->
          present (local_addresses m') a n = true)
    /\ (forall j, j < b \/ e < j ->
          BytesIO.cell (local_addresses m') !! j = BytesIO.cell (local_addresses m) !! j).
Proof.
  intros Hbe. rewrite local_ram_effect by exact Hbe. eexists. split; [reflexivity|].
  split; [split; reflexivity|]. split; [reflexivity|].
  cbn [local_addresses set_local_addresses BytesIO.cell]. split.
  - intros a n Hba Hae. unfold present. cbn [BytesIO.len].
    replace (Z.max 0 (Z.min (Z.of_nat n) (Z.max _ (e + 1) - a))) with (Z.of_nat n) by lia.
    rewrite (fmap_seqZ_const _ xff); [apply bytes_eqb_refl|].
    intros j Hj. unfold BytesIO.byte_at. cbn [BytesIO.cell].
    rewrite put_lookup, length_replicate.
    destruct (Z.leb_spec b j); [|lia].
    destruct (Z.ltb_spec j (b + Z.of_nat (Z.to_nat (e - b + 1)))); [|lia].
    cbn [andb]. rewrite lookup_replicate_2 by lia. reflexivity.
  - intros j Hj. rewrite put_lookup, length_replicate.
    destruct (Z.leb_spec b j), (Z.ltb_spec j (b + Z.of_nat (Z.to_nat (e - b + 1))));
      cbn [andb]; try reflexivity; lia.
Qed.

Lemma local_ram_marks_inclusive_range_witness :
  let m := SimARMMemory.init quiet_device in
  0 <= 0x2000000 <= 0x2000fff
  /\ exists m', local_ram 0x2000000 0x2000fff m = Ok tt m'
                /\ present (local_addresses m') 0x2000ffc 4 = true
                /\ present (local_addresses m') 0x2000ffd 4 = false.
Proof.
  intros m. split; [lia|].
  destruct (local_ram_marks_inclusive_range m 0x2000000 0x2000fff ltac:(lia))
    as (m' & E & _ & _ & Hin & _).
  exists m'. split; [exact E|]. split; [apply Hin; lia|].
  assert (Hm' : m' = final (local_ram 0x2000000 0x2000fff m)) by (rewrite E; reflexivity).
  rewrite Hm'. rewrite local_ram_effect by lia. vm_compute. reflexivity.
Defined.

End ShadowAndCache.


Section ShadowRoundTrip.
Import SimARMMemory.

Lemma store_shape_shadow (n : nat) (bs : list byte) (size a v : Z) (m : t) :
  0 <= a -> length bs = n -> (0 < n)%nat ->
  present (local_addresses m) a n = true ->
  store_shape n (inr bs) size a v m
  = Ok tt (set_local_data
             {| BytesIO.len := Z.max (BytesIO.len (local_data m)) (a + Z.of_nat n);
                BytesIO.cell := BytesIO.put (BytesIO.cell (local_data m)) a bs;
                BytesIO.pos := a + Z.of_nat n |}
             (set_local_addresses (seeked a (Z.of_nat n) (local_addresses m)) m)).
Proof.
  intros Ha Hlen Hn Hp. unfold store_shape. unfold bind at 1.
  rewrite all_present_spec by exact Ha. rewrite Hp.
  unfold bind, data, zoom, BytesIO.seek, of_sum, ret, BytesIO.write.
  destruct (Z.ltb_spec a 0) as [?|_]; [lia|].
  destruct bs as [|b0 bs']; [cbn in Hlen; lia|].
  cbn [local_data set_local_data set_local_addresses BytesIO.pos BytesIO.len BytesIO.cell].
  rewrite Hlen. reflexivity.
Qed.

(** X10.  A store to local RAM reads back, for each access width.  At or
    above 0x200000, where every covered presence flag is set, a store of a
    value of the access width followed by a load of that width at the
    same address returns the value; nothing reaches the transport and the
    run encoder is not touched. *)
Theorem shadow_store_load_round_trip (m : t) (a v : Z) :
  0x200000 <= a -> 0 <= v ->
  (v < 2 ^ 32 -> present (local_addresses m) a 4 = true ->
     exists m', (store a v ;; load a) m = Ok v m' /\ untouched m m')
  /\ (v < 2 ^ 16 -> present (local_addresses m) a 2 = true ->
     exists m', (store_half a v ;; load_half a) m = Ok v m' /\ untouched m m')
  /\ (v < 2 ^ 8 -> present (local_addresses m) a 1 = true ->
     exists m', (store_byte a v ;; load_byte a) m = Ok v m' /\ untouched m m').
Proof.
  intros Ha Hv0. split; [|split]; intros Hv Hp.
  - assert (E : store a v m = store_shape 4 (inr (le_bytes 4 v)) 4 a v m).
    { unfold store, store_shape, struct_pack.
      destruct (Z.leb_spec 0 v); [|lia].
      destruct (Z.ltb_spec v (2 ^ (8 * Z.of_nat 4))); [reflexivity|].
      change (2 ^ (8 * Z.of_nat 4)) with (2 ^ 32) in *. lia. }
    unfold bind at 1. rewrite E.
    rewrite store_shape_shadow by (try reflexivity; try exact Hp; lia).
    set (m1 := set_local_data _ _).
    destruct (load_shape_shadow 4 (struct_unpack 4)
                (flush ;; d <- device_int (peek a) ;; log_load a d ;;
                 check_address a ;; ret d) a m1 Ha Hp)
      as (m' & El & Hu & _).
    exists m'. split; [|exact Hu].
    eapply eq_trans; [exact El|].
    cbn [local_data m1 set_local_data BytesIO.len BytesIO.cell].
    replace (Z.max 0 (Z.min (Z.of_nat 4) (Z.max _ (a + Z.of_nat 4) - a)))
      with (Z.of_nat (length (le_bytes 4 v))) by (rewrite length_le_bytes; lia).
    unfold BytesIO.byte_at. cbn [BytesIO.cell]. rewrite fmap_put_seqZ.
    rewrite (struct_unpack_pack 4 v (le_bytes 4 v)); [reflexivity|].
    unfold struct_pack. destruct (Z.leb_spec 0 v); [|lia].
    destruct (Z.ltb_spec v (2 ^ (8 * Z.of_nat 4))); [reflexivity|].
    change (2 ^ (8 * Z.of_nat 4)) with (2 ^ 32) in *. lia.
  - assert (E : store_half a v m = store_shape 2 (inr (le_bytes 2 v)) 2 a v m).
    { unfold store_half, store_shape, struct_pack.
      destruct (Z.leb_spec 0 v); [|lia].
      destruct (Z.ltb_spec v (2 ^ (8 * Z.of_nat 2))); [reflexivity|].
      change (2 ^ (8 * Z.of_nat 2)) with (2 ^ 16) in *. lia. }
    unfold bind at 1. rewrite E.
    rewrite store_shape_shadow by (try reflexivity; try exact Hp; lia).
    set (m1 := set_local_data _ _).
    destruct (load_shape_shadow 2 (struct_unpack 2)
                (flush ;; lo <- device_int (peek_byte a) ;;
                 hi <- device_int (peek_byte (a + 1)) ;;
                 log_load a (Z.lor lo (Z.shiftl hi 8)) ;;
                 check_address a ;; ret (Z.lor lo (Z.shiftl hi 8))) a m1 Ha Hp)
      as (m' & El & Hu & _).
    exists m'. split; [|exact Hu].
    eapply eq_trans; [exact El|].
    cbn [local_data m1 set_local_data BytesIO.len BytesIO.cell].
    replace (Z.max 0 (Z.min (Z.of_nat 2) (Z.max _ (a + Z.of_nat 2) - a)))
      with (Z.of_nat (length (le_bytes 2 v))) by (rewrite length_le_bytes; lia).
    unfold BytesIO.byte_at. cbn [BytesIO.cell]. rewrite fmap_put_seqZ.
    rewrite (struct_unpack_pack 2 v (le_bytes 2 v)); [reflexivity|].
    unfold struct_pack. destruct (Z.leb_spec 0 v); [|lia].
    destruct (Z.ltb_spec v (2 ^ (8 * Z.of_nat 2))); [reflexivity|].
    change (2 ^ (8 * Z.of_nat 2)) with (2 ^ 16) in *. lia.
  - assert (E : store_byte a v m = store_shape 1 (inr [byte_of_Z v]) 1 a v m).
    { unfold store_byte, store_shape, bytes_of_int.
      destruct (Z.leb_spec 0 v); [|lia].
      destruct (Z.ltb_spec v 256); [reflexivity|].
      change (2 ^ 8) with 256 in *. lia. }
    unfold bind at 1. rewrite E.
    rewrite store_shape_shadow by (try reflexivity; try exact Hp; lia).
    set (m1 := set_local_data _ _).
    destruct (load_shape_shadow 1 ord
                (flush ;; d <- device_int (peek_byte a) ;; log_load a d ;;
                 check_address a ;; ret d) a m1 Ha Hp)
      as (m' & El & Hu & _).
    exists m'. split; [|exact Hu].
    eapply eq_trans; [exact El|].
    cbn [local_data m1 set_local_data BytesIO.len BytesIO.cell].
    replace (Z.max 0 (Z.min (Z.of_nat 1) (Z.max _ (a + Z.of_nat 1) - a)))
      with (Z.of_nat (length [byte_of_Z v])) by (cbn [length]; lia).
    unfold BytesIO.byte_at. cbn [BytesIO.cell]. rewrite fmap_put_seqZ.
    unfold ord, of_sum. rewrite Z_of_byte_of_Z, Z.mod_small by (change (2 ^ 8) with 256 in Hv; lia).
    reflexivity.
Qed.

Lemma shadow_store_load_round_trip_witness :
  let m := final (local_ram 0x2000000 0x2000003 (SimARMMemory.init quiet_device)) in
  0x200000 <= 0x2000000 /\ 0 <= 0x12 /\ 0x12 < 2 ^ 32 /\ 0x12 < 2 ^ 16 /\ 0x12 < 2 ^ 8
  /\ present (local_addresses m) 0x2000000 4 = true
  /\ (exists m', (store 0x2000000 0x12 ;; load 0x2000000) m = Ok 0x12 m' /\ untouched m m')
  /\ (exists m', (store_half 0x2000000 0x12 ;; load_half 0x2000000) m = Ok 0x12 m'
                 /\ untouched m m')
  /\ (exists m', (store_byte 0x2000000 0x12 ;; load_byte 0x2000000) m = Ok 0x12 m'
                 /\ untouched m m').
Proof.
  intros m.
  destruct (shadow_store_load_round_trip m 0x2000000 0x12 ltac:(lia) ltac:(lia))
    as (H4 & H2 & H1).
  split; [lia|]. split; [lia|]. split; [lia|]. split; [lia|]. split; [lia|].
  split; [vm_compute; reflexivity|].
  split; [apply H4; [lia | vm_compute; reflexivity]|].
  split; [apply H2; [lia | vm_compute; reflexivity]
         |apply H1; [lia | vm_compute; reflexivity]].
Defined.

(** X11.  Local RAM that was never written has no contents.  A word load at
    or above 0x200000 whose presence flags are set, but which lies beyond
    the end of everything written to the shadow data so far, does not
    read as zero and does not go to the device: it fails in
    [struct.unpack], with the transport and the run encoder untouched. *)
Theorem load_of_unwritten_local_ram_fails (m : t) (a : Z) :
  0x200000 <= a ->
  present (local_addresses m) a 4 = true ->
  BytesIO.len (local_data m) < a + 4 ->
  raised (load a m) = Some StructError /\ untouched m (final (load a m)).
Proof.
  intros Ha Hp Hlen.
  destruct (load_shape_shadow 4 (struct_unpack 4)
              (flush ;; d <- device_int (peek a) ;; log_load a d ;;
               check_address a ;; ret d) a m Ha Hp)
    as (m' & El & Hu & _).
  rewrite (El : load a m = _).
  unfold struct_unpack. rewrite length_fmap, length_seqZ.
  destruct (Nat.eqb_spec (Z.to_nat (Z.max 0 (Z.min (Z.of_nat 4)
                                        (BytesIO.len (local_data m) - a)))) 4) as [E|_];
    [lia|].
  cbn [of_sum raise raised final]. split; [reflexivity | exact Hu].
Qed.

Lemma load_of_unwritten_local_ram_fails_witness :
  let m := final (local_ram 0x2000000 0x2000003 (SimARMMemory.init quiet_device)) in
  0x200000 <= 0x2000000
  /\ present (local_addresses m) 0x2000000 4 = true
  /\ BytesIO.len (local_data m) < 0x2000000 + 4
  /\ raised (load 0x2000000 m) = Some StructError.
Proof.
  intros m.
  assert (Hp : present (local_addresses m) 0x2000000 4 = true) by (vm_compute; reflexivity).
  assert (Hl : BytesIO.len (local_data m) < 0x2000000 + 4) by (vm_compute; reflexivity).
  split; [lia|]. split; [exact Hp|]. split; [exact Hl|].
  apply (load_of_unwritten_local_ram_fails m 0x2000000 ltac:(lia) Hp Hl).
Defined.

End ShadowRoundTrip.


(** ** The flash window *)

Section FlashWindow.
Import SimARMMemory.

Lemma find_byte_absent (x : byte) (l : list byte) :
  x ∉ l -> find_byte x l = -1.
Proof.
  induction l as [|b l IH]; intros H; cbn [find_byte]; [reflexivity|].
  apply not_elem_of_cons in H as [Hne Hl].
  destruct (Byte.eqb b x) eqn:E; [apply Byte.byte_dec_bl in E; congruence|].
  rewrite (IH Hl). reflexivity.
Qed.

Lemma find_byte_range (x : byte) (l : list byte) :
  -1 <= find_byte x l < Z.of_nat (length l).
Proof.
  induction l as [|b l IH]; cbn [find_byte length]; [lia|].
  destruct (Byte.eqb b x); [lia|].
  destruct (Z.ltb_spec (find_byte x l) 0); lia.
Qed.

Lemma find_byte_first (x : byte) (l : list byte) (i : nat) :
  l !! i = Some x -> (forall j, (j < i)%nat -> l !! j <> Some x) ->
  find_byte x l = Z.of_nat i.
Proof.
  revert i. induction l as [|b l IH]; intros i Hi Hfirst; [discriminate|].
  cbn [find_byte]. destruct i as [|i].
  - cbn in Hi. injection Hi as ->.
    rewrite (Byte.byte_dec_lb (eq_refl x)). reflexivity.
  - destruct (Byte.eqb b x) eqn:E.
    + apply Byte.byte_dec_bl in E. subst b. exfalso. apply (Hfirst 0%nat); [lia|reflexivity].
    + rewrite (IH i Hi); [|intros j Hj; apply (Hfirst (S j)); lia].
      destruct (Z.ltb_spec (Z.of_nat i) 0); lia.
Qed.

(** X12.  How [local_data_available] counts, for a limit that is not
    negative.  It reads up to [limit] presence flags at the address and
    cuts them at the first zero flag.
    When there is a zero flag the answer is its offset; when all flags
    read are set, [find] answers -1 and the slice drops the last flag, so
    the answer is one less than the number of flags read.  Nothing but
    the stream position changes. *)
Theorem local_data_available_counts (m : t) (a limit : Z) :
  0 <= a -> 0 <= limit ->
  let flags := BytesIO.byte_at (local_addresses m)
                 <$> seqZ a (Z.max 0 (Z.min limit (BytesIO.len (local_addresses m) - a))) in
  exists n,
    local_data_available a limit m
    = Ok n (set_local_addresses (seeked a limit (local_addresses m)) m)
    /\ (forall i, flags !! i = Some x00 ->
          (forall j, (j < i)%nat -> flags !! j <> Some x00) -> n = Z.of_nat i)
    /\ (x00 ∉ flags -> n = Z.of_nat (length flags - 1)).
Proof.
  intros Ha Hlimit flags.
  unfold local_data_available, bind, addresses, zoom, BytesIO.seek, BytesIO.read, ret.
  destruct (Z.ltb_spec a 0) as [?|_]; [lia|].
  destruct (Z.ltb_spec limit 0) as [?|_]; [lia|].
  cbn [local_addresses set_local_addresses BytesIO.pos BytesIO.len BytesIO.cell].
  eexists. split; [reflexivity|].
  change (BytesIO.byte_at
            {| BytesIO.len := BytesIO.len (local_addresses m);
               BytesIO.cell := BytesIO.cell (local_addresses m);
               BytesIO.pos := a |}) with (BytesIO.byte_at (local_addresses m)).
  fold flags. split.
  - intros i Hi Hfirst. rewrite (find_byte_first x00 flags i Hi Hfirst).
    unfold slice_to. destruct (Z.ltb_spec (Z.of_nat i) 0); [lia|].
    rewrite length_take, Nat2Z.id.
    assert (Hlt := lookup_lt_Some _ _ _ Hi). lia.
  - intros Hno. rewrite (find_byte_absent x00 flags Hno).
    unfold slice_to. cbn [Z.ltb Z.compare]. rewrite length_take. lia.
Qed.

Lemma local_data_available_counts_witness :
  let m := final (local_ram 0x1000 0x1007 (SimARMMemory.init quiet_device)) in
  0 <= 0x1000 /\ 0 <= 0x100
  /\ exists m', local_data_available 0x1000 0x100 m = Ok 7 m'.
Proof.
  intros m. split; [lia|]. split; [lia|].
  destruct (local_data_available_counts m 0x1000 0x100 ltac:(lia) ltac:(lia))
    as (n & E & _ & Hall).
  eexists. rewrite E. f_equal.
  rewrite Hall; [vm_compute; reflexivity|].
  vm_compute. intros H. repeat (apply elem_of_cons in H as [H|H]; [discriminate H|]).
  apply elem_of_nil in H. exact H.
Defined.

Lemma read_back_prefix (c : gmap Z byte) (a : Z) (bs : list byte) (n : nat) :
  (n <= length bs)%nat ->
  (fun j => default x00 (BytesIO.put c a bs !! j)) <$> seqZ a (Z.of_nat n) = take n bs.
Proof.
  intros Hn. apply list_eq. intros i. rewrite list_lookup_fmap.
  destruct (decide (i < n)%nat) as [Hi|Hi].
  - rewrite lookup_seqZ_lt by lia. cbn. rewrite put_lookup.
    destruct (Z.leb_spec a (a + Z.of_nat i)); [|lia].
    destruct (Z.ltb_spec (a + Z.of_nat i) (a + Z.of_nat (length bs))); [|lia].
    cbn [andb]. replace (Z.to_nat (a + Z.of_nat i - a)) with i by lia.
    rewrite lookup_take_lt by exact Hi.
    destruct (lookup_lt_is_Some_2 bs i ltac:(lia)) as [b Hb]. rewrite Hb. reflexivity.
  - rewrite lookup_seqZ_ge by lia. symmetry. apply lookup_ge_None_2.
    rewrite length_take. lia.
Qed.

(** The prefetch of a flash address beyond everything marked so far. *)
Lemma flash_prefetch_fresh (m : t) (a : Z) :
  0 <= a < 0x200000 ->
  BytesIO.len (local_addresses m) <= a ->
  quiet m -> RunEncoder.count (rle m) = 0 ->
  let call := read_block a 0x100 (Some 1) in
  let block := dev_bytes (device m) (transport_log m).*1 call in
  block <> [] ->
  exists m2,
    flash_prefetch_hint a m = Ok (Z.of_nat (length block)) m2
    /\ transport_log m2 = transport_log m ++ [(call, 0)]
    /\ rle m2 = RunEncoder.init
    /\ device m2 = device m
    /\ BytesIO.len (local_addresses m2) = a + Z.of_nat (length block)
    /\ BytesIO.cell (local_addresses m2)
       = BytesIO.put (BytesIO.cell (local_addresses m)) a (replicate (length block) xff)
    /\ BytesIO.len (local_data m2)
       = Z.max (BytesIO.len (local_data m)) (a + Z.of_nat (length block))
    /\ BytesIO.cell (local_data m2) = BytesIO.put (BytesIO.cell (local_data m)) a block.
Proof.
  intros Ha Hlen Hq Hc call block Hne.
  unfold flash_prefetch_hint. unfold bind at 1.
  assert (Eav : local_data_available a 0x100 m
                = Ok 0 (set_local_addresses (seeked a 0x100 (local_addresses m)) m)).
  { unfold local_data_available, bind, addresses, zoom, BytesIO.seek, BytesIO.read, ret, seeked.
    destruct (Z.ltb_spec a 0) as [?|_]; [lia|].
    cbn [local_addresses set_local_addresses BytesIO.pos BytesIO.len BytesIO.cell].
    replace (Z.max 0 (Z.min 256 (BytesIO.len (local_addresses m) - a))) with 0 by lia.
    reflexivity. }
  rewrite Eav.
  destruct (Z.ltb_spec a 2097152) as [_|?]; [|lia].
  change (0 <? 8) with true. cbn [andb].
  set (m1 := set_local_addresses _ m).
  unfold bind at 1. rewrite flush_empty by exact Hc.
  unfold log_prefetch. unfold bind at 1, ret at 1.
  unfold fetch_local_data. unfold bind at 1.
  unfold device_bytes, bind at 1, device_call.
  cbn [device transport_log rle set_rle m1 set_local_addresses RunEncoder.count RunEncoder.init].
  rewrite Hq. unfold ret at 1. fold call. fold block.
  set (m3 := set_transport_log _ _).
  unfold bind at 1.
  assert (Hpos : 0 <= a <= a + Z.of_nat (length block) - 1).
  { destruct block; [contradiction|]. cbn [length]. lia. }
  rewrite local_ram_effect by exact Hpos.
  replace (Z.to_nat (a + Z.of_nat (length block) - 1 - a + 1)) with (length block) by lia.
  replace (a + Z.of_nat (length block) - 1 + 1) with (a + Z.of_nat (length block)) by lia.
  unfold bind, data, zoom, BytesIO.seek, BytesIO.write, ret.
  destruct (Z.ltb_spec a 0) as [?|_]; [lia|].
  cbn [local_data set_local_data set_local_addresses BytesIO.pos BytesIO.len BytesIO.cell].
  destruct block as [|b0 bs] eqn:Eb; [contradiction|]. rewrite <- Eb.
  eexists. split; [reflexivity|].
  cbn [transport_log rle device local_addresses local_data set_local_data
       set_local_addresses set_transport_log set_rle m3 m1 BytesIO.len BytesIO.cell seeked].
  repeat split. lia.
Qed.

(** X13.  The first load from flash, when the prefetch brings at least
    four bytes.  For a word load below 0x200000, at an address beyond
    everything marked local so far, with nothing pending and a transport
    that does not fail: if the block that
    [read_block(a, 0x100, max_round_trips=1)] returns has at least four
    bytes, then that call is the only one the load makes on the
    transport, the load returns the first four bytes of the block as a
    little-endian word, and the whole block is local from then on. *)
Theorem first_flash_load_prefetches_block (m : t) (a : Z) :
  0 <= a < 0x200000 ->
  BytesIO.len (local_addresses m) <= a ->
  quiet m -> RunEncoder.count (rle m) = 0 ->
  let call := read_block a 0x100 (Some 1) in
  let block := dev_bytes (device m) (transport_log m).*1 call in
  (4 <= length block)%nat ->
  exists m',
    load a m = Ok (le_value (take 4 block)) m'
    /\ transport_log m' = transport_log m ++ [(call, 0)]
    /\ present (local_addresses m') a (length block) = true
    /\ BytesIO.byte_at (local_data m') <$> seqZ a (Z.of_nat (length block)) = block.
Proof.
  intros Ha Hlen Hq Hc call block Hb.
  assert (Hne : block <> []) by (intros E; rewrite E in Hb; cbn in Hb; lia).
  destruct (flash_prefetch_fresh m a Ha Hlen Hq Hc Hne)
    as (m2 & E2 & Hlog & Hrle & Hdev & Hal & Hac & Hdl & Hdc).
  subst call block.
  set (call := read_block a 256 (Some 1)) in *.
  set (block := dev_bytes (device m) (transport_log m).*1 call) in *.
  assert (Hpres : forall n, (n <= length block)%nat -> present (local_addresses m2) a n = true).
  { intros n Hn. unfold present. rewrite Hal.
    replace (Z.max 0 (Z.min (Z.of_nat n) (a + Z.of_nat (length block) - a)))
      with (Z.of_nat n) by lia.
    rewrite (fmap_seqZ_const _ xff); [apply bytes_eqb_refl|].
    intros j Hj. unfold BytesIO.byte_at. rewrite Hac, put_lookup, length_replicate.
    destruct (Z.leb_spec a j); [|lia].
    destruct (Z.ltb_spec j (a + Z.of_nat (length block))); [|lia].
    cbn [andb]. rewrite lookup_replicate_2 by lia. reflexivity. }
  unfold load. unfold bind at 1. rewrite E2.
  unfold bind at 1. rewrite all_present_spec by lia. rewrite (Hpres 4%nat Hb).
  unfold bind, data, zoom, BytesIO.seek, BytesIO.read.
  destruct (Z.ltb_spec a 0) as [?|_]; [lia|].
  change (if 4 <? 0 then ?x else ?y) with y.
  cbn [local_data set_local_data set_local_addresses BytesIO.pos BytesIO.len BytesIO.cell].
  rewrite Hdl.
  replace (Z.max 0 (Z.min 4 (Z.max (BytesIO.len (local_data m)) (a + Z.of_nat (length block)) - a)))
    with (Z.of_nat 4) by lia.
  unfold BytesIO.byte_at at 1. cbn [BytesIO.cell]. rewrite Hdc, read_back_prefix by exact Hb.
  unfold struct_unpack. rewrite length_take, Nat.min_l by exact Hb.
  cbn [Nat.eqb of_sum ret]. eexists. split; [reflexivity|].
  cbn [transport_log local_addresses local_data set_local_data set_local_addresses seeked
       BytesIO.len BytesIO.cell].
  split; [exact Hlog|]. split.
  - change (present (local_addresses m2) a (length block) = true). apply Hpres. lia.
  - unfold BytesIO.byte_at. cbn [BytesIO.cell]. apply fmap_put_seqZ.
Qed.

End FlashWindow.

Lemma first_flash_load_prefetches_block_witness :
  let m := SimARMMemory.init flash_device in
  0 <= 0x1000 < 0x200000
  /\ BytesIO.len (SimARMMemory.local_addresses m) <= 0x1000
  /\ quiet m /\ RunEncoder.count (SimARMMemory.rle m) = 0
  /\ exists m',
       SimARMMemory.load 0x1000 m = Ok 0 m'
       /\ (SimARMMemory.transport_log m').*1 = [read_block 0x1000 0x100 (Some 1)].
Proof.
  intros m.
  assert (Ha : 0 <= 0x1000 < 0x200000) by lia.
  assert (Hl : BytesIO.len (SimARMMemory.local_addresses m) <= 0x1000) by (cbn; lia).
  assert (Hq : quiet m) by (intros x c; reflexivity).
  assert (Hc : RunEncoder.count (SimARMMemory.rle m) = 0) by reflexivity.
  split; [exact Ha|]. split; [exact Hl|]. split; [exact Hq|]. split; [exact Hc|].
  destruct (first_flash_load_prefetches_block m 0x1000 Ha Hl Hq Hc ltac:(cbn; lia))
    as (m' & E & Hlog & _).
  exists m'. split; [exact E|]. rewrite Hlog. reflexivity.
Defined.


(** ** The instruction cache, patches and snapshots *)

Section CacheFrames.
Import SimARMMemory.

Lemma sat_modify {S} (R : S -> S -> Prop) (f : S -> S) :
  (forall s, R s (f s)) -> sat R (modify f).
Proof. intros H s. apply H. Qed.

#[local] Instance cache_grows_preorder : PreOrder cache_grows.
Proof.
  split; [intros m k i H; exact H|].
  intros x y z Hxy Hyz k i H. apply Hyz, Hxy, H.
Qed.

#[local] Instance keeps_code_preorder : PreOrder keeps_code.
Proof.
  split; [intros m; split; reflexivity|].
  intros x y z [I1 P1] [I2 P2]. split; congruence.
Qed.

#[local] Instance tagged_from_preorder : PreOrder tagged_from.
Proof.
  split; [intros m; split; [reflexivity | intros k i H; left; exact H]|].
  intros x y z [P1 T1] [P2 T2]. split; [congruence|].
  intros k i H. destruct (T2 k i H) as [Hy|Ht].
  - apply T1, Hy.
  - right. rewrite Ht, P1. reflexivity.
Qed.

Lemma keeps_code_tagged (x y : t) : keeps_code x y -> tagged_from x y.
Proof. intros [I P]. split; [exact P|]. intros k i H. left. rewrite <- I. exact H. Qed.

Lemma load_assembly_grows (a : Z) (lines : list Line) (thumb : bool) (m : t) :
  cache_grows m (_load_assembly a lines thumb m).
Proof.
  revert m. induction lines as [|l rest IH]; intros m; cbn [_load_assembly].
  - reflexivity.
  - destruct rest as [|l' rest']; [reflexivity|].
    etransitivity; [|apply IH].
    destruct (instructions m !! icache_key (l_address l) thumb) eqn:E; [reflexivity|].
    intros k i H. cbn [instructions set_instructions].
    rewrite lookup_insert_ne; [exact H|]. intros <-. congruence.
Qed.

Lemma load_assembly_tagged (a : Z) (lines : list Line) (thumb : bool) (m : t) :
  tagged_from m (_load_assembly a lines thumb m).
Proof.
  revert m. induction lines as [|l rest IH]; intros m; cbn [_load_assembly].
  - reflexivity.
  - destruct rest as [|l' rest']; [reflexivity|].
    etransitivity; [|apply IH].
    destruct (instructions m !! icache_key (l_address l) thumb) eqn:E; [reflexivity|].
    split; [reflexivity|]. intros k i. cbn [instructions set_instructions].
    destruct (decide (k = icache_key (l_address l) thumb)) as [->|Hne].
    + rewrite lookup_insert_eq. intros [= <-]. right. reflexivity.
    + rewrite lookup_insert_ne by congruence. intros H. left. exact H.
Qed.

Lemma device_call_keeps_code (c : DevCall) : sat keeps_code (device_call c).
Proof.
  intros m. unfold device_call.
  destruct (dev_raises (device m) (transport_log m).*1 c); split; reflexivity.
Qed.

Lemma device_bytes_keeps_code (c : DevCall) : sat keeps_code (device_bytes c).
Proof.
  intros m. unfold device_bytes, bind, ret.
  assert (H := device_call_keeps_code c m).
  destruct (device_call c m); exact H.
Qed.

Lemma addresses_keeps_code {A} (c : M BytesIO.t A) : sat keeps_code (addresses c).
Proof.
  intros m. unfold addresses, zoom. destruct (c (local_addresses m)); split; reflexivity.
Qed.

Lemma data_keeps_code {A} (c : M BytesIO.t A) : sat keeps_code (data c).
Proof.
  intros m. unfold data, zoom. destruct (c (local_data m)); split; reflexivity.
Qed.

Lemma store_each_keeps_code (n : nat) (a p size : Z) :
  sat keeps_code (store_each n a p size).
Proof.
  revert a. induction n as [|n IH]; intros a; cbn [store_each].
  - apply (sat_ret keeps_code).
  - apply (sat_bind keeps_code); [apply (check_address_sat keeps_code) | intros _].
    apply (sat_bind keeps_code); [|intros _; apply IH].
    unfold log_store.
    destruct (size =? 4); [|destruct (size =? 2); [|destruct (size =? 1)]].
    + apply (sat_bind keeps_code); [apply (sat_ret keeps_code) | intros _].
      apply device_call_keeps_code.
    + apply (sat_bind keeps_code); [apply (sat_ret keeps_code) | intros _].
      apply (sat_bind keeps_code); intros; apply device_call_keeps_code.
    + apply (sat_bind keeps_code); [apply (sat_ret keeps_code) | intros _].
      apply device_call_keeps_code.
    + apply (sat_raise keeps_code).
Qed.

Lemma post_rle_store_keeps_code (r : Z * option (Z * Z * Z)) :
  sat keeps_code (post_rle_store r).
Proof.
  destruct r as [c [[[a p] size]|]]; cbn [post_rle_store].
  - unfold log_fill.
    destruct ((c >? 1) && (size =? 4)); [|destruct ((c >? 1) && (size =? 1))].
    + apply (sat_bind keeps_code); [apply (check_address_sat keeps_code) | intros _].
      apply (sat_bind keeps_code); [apply (sat_ret keeps_code) | intros _].
      apply device_call_keeps_code.
    + apply (sat_bind keeps_code); [apply (check_address_sat keeps_code) | intros _].
      apply (sat_bind keeps_code); [apply (sat_ret keeps_code) | intros _].
      apply device_call_keeps_code.
    + apply store_each_keeps_code.
  - destruct (c >? 0); [apply (sat_raise keeps_code) | apply (sat_ret keeps_code)].
Qed.

Lemma flush_keeps_code : sat keeps_code flush.
Proof.
  unfold flush. apply (sat_bind keeps_code); [|intros r; apply post_rle_store_keeps_code].
  intros m. unfold rle_flush. destruct (RunEncoder.flush (rle m)). split; reflexivity.
Qed.

Lemma flash_prefetch_hint_keeps_code (a : Z) : sat keeps_code (flash_prefetch_hint a).
Proof.
  unfold flash_prefetch_hint, local_data_available, fetch_local_data, local_ram, log_prefetch.
  apply (sat_bind keeps_code).
  { apply (sat_bind keeps_code); [apply addresses_keeps_code | intros _].
    apply (sat_bind keeps_code); [apply addresses_keeps_code | intros flags].
    apply (sat_ret keeps_code). }
  intros avail. destruct ((a <? 2097152) && (avail <? 8)); [|apply (sat_ret keeps_code)].
  apply (sat_bind keeps_code); [apply flush_keeps_code | intros _].
  apply (sat_bind keeps_code); [apply (sat_ret keeps_code) | intros _].
  apply (sat_bind keeps_code); [apply device_bytes_keeps_code | intros block].
  apply (sat_bind keeps_code).
  { apply (sat_bind keeps_code); intros; apply addresses_keeps_code. }
  intros _.
  apply (sat_bind keeps_code); [apply data_keeps_code | intros _].
  apply (sat_bind keeps_code); [apply data_keeps_code | intros _].
  apply (sat_ret keeps_code).
Qed.

Lemma note_lines_grows (lines : list Line) : sat cache_grows (note_lines lines).
Proof.
  induction lines as [|l rest IH]; cbn [note_lines]; [apply (sat_ret cache_grows)|].
  destruct rest as [|l' rest']; [apply (sat_ret cache_grows)|].
  apply (sat_bind cache_grows).
  { destruct (Z.land (l_address l) 1 =? 0);
      [apply (sat_ret cache_grows) | apply (sat_raise cache_grows)]. }
  intros _. apply (sat_bind cache_grows); [|intros _; exact IH].
  apply sat_modify. intros s k i H. exact H.
Qed.

Section Toolchains.
Variable assemble_string : Z -> string -> bool -> exn + list byte.
Variable disassembly : list byte -> Z -> bool -> exn + list Line.

Lemma load_instruction_tagged (a : Z) (thumb : bool) :
  sat tagged_from (_load_instruction disassembly a thumb).
Proof.
  unfold _load_instruction.
  apply (sat_bind tagged_from);
    [eapply sat_weaken; [apply keeps_code_tagged | apply flush_keeps_code] | intros _].
  apply (sat_bind tagged_from);
    [eapply sat_weaken; [apply keeps_code_tagged | apply flash_prefetch_hint_keeps_code]
    | intros block_size].
  apply (sat_bind tagged_from);
    [destruct (block_size >=? 8); [apply (sat_ret tagged_from) | apply (sat_raise tagged_from)]
    | intros _].
  apply (sat_bind tagged_from);
    [eapply sat_weaken; [apply keeps_code_tagged | apply data_keeps_code] | intros _].
  apply (sat_bind tagged_from);
    [eapply sat_weaken; [apply keeps_code_tagged | apply data_keeps_code] | intros d].
  apply (sat_bind tagged_from); [apply (sat_of_sum tagged_from) | intros lines].
  apply sat_modify. intros m. apply load_assembly_tagged.
Qed.

(** X14.  A second fetch is served by the cache.  Whenever [fetch] returns an
    instruction, fetching the same address in the same mode again returns
    the same instruction and changes nothing: no flush, no prefetch, no
    disassembly. *)
Theorem fetch_again_hits_cache (a : Z) (th : bool) (m m' : t) (i : Instr) :
  fetch disassembly a th m = Ok i m' ->
  fetch disassembly a th m' = Ok i m'.
Proof.
  unfold fetch, bind, gets.
  destruct (instructions m !! icache_key a th) as [i0|] eqn:E.
  - unfold ret. intros [= <- <-]. rewrite E. reflexivity.
  - destruct (check_address a m) as [[] m1|e m1]; [|discriminate].
    destruct (_load_instruction disassembly a th m1) as [[] m2|e m2]; [|discriminate].
    unfold cached, bind, gets.
    destruct (instructions m2 !! icache_key a th) eqn:E2; unfold ret, raise; [|discriminate].
    intros [= <- <-]. rewrite E2. reflexivity.
Qed.

(** X15.  A code patch does not replace what is already cached.  [patch] with
    code loads the patch through [_load_assembly], which only fills empty
    cache slots: an instruction that was cached before the patch, at the
    patched address or anywhere else, is still what [fetch] returns
    afterwards, whether or not the patch completes. *)
Theorem code_patch_keeps_cached_instructions
    (a : Z) (code : string) (hle_ : option string) (th : bool)
    (a' : Z) (th' : bool) (i : Instr) (m : t) :
  code <> EmptyString ->
  instructions m !! icache_key a' th' = Some i ->
  let m' := final (patch assemble_string disassembly a (Some code) hle_ th m) in
  fetch disassembly a' th' m' = Ok i m'.
Proof.
  intros Hc Hi m'.
  assert (Hg : sat cache_grows (patch assemble_string disassembly a (Some code) hle_ th)).
  { unfold patch. apply String.eqb_neq in Hc. rewrite Hc. cbn [negb default].
    apply (sat_bind cache_grows).
    { apply (sat_bind cache_grows); [apply (sat_of_sum cache_grows) | intros s].
      apply (sat_bind cache_grows); [apply (sat_of_sum cache_grows) | intros lines].
      apply (sat_bind cache_grows); [apply note_lines_grows | intros _].
      destruct (rev lines) as [|l1 [|l2 ?]];
        [apply (sat_raise cache_grows) | apply (sat_raise cache_grows)
        | apply (sat_ret cache_grows)]. }
    intros la. apply (sat_bind cache_grows).
    { destruct hle_ as [h|]; [destruct (negb (h =? ""))%string|];
        try apply (sat_ret cache_grows).
      apply (sat_bind cache_grows); intros; apply sat_modify; intros s k j H; exact H. }
    intros _. apply sat_modify. intros s. apply load_assembly_grows. }
  assert (Hi' : instructions m' !! icache_key a' th' = Some i) by exact (Hg m _ _ Hi).
  unfold fetch, bind, gets. rewrite Hi'. reflexivity.
Qed.

(** X16.  An HLE patch reaches the next fetch.  After [patch(a, hle=h)] with
    no code, whatever was cached for [a] is gone, and the instruction that
    the next [fetch] of [a] returns, whenever it returns one, carries the
    tag ['hle_%08x' % a]. *)
Theorem hle_patch_tags_next_fetch (a : Z) (h : string) (th : bool)
    (m m' : t) (i : Instr) :
  h <> EmptyString ->
  (patch assemble_string disassembly a None (Some h) th ;;
   fetch disassembly a th) m = Ok i m' ->
  hle i = Some (String.append "hle_" (format_08x a)).
Proof.
  intros Hh. apply String.eqb_neq in Hh.
  unfold bind at 1, patch. rewrite Hh. cbn [negb default].
  unfold bind at 1 2 3, ret, modify. cbn [snd].
  set (name := String.append "hle_" (format_08x a)).
  set (m1 := set_instructions _ _).
  assert (Hnone : instructions m1 !! icache_key a th = None)
    by (cbn [m1 instructions set_instructions]; apply lookup_delete_eq).
  assert (Htag : patch_hle m1 !! icache_key a th = Some name)
    by (cbn [m1 patch_hle set_instructions set_patch_hle]; apply lookup_insert_eq).
  unfold fetch, bind, gets. rewrite Hnone.
  unfold check_address. destruct (a >=? 83886080); unfold raise, ret; [discriminate|].
  assert (Ht := load_instruction_tagged a th m1).
  destruct (_load_instruction disassembly a th m1) as [[] m2|e m2]; [|discriminate].
  cbn [final] in Ht. unfold cached, bind, gets.
  destruct (instructions m2 !! icache_key a th) as [j|] eqn:E2; unfold ret, raise;
    [|discriminate].
  intros [= <- <-]. destruct Ht as [_ Ht].
  destruct (Ht _ _ E2) as [Hold|Hnew]; [congruence|].
  rewrite Hnew. exact Htag.
Qed.

End Toolchains.

(** X17.  A snapshot round trip.  [load_state] followed by [save_state] gives
    back the two files that were loaded, byte for byte, whatever the
    memory held before; loading never fails. *)
Theorem snapshot_round_trip (addr_file data_file : list byte) (m : t) :
  exists m',
    load_state addr_file data_file m = Ok tt m'
    /\ save_state m' = Ok (addr_file, data_file) m'
    /\ untouched m m' /\ keeps_code m m'.
Proof.
  assert (Hw : forall bs, exists f,
             BytesIO.write bs BytesIO.init = Ok tt f /\ BytesIO.getvalue f = bs).
  { intros [|b bs]; [exists BytesIO.init; split; reflexivity|].
    eexists. split; [reflexivity|].
    unfold BytesIO.getvalue, BytesIO.byte_at. cbn [BytesIO.len BytesIO.cell BytesIO.init BytesIO.pos].
    replace (Z.max 0 (0 + Z.of_nat (length (b :: bs)))) with (Z.of_nat (length (b :: bs)))
      by lia.
    apply fmap_put_seqZ. }
  destruct (Hw addr_file) as (fa & Ea & Ga). destruct (Hw data_file) as (fd & Ed & Gd).
  unfold load_state, bind, modify, addresses, data, zoom.
  cbn [local_addresses set_local_addresses local_data set_local_data].
  rewrite Ea. cbn [local_addresses set_local_addresses local_data set_local_data].
  rewrite Ed. eexists. split; [reflexivity|].
  unfold save_state, gets.
  cbn [local_addresses set_local_addresses local_data set_local_data].
  rewrite Ga, Gd. repeat split.
Qed.

End CacheFrames.

Lemma fetch_again_hits_cache_witness :
  exists i m',
    SimARMMemory.fetch two_nops 0x1000 true tagged_unfetched = Ok i m'
    /\ SimARMMemory.fetch two_nops 0x1000 true m' = Ok i m'.
Proof.
  destruct (SimARMMemory.fetch two_nops 0x1000 true tagged_unfetched) as [i m'|e m'] eqn:E;
    [|vm_compute in E; discriminate].
  exists i, m'. split; [reflexivity|].
  apply (fetch_again_hits_cache two_nops 0x1000 true tagged_unfetched m' i E).
Defined.

Lemma code_patch_keeps_cached_instructions_witness :
  let m := cache_one flash_device 0x1001 tagged_nop in
  let m' := final (SimARMMemory.patch sample_assembler two_nops 0x1000
                     (Some "bx lr"%string) None true m) in
  "bx lr"%string <> EmptyString
  /\ SimARMMemory.instructions m !! SimARMMemory.icache_key 0x1000 true = Some tagged_nop
  /\ raised (SimARMMemory.patch sample_assembler two_nops 0x1000
               (Some "bx lr"%string) None true m) = None
  /\ SimARMMemory.fetch two_nops 0x1000 true m' = Ok tagged_nop m'.
Proof.
  intros m m'.
  assert (Hc : "bx lr"%string <> EmptyString) by discriminate.
  assert (Hi : SimARMMemory.instructions m !! SimARMMemory.icache_key 0x1000 true
               = Some tagged_nop) by (vm_compute; reflexivity).
  split; [exact Hc|]. split; [exact Hi|]. split; [vm_compute; reflexivity|].
  apply (code_patch_keeps_cached_instructions sample_assembler two_nops
           0x1000 "bx lr" None true 0x1000 true tagged_nop m Hc Hi).
Defined.

Lemma hle_patch_tags_next_fetch_witness :
  let m := cache_one flash_device 0x1001
             {| address := 0x1000; next_address := 0x1002; op := "nop"; args := "";
                hle := None |} in
  "r0 = 1"%string <> EmptyString
  /\ exists i m',
       (SimARMMemory.patch sample_assembler two_nops 0x1000 None (Some "r0 = 1"%string) true ;;
        SimARMMemory.fetch two_nops 0x1000 true) m = Ok i m'
       /\ hle i = Some "hle_00001000"%string.
Proof.
  intros m.
  assert (Hh : "r0 = 1"%string <> EmptyString) by discriminate.
  split; [exact Hh|].
  destruct ((SimARMMemory.patch sample_assembler two_nops 0x1000 None
               (Some "r0 = 1"%string) true ;;
             SimARMMemory.fetch two_nops 0x1000 true) m) as [i m'|e m'] eqn:E;
    [|vm_compute in E; discriminate].
  exists i, m'. split; [reflexivity|].
  apply (hle_patch_tags_next_fetch sample_assembler two_nops 0x1000 "r0 = 1" true m m' i Hh E).
Defined.


(** ** The condition tables of the two simulators *)

Section LegacyConditions.
Import SimARM.

(** X19.  The earlier simulator's condition table.  In [sim_arm.py] every
    suffix other than [ls] is registered with the predicate of the ARM
    table: the conditional operation runs the base operation iff the
    predicate holds on the flags, and does nothing otherwise. *)
Theorem legacy_condition_table_except_ls (fn : Legacy.Op) (c : string) :
  In c suffixes -> c <> "ls"%string ->
  exists g, assoc c (Legacy.condition_table fn) = Some g
    /\ forall i s, exists b,
         arm_condition c (cpsrN s) (cpsrZ s) (cpsrC s) (cpsrV s) = Some b
         /\ g i s = if b then fn i s else Ok tt s.
Proof.
  intros Hin Hls. cbn in Hin.
  repeat (destruct Hin as [<-|Hin]); try contradiction; try congruence;
    (eexists; split; [reflexivity|]; intros i s;
     unfold Legacy.conditional; cbn [snd];
     eexists; split; [reflexivity|];
     destruct (cpsrN s), (cpsrZ s), (cpsrC s), (cpsrV s); reflexivity).
Qed.

End LegacyConditions.

Lemma legacy_condition_table_except_ls_witness :
  let s := SimARM.set_cpsrC true (SimARM.reset (SimARMMemory.init quiet_device) 0x1000) in
  In "hi"%string suffixes /\ "hi"%string <> "ls"%string
  /\ exists g, assoc "hi" (Legacy.condition_table Legacy.op_b) = Some g
               /\ g (instr_of 0x1000 0x1004 "bhi" "0x2000" None) s
                  = Ok tt (SimARM.set__branch (Some 0x2000) s).
Proof.
  intros s.
  assert (Hin : In "hi"%string suffixes) by (cbn; tauto).
  assert (Hne : "hi"%string <> "ls"%string) by discriminate.
  split; [exact Hin|]. split; [exact Hne|].
  destruct (legacy_condition_table_except_ls Legacy.op_b "hi" Hin Hne) as (g & Hg & Hrun).
  exists g. split; [exact Hg|].
  destruct (Hrun (instr_of 0x1000 0x1004 "bhi" "0x2000" None) s) as (b & Hb & ->).
  injection Hb as <-. reflexivity.
Defined.

Lemma core_condition_table_witness :
  let s := SimARM.reset (SimARMMemory.init quiet_device) 0x1000 in
  In "ls"%string suffixes
  /\ exists g th, assoc "ls" (SimARM.condition_table SimARM.op_b) = Some g
       /\ g (instr_of 0x1000 0x1004 "bls" "0x2000" None) = inr th
       /\ th s = Ok tt (SimARM.set__branch (Some 0x2000) s).
Proof.
  intros s.
  assert (Hin : In "ls"%string suffixes) by (cbn; tauto).
  split; [exact Hin|].
  destruct (core_condition_table SimARM.op_b "ls" Hin) as (g & Hg & Hrun).
  exists g. specialize (Hrun (instr_of 0x1000 0x1004 "bls" "0x2000" None)).
  change (SimARM.op_b (instr_of 0x1000 0x1004 "bls" "0x2000" None))
    with (@inr exn SimARM.Thunk (modify (SimARM.set__branch (Some 0x2000)))) in Hrun.
  destruct (g (instr_of 0x1000 0x1004 "bls" "0x2000" None)) as [e|th]; [contradiction|].
  exists th. split; [exact Hg|]. split; [reflexivity|].
  destruct (Hrun s) as (b & Hb & ->). injection Hb as <-. reflexivity.
Defined.


(** ** Arithmetic, comparison and branch operations *)

Section Arithmetic.
Import SimARM.

Lemma bit31_of_range (x q : Z) :
  q * 2 ^ 31 <= x < (q + 1) * 2 ^ 31 -> bit31 x = q mod 2.
Proof.
  intros H. unfold bit31. rewrite Z.shiftr_div_pow2 by lia.
  change 1 with (Z.ones 1). rewrite Z.land_ones by lia. change (2 ^ 1) with 2.
  f_equal. symmetry. apply Z.div_unique with (r := x - q * 2 ^ 31); lia.
Qed.

Lemma bit31_word (a : Z) :
  0 <= a < 2 ^ 32 -> bit31 a = if a <? 2 ^ 31 then 0 else 1.
Proof.
  intros Ha. destruct (Z.ltb_spec a (2 ^ 31)).
  - rewrite (bit31_of_range a 0) by lia. reflexivity.
  - rewrite (bit31_of_range a 1) by lia. reflexivity.
Qed.

Lemma land_mask32 (x : Z) : Z.land x 0xffffffff = x mod 2 ^ 32.
Proof. change 0xffffffff with (Z.ones 32). apply Z.land_ones. lia. Qed.

(** The flags that [cmp], [subs] and their relatives compute, for 32-bit
    operands. *)
Lemma sub_flags_spec (a b : Z) (s : t) :
  0 <= a < 2 ^ 32 -> 0 <= b < 2 ^ 32 ->
  exists s',
    sub_flags a b (a - b) s = Ok tt s'
    /\ regs s' = regs s /\ memory s' = memory s /\ thumb s' = thumb s
    /\ _branch s' = _branch s
    /\ cpsrZ s' = (a =? b)
    /\ cpsrC s' = (b <=? a)
    /\ cpsrN s' = (2 ^ 31 <=? (a - b) mod 2 ^ 32)
    /\ Bool.eqb (negb (cpsrN s')) (negb (cpsrV s')) = (signed32 b <=? signed32 a)
    /\ cpsrV s' = negb (signed32 a - signed32 b =? signed32 ((a - b) mod 2 ^ 32)).
Proof.
  intros Ha Hb. unfold sub_flags, bind, modify. eexists. split; [reflexivity|].
  cbn [regs memory thumb _branch cpsrZ cpsrC cpsrN cpsrV
       set_cpsrN set_cpsrZ set_cpsrC set_cpsrV].
  split; [reflexivity|]. split; [reflexivity|]. split; [reflexivity|].
  split; [reflexivity|].
  rewrite !land_mask32, (Z.mod_small a), (Z.mod_small b) by lia.
  rewrite (bit31_word a Ha), (bit31_word b Hb).
  assert (Hr : (a - b) mod 2 ^ 32 = if b <=? a then a - b else a - b + 2 ^ 32).
  { destruct (Z.leb_spec b a).
    - apply Z.mod_small. lia.
    - symmetry. apply Z.mod_unique with (q := -1); lia. }
  assert (Hn : bit31 (a - b) = if 2 ^ 31 <=? (a - b) mod 2 ^ 32 then 1 else 0).
  { rewrite Hr. destruct (Z.leb_spec b a).
    - destruct (Z.leb_spec (2 ^ 31) (a - b)).
      + rewrite (bit31_of_range (a - b) 1) by lia. reflexivity.
      + rewrite (bit31_of_range (a - b) 0) by lia. reflexivity.
    - destruct (Z.leb_spec (2 ^ 31) (a - b + 2 ^ 32)).
      + rewrite (bit31_of_range (a - b) (-1)) by lia. reflexivity.
      + rewrite (bit31_of_range (a - b) (-2)) by lia. reflexivity. }
  rewrite Hn, Hr. unfold signed32, truthy.
  repeat split;
    destruct (Z.leb_spec b a);
    repeat match goal with
           | |- context [Z.leb ?x ?y] => destruct (Z.leb_spec x y)
           | |- context [Z.ltb ?x ?y] => destruct (Z.ltb_spec x y)
           | |- context [Z.eqb ?x ?y] => destruct (Z.eqb_spec x y)
           | |- context [Z.geb ?x ?y] => rewrite (Z.geb_leb x y)
           end; cbn; try reflexivity; lia.
Qed.

Lemma cmp_r0_r1_parse (ad n : Z) (h : option string) :
  op_cmp (instr_of ad n "cmp" "r0, r1" h)
  = inr (a <- gets (reg 0) ;; b <- gets (fun st => (reg 1 st, 0)) ;;
         sub_flags a b.1 (a - b.1)).
Proof. reflexivity. Qed.

(** X20.  [cmp] followed by a condition.  After [cmp r0, r1] on 32-bit
    register values, every comparison suffix registered by
    [_generate_condition_codes] runs its operation exactly when the
    comparison it names holds of the two values: [eq]/[ne] for equality,
    [hs]/[cs], [lo]/[cc], [hi], [ls] for the unsigned order and [ge],
    [lt], [gt], [le] for the two's-complement order.  [cmp] itself writes
    no register. *)
Theorem cmp_decides_conditions (s : t) (fn : Factory) (c : string) (ok : bool)
    (ad n : Z) (h : option string) :
  0 <= reg 0 s < 2 ^ 32 -> 0 <= reg 1 s < 2 ^ 32 ->
  compare_outcome c (reg 0 s) (reg 1 s) = Some ok ->
  exists s' g,
    run_op op_cmp (instr_of ad n "cmp" "r0, r1" h) s = Ok tt s'
    /\ regs s' = regs s
    /\ assoc c (condition_table fn) = Some g
    /\ forall j f, fn j = inr f ->
         exists th, g j = inr th /\ th s' = if ok then f s' else Ok tt s'.
Proof.
  intros Ha Hb Hc.
  destruct (sub_flags_spec (reg 0 s) (reg 1 s) s Ha Hb)
    as (s' & Hrun & Hregs & _ & _ & _ & HZ & HC & HN & HNV & _).
  assert (Erun : run_op op_cmp (instr_of ad n "cmp" "r0, r1" h) s = Ok tt s').
  { unfold run_op. rewrite cmp_r0_r1_parse. unfold of_sum, bind, gets, ret.
    cbn [fst]. exact Hrun. }
  assert (Hsa : forall x y, (signed32 x <? signed32 y) = negb (signed32 y <=? signed32 x)).
  { intros x y. destruct (Z.ltb_spec (signed32 x) (signed32 y)),
      (Z.leb_spec (signed32 y) (signed32 x)); try reflexivity; lia. }
  assert (Hua : forall x y : Z, (x <? y) = negb (y <=? x)).
  { intros x y. destruct (Z.ltb_spec x y), (Z.leb_spec y x); try reflexivity; lia. }
  assert (Hle : (reg 0 s <=? reg 1 s) = (cpsrZ s' || negb (cpsrC s'))).
  { rewrite HZ, HC.
    destruct (Z.leb_spec (reg 0 s) (reg 1 s)), (Z.eqb_spec (reg 0 s) (reg 1 s)),
      (Z.leb_spec (reg 1 s) (reg 0 s)); try reflexivity; lia. }
  assert (Hsle : (signed32 (reg 0 s) <=? signed32 (reg 1 s))
                 = (negb (Bool.eqb (negb (cpsrN s')) (negb (cpsrV s'))) || cpsrZ s')).
  { rewrite HNV, HZ. unfold signed32.
    destruct (Z.eqb_spec (reg 0 s) (reg 1 s)) as [->|Hne].
    - rewrite Z.leb_refl, orb_true_r. reflexivity.
    - rewrite orb_false_r.
      destruct (Z.ltb_spec (reg 0 s) (2 ^ 31)), (Z.ltb_spec (reg 1 s) (2 ^ 31));
        repeat match goal with
               | |- context [Z.leb ?x ?y] => destruct (Z.leb_spec x y)
               end; try reflexivity; lia. }
  exists s'.
  unfold compare_outcome in Hc.
  repeat match type of Hc with
         | context [String.eqb c ?lit] =>
             destruct (String.eqb_spec c lit) as [->|_]; cbv iota in Hc;
               [injection Hc as <-;
                eexists; split; [exact Erun|]; split; [exact Hregs|];
                split; [reflexivity|];
                intros j f Hf; unfold conditional, sum_bind; cbn [snd]; rewrite Hf;
                eexists; split; [reflexivity|]; cbn beta
               |]
         end; try discriminate Hc.
  - rewrite HZ. reflexivity.
  - rewrite HZ. reflexivity.
  - rewrite HC. reflexivity.
  - rewrite HC. reflexivity.
  - rewrite HC, Hua. reflexivity.
  - rewrite HC, Hua. reflexivity.
  - rewrite HC, HZ, Hua.
    destruct (Z.leb_spec (reg 1 s) (reg 0 s)), (Z.eqb_spec (reg 0 s) (reg 1 s)),
      (Z.leb_spec (reg 0 s) (reg 1 s)); try reflexivity; lia.
  - rewrite Hle. reflexivity.
  - rewrite HNV. reflexivity.
  - rewrite HNV, Hsa. reflexivity.
  - rewrite Hsa, Hsle.
    destruct (Bool.eqb (negb (cpsrN s')) (negb (cpsrV s'))), (cpsrZ s'); reflexivity.
  - rewrite Hsle. reflexivity.
Qed.

Lemma add_flags_spec (a b : Z) (s : t) :
  0 <= a < 2 ^ 32 -> 0 <= b < 2 ^ 32 ->
  exists s',
    add_flags a b (a + b) s = Ok tt s'
    /\ regs s' = regs s /\ memory s' = memory s /\ thumb s' = thumb s
    /\ _branch s' = _branch s
    /\ cpsrC s' = (2 ^ 32 <=? a + b)
    /\ cpsrZ s' = ((a + b) mod 2 ^ 32 =? 0)
    /\ cpsrN s' = (2 ^ 31 <=? (a + b) mod 2 ^ 32)
    /\ cpsrV s' = negb (signed32 a + signed32 b =? signed32 ((a + b) mod 2 ^ 32)).
Proof.
  intros Ha Hb. unfold add_flags, bind, modify. eexists. split; [reflexivity|].
  cbn [regs memory thumb _branch cpsrZ cpsrC cpsrN cpsrV
       set_cpsrN set_cpsrZ set_cpsrC set_cpsrV].
  split; [reflexivity|]. split; [reflexivity|]. split; [reflexivity|].
  split; [reflexivity|].
  rewrite !land_mask32.
  rewrite (bit31_word a Ha), (bit31_word b Hb).
  assert (Hr : (a + b) mod 2 ^ 32 = if 2 ^ 32 <=? a + b then a + b - 2 ^ 32 else a + b).
  { destruct (Z.leb_spec (2 ^ 32) (a + b)).
    - symmetry. apply Z.mod_unique with (q := 1); lia.
    - apply Z.mod_small. lia. }
  assert (Hn : bit31 (a + b) = if 2 ^ 31 <=? (a + b) mod 2 ^ 32 then 1 else 0).
  { rewrite Hr. destruct (Z.leb_spec (2 ^ 32) (a + b)).
    - destruct (Z.leb_spec (2 ^ 31) (a + b - 2 ^ 32)).
      + rewrite (bit31_of_range (a + b) 3) by lia. reflexivity.
      + rewrite (bit31_of_range (a + b) 2) by lia. reflexivity.
    - destruct (Z.leb_spec (2 ^ 31) (a + b)).
      + rewrite (bit31_of_range (a + b) 1) by lia. reflexivity.
      + rewrite (bit31_of_range (a + b) 0) by lia. reflexivity. }
  rewrite Hn, Hr. unfold signed32, truthy.
  change 4294967295 with (2 ^ 32 - 1).
  repeat split;
    destruct (Z.leb_spec (2 ^ 32) (a + b));
    repeat match goal with
           | |- context [Z.leb ?x ?y] => destruct (Z.leb_spec x y)
           | |- context [Z.ltb ?x ?y] => destruct (Z.ltb_spec x y)
           | |- context [Z.eqb ?x ?y] => destruct (Z.eqb_spec x y)
           | |- context [Z.gtb ?x ?y] => rewrite (Z.gtb_ltb x y)
           end; cbn; try reflexivity; lia.
Qed.

Lemma adds_r0_r1_r2_parse (ad n : Z) (h : option string) :
  op_adds (instr_of ad n "adds" "r0, r1, r2" h)
  = inr (a <- gets (reg 1) ;; b <- gets (fun st => (reg 2 st, 0)) ;;
         add_flags a b.1 (a + b.1) ;;
         modify (set_reg 0 (Z.land (a + b.1) 0xffffffff))).
Proof. reflexivity. Qed.

(** X21.  [adds] on 32-bit register values.  [adds r0, r1, r2] leaves the
    sum modulo 2^32 in r0 and sets the four flags as the architecture
    defines them: C is the carry out of bit 31, Z says that the 32-bit
    result is zero, N is its bit 31 and V says that the two's-complement
    sum does not fit in 32 bits. *)
Theorem adds_sets_arithmetic_flags (s : t) (ad n : Z) (h : option string) :
  length (regs s) = 16%nat ->
  0 <= reg 1 s < 2 ^ 32 -> 0 <= reg 2 s < 2 ^ 32 ->
  exists s',
    run_op op_adds (instr_of ad n "adds" "r0, r1, r2" h) s = Ok tt s'
    /\ reg 0 s' = (reg 1 s + reg 2 s) mod 2 ^ 32
    /\ cpsrC s' = (2 ^ 32 <=? reg 1 s + reg 2 s)
    /\ cpsrZ s' = ((reg 1 s + reg 2 s) mod 2 ^ 32 =? 0)
    /\ cpsrN s' = (2 ^ 31 <=? (reg 1 s + reg 2 s) mod 2 ^ 32)
    /\ cpsrV s' = negb (signed32 (reg 1 s) + signed32 (reg 2 s)
                        =? signed32 ((reg 1 s + reg 2 s) mod 2 ^ 32)).
Proof.
  intros Hl Ha Hb.
  destruct (add_flags_spec (reg 1 s) (reg 2 s) s Ha Hb)
    as (s1 & Hrun & Hregs & _ & _ & _ & HC & HZ & HN & HV).
  unfold run_op. rewrite adds_r0_r1_r2_parse. unfold of_sum, bind, gets, ret, modify.
  cbn [fst]. rewrite Hrun. eexists. split; [reflexivity|].
  split; [|repeat split; assumption].
  rewrite reg_set_reg_eq by (rewrite Hregs, Hl; lia). apply land_mask32.
Qed.

Lemma subs_r0_r1_r2_parse (ad n : Z) (h : option string) :
  op_subs (instr_of ad n "subs" "r0, r1, r2" h)
  = inr (a <- gets (reg 1) ;; b <- gets (fun st => (reg 2 st, 0)) ;;
         sub_flags a b.1 (a - b.1) ;;
         modify (set_reg 0 (Z.land (a - b.1) 0xffffffff))).
Proof. reflexivity. Qed.

(** X29.  [subs] on 32-bit register values.  [subs r0, r1, r2] leaves the
    difference modulo 2^32 in r0; C is set when there is no borrow
    (r1 >= r2 as unsigned numbers), Z when the operands are equal, N is
    bit 31 of the 32-bit result and V says that the two's-complement
    difference does not fit in 32 bits. *)
Theorem subs_sets_arithmetic_flags (s : t) (ad n : Z) (h : option string) :
  length (regs s) = 16%nat ->
  0 <= reg 1 s < 2 ^ 32 -> 0 <= reg 2 s < 2 ^ 32 ->
  exists s',
    run_op op_subs (instr_of ad n "subs" "r0, r1, r2" h) s = Ok tt s'
    /\ reg 0 s' = (reg 1 s - reg 2 s) mod 2 ^ 32
    /\ cpsrC s' = (reg 2 s <=? reg 1 s)
    /\ cpsrZ s' = (reg 1 s =? reg 2 s)
    /\ cpsrN s' = (2 ^ 31 <=? (reg 1 s - reg 2 s) mod 2 ^ 32)
    /\ cpsrV s' = negb (signed32 (reg 1 s) - signed32 (reg 2 s)
                        =? signed32 ((reg 1 s - reg 2 s) mod 2 ^ 32)).
Proof.
  intros Hl Ha Hb.
  destruct (sub_flags_spec (reg 1 s) (reg 2 s) s Ha Hb)
    as (s1 & Hrun & Hregs & _ & _ & _ & HZ & HC & HN & _ & HV).
  unfold run_op. rewrite subs_r0_r1_r2_parse. unfold of_sum, bind, gets, ret, modify.
  cbn [fst]. rewrite Hrun. eexists. split; [reflexivity|].
  split; [|repeat split; assumption].
  rewrite reg_set_reg_eq by (rewrite Hregs, Hl; lia). apply land_mask32.
Qed.

Lemma umull_parse (ad n : Z) (h : option string) :
  op_umull (instr_of ad n "umull" "r0, r1, r2, r3" h)
  = inr (r <- gets (fun s => reg 2 s * reg 3 s) ;;
         modify (set_reg 0 (Z.land r 0xffffffff)) ;;
         modify (set_reg 1 (Z.land (Z.shiftr r 32) 0xffffffff))).
Proof. reflexivity. Qed.

Lemma reg_set_reg_ne (k n : nat) (v : Z) (s : t) :
  k <> n -> reg k (set_reg n v s) = reg k s.
Proof.
  intros H. unfold reg, set_reg. cbn [regs set_regs].
  apply list_lookup_total_insert_ne. congruence.
Qed.

(** X22.  [umull] splits the product.  [umull r0, r1, r2, r3] on 32-bit
    register values leaves the low word of r2 * r3 in r0 and the high
    word in r1: the two words together are the full 64-bit product. *)
Theorem umull_splits_product (s : t) (ad n : Z) (h : option string) :
  length (regs s) = 16%nat ->
  0 <= reg 2 s < 2 ^ 32 -> 0 <= reg 3 s < 2 ^ 32 ->
  exists s',
    run_op op_umull (instr_of ad n "umull" "r0, r1, r2, r3" h) s = Ok tt s'
    /\ reg 0 s' + 2 ^ 32 * reg 1 s' = reg 2 s * reg 3 s
    /\ 0 <= reg 0 s' < 2 ^ 32 /\ 0 <= reg 1 s' < 2 ^ 32.
Proof.
  intros Hl Ha Hb.
  unfold run_op. rewrite umull_parse. unfold of_sum, bind, gets, ret, modify.
  eexists. split; [reflexivity|].
  set (r := reg 2 s * reg 3 s).
  assert (Hr : 0 <= r < 2 ^ 64) by (subst r; nia).
  rewrite reg_set_reg_eq by (unfold set_reg; cbn [regs set_regs];
                             rewrite length_insert, Hl; lia).
  rewrite reg_set_reg_ne by lia.
  rewrite reg_set_reg_eq by (rewrite Hl; lia).
  rewrite !land_mask32, Z.shiftr_div_pow2 by lia.
  assert (Hhi : 0 <= r / 2 ^ 32 < 2 ^ 32).
  { split; [apply Z.div_pos; lia|]. apply Z.div_lt_upper_bound; lia. }
  rewrite (Z.mod_small (r / 2 ^ 32)) by exact Hhi.
  assert (Hm := Z.mod_pos_bound r (2 ^ 32) ltac:(lia)).
  assert (Hd := Z.div_mod r (2 ^ 32) ltac:(lia)).
  split; [lia|]. split; [exact Hm | exact Hhi].
Qed.

Lemma land_one_bit (r i : Z) :
  0 <= i -> truthy (Z.land r (Z.shiftl 1 i)) = Z.testbit r i.
Proof.
  intros Hi. unfold truthy. rewrite Z.shiftl_1_l.
  destruct (Z.testbit r i) eqn:E.
  - destruct (Z.eqb_spec (Z.land r (2 ^ i)) 0) as [H0|_]; [|reflexivity].
    assert (Hb : Z.testbit (Z.land r (2 ^ i)) i = false) by (rewrite H0; apply Z.bits_0).
    rewrite Z.land_spec, E, Z.pow2_bits_true in Hb by lia. discriminate.
  - destruct (Z.eqb_spec (Z.land r (2 ^ i)) 0) as [_|H0]; [reflexivity|].
    exfalso. apply H0. apply Z.bits_inj'. intros k Hk.
    rewrite Z.land_spec, Z.bits_0.
    destruct (Z.eq_dec k i) as [->|Hne].
    + rewrite E. reflexivity.
    + rewrite Z.pow2_bits_false by lia. apply andb_false_r.
Qed.

Lemma clz_scan_spec (fuel : nat) (r i : Z) :
  0 <= i <= 32 -> 32 - i < Z.of_nat fuel ->
  i <= clz_scan fuel r i <= 32
  /\ (forall j, i <= j < clz_scan fuel r i -> Z.testbit r j = false)
  /\ (clz_scan fuel r i < 32 -> Z.testbit r (clz_scan fuel r i) = true).
Proof.
  revert i. induction fuel as [|fuel IH]; intros i Hi Hf; [lia|].
  cbn [clz_scan]. destruct (Z.ltb_spec i 32) as [Hlt|Hge].
  - rewrite land_one_bit by lia. destruct (Z.testbit r i) eqn:E.
    + split; [lia|]. split; [intros j Hj; lia | intros _; exact E].
    + destruct (IH (i + 1)) as (Hr & Hz & Ho); [lia | lia |].
      split; [lia|]. split; [|exact Ho].
      intros j Hj. destruct (Z.eq_dec j i) as [->|Hne]; [exact E | apply Hz; lia].
  - split; [lia|]. split; [intros j Hj; lia | lia].
Qed.

Lemma clz_r0_r1_parse (ad n : Z) (h : option string) :
  op_clz (instr_of ad n "clz" "r0, r1" h)
  = inr (r <- gets (fun st => (reg 1 st, 0)) ;;
         modify (set_reg 0 (Z.land (clz_scan 33 r.1 0) 0xffffffff))).
Proof. reflexivity. Qed.

(** X23.  [clz] counts from the low end.  The loop of [op_clz] tests bit 0
    first and moves up, so [clz r0, r1] leaves in r0 the position of the
    lowest set bit of r1 (the number of trailing zeros), and 32 when the
    low 32 bits are all clear; for r1 = 1 that is 0, for r1 = 0x80000000
    it is 31. *)
Theorem clz_counts_trailing_zeros (s : t) (ad n : Z) (h : option string) :
  length (regs s) = 16%nat ->
  exists s',
    run_op op_clz (instr_of ad n "clz" "r0, r1" h) s = Ok tt s'
    /\ 0 <= reg 0 s' <= 32
    /\ (forall j, 0 <= j < reg 0 s' -> Z.testbit (reg 1 s) j = false)
    /\ (reg 0 s' < 32 -> Z.testbit (reg 1 s) (reg 0 s') = true).
Proof.
  intros Hl. unfold run_op. rewrite clz_r0_r1_parse.
  unfold of_sum, bind, gets, ret, modify. cbn [fst].
  eexists. split; [reflexivity|].
  destruct (clz_scan_spec 33 (reg 1 s) 0) as (Hr & Hz & Ho); [lia | lia |].
  rewrite reg_set_reg_eq by (rewrite Hl; lia).
  rewrite land_mask32, Z.mod_small by lia.
  split; [lia|]. split; [exact Hz | exact Ho].
Qed.

(** X24.  [bl] and [bx lr] pair up.  [bl] records the return address with
    the current ISA mode in bit 0 of lr; a following [bx lr] branches to
    the instruction after the [bl] and restores that mode, whatever the
    call target was. *)
Theorem bl_then_bx_lr_returns (i j : Instr) (f : Thunk) (s : t) :
  length (regs s) = 16%nat ->
  op_bl i = inr f ->
  args j = "lr"%string ->
  Z.even (next_address i) = true ->
  exists g s1 s2,
    op_bx j = inr g /\ f s = Ok tt s1 /\ g s1 = Ok tt s2
    /\ _branch s2 = Some (next_address i) /\ thumb s2 = thumb s.
Proof.
  intros Hl Hbl Hj Hev. unfold op_bl, sum_bind in Hbl.
  destruct (_reg_or_target (args i)) as [e|tF]; [discriminate|].
  injection Hbl as <-.
  unfold op_bx. rewrite Hj.
  change (reg_numbers !! "lr"%string) with (Some 14%nat).
  eexists _, _, _. split; [reflexivity|].
  unfold bind, modify, gets. split; [reflexivity|]. split; [reflexivity|].
  cbn [_branch thumb set__branch set_thumb].
  assert (Hlr : reg 14 (set__branch (Some (tF (set_reg 14 (Z.lor (next_address i)
                  (Z.b2z (thumb s))) s)))
                  (set_reg 14 (Z.lor (next_address i) (Z.b2z (thumb s))) s))
                = Z.lor (next_address i) (Z.b2z (thumb s))).
  { change (reg 14 (set__branch ?b ?x)) with (reg 14 x).
    apply reg_set_reg_eq. rewrite Hl. lia. }
  rewrite Hlr.
  assert (Hb0 : Z.testbit (next_address i) 0 = false)
    by (rewrite Z.bit0_odd, <- Z.negb_even, Hev; reflexivity).
  assert (Hbit : forall k, 0 < k -> Z.testbit (Z.b2z (thumb s)) k = false).
  { intros k Hk. destruct (thumb s); cbn [Z.b2z]; [|apply Z.bits_0].
    change 1 with (2 ^ 0). apply Z.pow2_bits_false. lia. }
  split.
  - f_equal. apply Z.bits_inj'. intros k Hk.
    rewrite Z.land_spec, Z.lor_spec, Z.lnot_spec by lia.
    destruct (Z.eq_dec k 0) as [->|Hne].
    + rewrite Hb0. change (Z.testbit 1 0) with true. cbn. apply andb_false_r.
    + rewrite Hbit by lia. change 1 with (2 ^ 0) at 1.
      rewrite Z.pow2_bits_false by lia. cbn. rewrite orb_false_r, andb_true_r. reflexivity.
  - unfold truthy. change 1 with (Z.ones 1). rewrite Z.land_ones by lia.
    change (2 ^ 1) with 2. rewrite <- Z.bit0_mod, Z.lor_spec, Hb0.
    cbn [orb]. destruct (thumb s); reflexivity.
Qed.

(** X25.  Register names.  Each of the sixteen primary names and each of the
    sixteen alternative names resolves to its position in its table, so
    [sp], [lr] and [pc] are r13, r14 and r15; and no name resolves to an
    index outside the sixteen registers. *)
Theorem register_names_resolve (k : nat) :
  (k < 16)%nat ->
  reg_number (nth k reg_names EmptyString) = inr k
  /\ reg_number (nth k alt_names EmptyString) = inr k
  /\ forall name n, reg_number name = inr n -> (n < 16)%nat.
Proof.
  intros Hk. split; [|split].
  - do 16 (destruct k as [|k]; [vm_compute; reflexivity|]). lia.
  - do 16 (destruct k as [|k]; [vm_compute; reflexivity|]). lia.
  - intros name n. unfold reg_number.
    destruct (reg_numbers !! name) as [x|] eqn:E; [|discriminate].
    intros [= <-].
    assert (H : map_Forall (fun _ v => (v < 16)%nat) reg_numbers).
    { apply map_Forall_to_list. vm_compute. repeat constructor. }
    exact (H name x E).
Qed.

End Arithmetic.

Lemma cmp_decides_conditions_witness :
  let s := SimARM.set_reg 1 0xffffffff (SimARM.set_reg 0 1
             (SimARM.reset (SimARMMemory.init quiet_device) 0)) in
  0 <= SimARM.reg 0 s < 2 ^ 32 /\ 0 <= SimARM.reg 1 s < 2 ^ 32
  /\ compare_outcome "lo" (SimARM.reg 0 s) (SimARM.reg 1 s) = Some true
  /\ compare_outcome "gt" (SimARM.reg 0 s) (SimARM.reg 1 s) = Some true
  /\ exists s' g,
       run_op SimARM.op_cmp (instr_of 0 4 "cmp" "r0, r1" None) s = Ok tt s'
       /\ assoc "gt" (SimARM.condition_table SimARM.op_b) = Some g
       /\ exists th, g (instr_of 4 8 "bgt" "0x2000" None) = inr th
                     /\ SimARM._branch (final (th s')) = Some 0x2000.
Proof.
  intros s.
  assert (H0 : 0 <= SimARM.reg 0 s < 2 ^ 32) by (vm_compute; split; [discriminate|reflexivity]).
  assert (H1 : 0 <= SimARM.reg 1 s < 2 ^ 32) by (vm_compute; split; [discriminate|reflexivity]).
  assert (Hc : compare_outcome "gt" (SimARM.reg 0 s) (SimARM.reg 1 s) = Some true)
    by (vm_compute; reflexivity).
  split; [exact H0|]. split; [exact H1|]. split; [vm_compute; reflexivity|].
  split; [exact Hc|].
  destruct (cmp_decides_conditions s SimARM.op_b "gt" true 0 4 None H0 H1 Hc)
    as (s' & g & Hrun & _ & Hg & Hth).
  exists s', g. split; [exact Hrun|]. split; [exact Hg|].
  destruct (Hth (instr_of 4 8 "bgt" "0x2000" None)
                (modify (SimARM.set__branch (Some 0x2000))) eq_refl) as (th & Eth & Hs').
  exists th. split; [exact Eth|]. rewrite Hs'. reflexivity.
Defined.

Lemma adds_sets_arithmetic_flags_witness :
  let s := SimARM.set_reg 2 0x80000000 (SimARM.set_reg 1 0x80000000
             (SimARM.reset (SimARMMemory.init quiet_device) 0)) in
  length (SimARM.regs s) = 16%nat
  /\ 0 <= SimARM.reg 1 s < 2 ^ 32 /\ 0 <= SimARM.reg 2 s < 2 ^ 32
  /\ exists s',
       run_op SimARM.op_adds (instr_of 0 4 "adds" "r0, r1, r2" None) s = Ok tt s'
       /\ SimARM.reg 0 s' = 0 /\ SimARM.cpsrC s' = true /\ SimARM.cpsrZ s' = true
       /\ SimARM.cpsrN s' = false /\ SimARM.cpsrV s' = true.
Proof.
  intros s.
  assert (Hl : length (SimARM.regs s) = 16%nat) by reflexivity.
  assert (H1 : 0 <= SimARM.reg 1 s < 2 ^ 32) by (vm_compute; split; [discriminate|reflexivity]).
  assert (H2 : 0 <= SimARM.reg 2 s < 2 ^ 32) by (vm_compute; split; [discriminate|reflexivity]).
  split; [exact Hl|]. split; [exact H1|]. split; [exact H2|].
  destruct (adds_sets_arithmetic_flags s 0 4 None Hl H1 H2)
    as (s' & Hrun & Hr & HC & HZ & HN & HV).
  exists s'. split; [exact Hrun|].
  rewrite Hr, HC, HZ, HN, HV. vm_compute. repeat split.
Defined.

Lemma umull_splits_product_witness :
  let s := SimARM.set_reg 3 0xffffffff (SimARM.set_reg 2 0xffffffff
             (SimARM.reset (SimARMMemory.init quiet_device) 0)) in
  length (SimARM.regs s) = 16%nat
  /\ 0 <= SimARM.reg 2 s < 2 ^ 32 /\ 0 <= SimARM.reg 3 s < 2 ^ 32
  /\ exists s',
       run_op SimARM.op_umull (instr_of 0 4 "umull" "r0, r1, r2, r3" None) s = Ok tt s'
       /\ SimARM.reg 0 s' + 2 ^ 32 * SimARM.reg 1 s' = 0xffffffff * 0xffffffff.
Proof.
  intros s.
  assert (Hl : length (SimARM.regs s) = 16%nat) by reflexivity.
  assert (H2 : 0 <= SimARM.reg 2 s < 2 ^ 32) by (vm_compute; split; [discriminate|reflexivity]).
  assert (H3 : 0 <= SimARM.reg 3 s < 2 ^ 32) by (vm_compute; split; [discriminate|reflexivity]).
  split; [exact Hl|]. split; [exact H2|]. split; [exact H3|].
  destruct (umull_splits_product s 0 4 None Hl H2 H3) as (s' & Hrun & Hp & _).
  exists s'. split; [exact Hrun | exact Hp].
Defined.

Lemma clz_counts_trailing_zeros_witness :
  let s := SimARM.set_reg 1 0x80000000 (SimARM.reset (SimARMMemory.init quiet_device) 0) in
  length (SimARM.regs s) = 16%nat
  /\ exists s',
       run_op SimARM.op_clz (instr_of 0 4 "clz" "r0, r1" None) s = Ok tt s'
       /\ SimARM.reg 0 s' = 31.
Proof.
  intros s.
  assert (Hl : length (SimARM.regs s) = 16%nat) by reflexivity.
  split; [exact Hl|].
  destruct (clz_counts_trailing_zeros s 0 4 None Hl) as (s' & Hrun & _).
  exists s'. split; [exact Hrun|].
  assert (E : s' = final (run_op SimARM.op_clz (instr_of 0 4 "clz" "r0, r1" None) s))
    by (rewrite Hrun; reflexivity).
  rewrite E. vm_compute. reflexivity.
Defined.

Lemma bl_then_bx_lr_returns_witness :
  let s := SimARM.reset (SimARMMemory.init quiet_device) 0x1001 in
  let i := instr_of 0x1000 0x1004 "bl" "0x2000" None in
  let j := instr_of 0x2000 0x2002 "bx" "lr" None in
  length (SimARM.regs s) = 16%nat /\ Z.even (next_address i) = true
  /\ exists f g s1 s2,
       SimARM.op_bl i = inr f /\ SimARM.op_bx j = inr g
       /\ f s = Ok tt s1 /\ g s1 = Ok tt s2
       /\ SimARM._branch s2 = Some 0x1004 /\ SimARM.thumb s2 = true.
Proof.
  intros s i j.
  assert (Hl : length (SimARM.regs s) = 16%nat) by reflexivity.
  split; [exact Hl|]. split; [reflexivity|].
  destruct (SimARM.op_bl i) as [e|f] eqn:Hbl; [vm_compute in Hbl; discriminate|].
  destruct (bl_then_bx_lr_returns i j f s Hl Hbl eq_refl eq_refl)
    as (g & s1 & s2 & Hg & Hf & Hgs & Hb & Ht).
  exists f, g, s1, s2. repeat split; assumption.
Defined.

Lemma register_names_resolve_witness :
  (13 < 16)%nat
  /\ SimARM.reg_number "sp" = inr 13%nat /\ SimARM.reg_number "r13" = inr 13%nat
  /\ (11 < 16)%nat.
Proof.
  destruct (register_names_resolve 13 ltac:(lia)) as (Hp & Ha & Hn).
  split; [lia|]. split; [exact Hp|]. split; [exact Ha|].
  apply (Hn "fp"%string). reflexivity.
Defined.

Lemma subs_sets_arithmetic_flags_witness :
  let s := SimARM.set_reg 2 1 (SimARM.set_reg 1 0x80000000
             (SimARM.reset (SimARMMemory.init quiet_device) 0)) in
  length (SimARM.regs s) = 16%nat
  /\ 0 <= SimARM.reg 1 s < 2 ^ 32 /\ 0 <= SimARM.reg 2 s < 2 ^ 32
  /\ exists s',
       run_op SimARM.op_subs (instr_of 0 4 "subs" "r0, r1, r2" None) s = Ok tt s'
       /\ SimARM.reg 0 s' = 0x7fffffff /\ SimARM.cpsrC s' = true /\ SimARM.cpsrZ s' = false
       /\ SimARM.cpsrN s' = false /\ SimARM.cpsrV s' = true.
Proof.
  intros s.
  assert (Hl : length (SimARM.regs s) = 16%nat) by reflexivity.
  assert (H1 : 0 <= SimARM.reg 1 s < 2 ^ 32) by (vm_compute; split; [discriminate|reflexivity]).
  assert (H2 : 0 <= SimARM.reg 2 s < 2 ^ 32) by (vm_compute; split; [discriminate|reflexivity]).
  split; [exact Hl|]. split; [exact H1|]. split; [exact H2|].
  destruct (subs_sets_arithmetic_flags s 0 4 None Hl H1 H2)
    as (s' & Hrun & Hr & HC & HZ & HN & HV).
  exists s'. split; [exact Hrun|].
  rewrite Hr, HC, HZ, HN, HV. vm_compute. repeat split.
Defined.


(** ** The step loop and the stack *)

Section StepLoop.
Import SimARM.
Variable disassembly : list byte -> Z -> bool -> exn + list Line.
Variable getattr : string -> option Factory.
Variable run_hook : nat -> Thunk.

(** Without a breakpoint an iteration never ends the loop early. *)
Lemma step_iteration_runs_on (rid : nat) (s s' : t) (stop : bool) :
  step_iteration disassembly getattr run_hook rid None s = Ok stop s' -> stop = false.
Proof.
  unfold step_iteration. unfold bind at 1.
  destruct (step_fetch disassembly rid s) as [[hook instr] s0|e s0]; [|discriminate].
  unfold bind at 1, try_reraise, step_try.
  unfold bind at 1. destruct (of_sum (compile getattr instr) s0) as [th s1|e s1];
    [|discriminate].
  unfold bind at 1. destruct (th s1) as [[] s2|e s2]; [|discriminate].
  unfold bind at 1, modify. unfold bind at 1, gets. unfold ret at 1.
  unfold bind. destruct (step_after run_hook rid hook instr _) as [[] s3|e s3];
    unfold ret; [|discriminate].
  intros [= <- _]. reflexivity.
Qed.

(** For one binding of the local variable [regs] the loop splits. *)
Lemma step_loop_app (rid n k : nat) (s : t) :
  step_loop disassembly getattr run_hook rid (n + k) None s
  = (step_loop disassembly getattr run_hook rid n None ;;
     step_loop disassembly getattr run_hook rid k None) s.
Proof.
  revert s. induction n as [|n IH]; intros s; [reflexivity|].
  cbn [Nat.add step_loop]. unfold bind in *.
  destruct (step_iteration disassembly getattr run_hook rid None s) as [stop s'|e s'] eqn:E;
    [|reflexivity].
  rewrite (step_iteration_runs_on rid s s' stop E). apply IH.
Qed.

Lemma step_fetch_keeps_binding (rid : nat) (s : t) :
  regs_id (final (step_fetch disassembly rid s)) = regs_id s.
Proof.
  unfold step_fetch, bind, modify, gets, mem, zoom, ret.
  destruct (SimARMMemory.fetch _ _ _ _) as [i m|e m]; cbn [final]; [|reflexivity].
  match goal with |- context [if ?c then _ else _] => destruct c end;
    match goal with |- regs_id (set_local_reg ?r ?n ?v ?x) = _ =>
      destruct (set_local_reg_frame r n v x) as (_ & E & _); rewrite E end;
    reflexivity.
Qed.

(** Neither the operations of the table nor the hooks assign [self.regs]
    (as [reset] and [copy_registers_from] do). *)
Hypothesis operations_keep_binding :
  forall (instr : Instr) (th : Thunk) (s : t),
    compile getattr instr = inr th -> regs_id (final (th s)) = regs_id s.
Hypothesis hooks_keep_binding :
  forall (h : nat) (s : t), regs_id (final (run_hook h s)) = regs_id s.

Lemma step_try_keeps_binding (rid : nat) (instr : Instr) (bp : option Z) (s : t) :
  regs_id (final (step_try getattr rid instr bp s)) = regs_id s.
Proof.
  unfold step_try. unfold bind at 1.
  destruct (compile getattr instr) as [e|th] eqn:Hc; [reflexivity|].
  unfold of_sum, ret at 1. unfold bind at 1.
  assert (Hth := operations_keep_binding instr th s Hc).
  destruct (th s) as [[] s1|e s1]; cbn [final] in *; [|exact Hth].
  unfold bind, modify, gets, ret. cbn [final].
  destruct (set_local_reg_frame rid 15 (branch_or_next (_branch s1) instr) s1)
    as (_ & E & _).
  rewrite E. exact Hth.
Qed.

Lemma step_after_keeps_binding (rid : nat) (hook : option nat) (instr : Instr) (s : t) :
  regs_id (final (step_after run_hook rid hook instr s)) = regs_id s.
Proof.
  unfold step_after. unfold bind at 1.
  assert (Hhook : forall x, regs_id (final (match hook with
                                           | Some h => run_hook h
                                           | None => ret tt
                                           end x)) = regs_id x).
  { intros x. destruct hook as [h|]; [apply hooks_keep_binding | reflexivity]. }
  destruct (truthy_name (hle instr)).
  - unfold bind, gets, mem, zoom, modify.
    destruct (SimARMMemory.hle_invoke _ _ _) as [v m|e m]; cbn [final]; [|reflexivity].
    rewrite Hhook.
    destruct (set_local_reg_frame rid 0 v (set_memory m s)) as (_ & E & _).
    rewrite E. reflexivity.
  - unfold ret at 1. apply Hhook.
Qed.

Lemma step_iteration_keeps_binding (rid : nat) (bp : option Z) (s : t) :
  regs_id (final (step_iteration disassembly getattr run_hook rid bp s)) = regs_id s.
Proof.
  unfold step_iteration. unfold bind at 1.
  assert (Hf := step_fetch_keeps_binding rid s).
  destruct (step_fetch disassembly rid s) as [[hook instr] s0|e s0]; cbn [final] in *;
    [|exact Hf].
  unfold bind at 1, try_reraise.
  assert (Ht := step_try_keeps_binding rid instr bp s0).
  destruct (step_try getattr rid instr bp s0) as [stop s1|e s1]; cbn [final] in *.
  - destruct stop; [unfold ret; cbn [final]; congruence|].
    unfold bind, ret.
    assert (Ha := step_after_keeps_binding rid hook instr s1).
    destruct (step_after run_hook rid hook instr s1) as [[] s2|e s2]; cbn [final] in *;
      congruence.
  - destruct (set_local_reg_frame rid 15 (address instr) s1) as (_ & E & _).
    rewrite E. congruence.
Qed.

Lemma step_loop_keeps_binding (rid n : nat) (bp : option Z) (s : t) :
  regs_id (final (step_loop disassembly getattr run_hook rid n bp s)) = regs_id s.
Proof.
  revert s. induction n as [|n IH]; intros s; [reflexivity|].
  cbn [step_loop]. unfold bind.
  assert (Hi := step_iteration_keeps_binding rid bp s).
  destruct (step_iteration disassembly getattr run_hook rid bp s) as [stop s1|e s1];
    cbn [final] in *; [|exact Hi].
  destruct stop; [exact Hi|]. rewrite IH. exact Hi.
Qed.

(** X26.  Steps add up, as long as [self.regs] stays the list that
    [step] bound on entry.  Without a breakpoint, and with an operation
    table and hooks that never assign [self.regs] (as [reset] and
    [copy_registers_from] do), [step(a + b)] for [a, b >= 0] is [step(a)]
    followed by [step(b)]: the same final simulator and the same
    exception, if one is raised, for any toolchain. *)
Theorem step_splits (a b : Z) (s : t) :
  0 <= a -> 0 <= b ->
  step disassembly getattr run_hook (a + b) None s
  = (step disassembly getattr run_hook a None ;;
     step disassembly getattr run_hook b None) s.
Proof.
  intros Ha Hb.
  assert (E : forall x s0, step disassembly getattr run_hook x None s0
                           = step_loop disassembly getattr run_hook (regs_id s0)
                               (Z.to_nat x) None s0) by reflexivity.
  rewrite E. rewrite Z2Nat.inj_add by lia. rewrite step_loop_app.
  unfold bind. rewrite (E a s).
  assert (Hk := step_loop_keeps_binding (regs_id s) (Z.to_nat a) None s).
  destruct (step_loop disassembly getattr run_hook (regs_id s) (Z.to_nat a) None s)
    as [[] s1|e s1]; cbn [final] in Hk; [|reflexivity].
  rewrite E, Hk. reflexivity.
Qed.

End StepLoop.

Lemma nop_table_keeps_binding (instr : Instr) (th : SimARM.Thunk) (s : SimARM.t) :
  SimARM.compile nop_table instr = inr th ->
  SimARM.regs_id (final (th s)) = SimARM.regs_id s.
Proof.
  unfold SimARM.compile, nop_table.
  destruct (String.eqb _ _); [|discriminate].
  intros [= <-]. reflexivity.
Qed.

Lemma sample_hooks_keep_binding (h : nat) (s : SimARM.t) :
  SimARM.regs_id (final (sample_hooks h s)) = SimARM.regs_id s.
Proof. unfold sample_hooks. destruct (h =? 7)%nat; reflexivity. Qed.

Lemma step_splits_witness :
  0 <= 1 /\ 0 <= 1
  /\ SimARM.step no_disassembly nop_table sample_hooks (1 + 1) None
       (tagged_state quiet_device 7)
     = (SimARM.step no_disassembly nop_table sample_hooks 1 None ;;
        SimARM.step no_disassembly nop_table sample_hooks 1 None)
         (tagged_state quiet_device 7).
Proof.
  split; [lia|]. split; [lia|].
  apply (step_splits no_disassembly nop_table sample_hooks
           nop_table_keeps_binding sample_hooks_keep_binding 1 1
           (tagged_state quiet_device 7)); lia.
Defined.

(** A hook that calls [reset] detaches the list that a running [step]
    works on: the second iteration of [step(2)] goes on from the old pc
    and leaves the new pc alone, while a second call of [step] starts
    from the reset vector. *)
Example rebinding_hook_detaches_running_step :
  let two := SimARM.step no_disassembly SimARM.getattr_op resetting_hooks 2 None
               resettable_state in
  let one_one := (SimARM.step no_disassembly SimARM.getattr_op resetting_hooks 1 None ;;
                  SimARM.step no_disassembly SimARM.getattr_op resetting_hooks 1 None)
                   resettable_state in
  raised two = None /\ raised one_one = None
  /\ SimARM.reg 15 (final two) = 0x2000
  /\ SimARM.local_reg 0 15 (final two) = 0x1008
  /\ SimARM.reg 15 (final one_one) = 0x2004.
Proof. vm_compute. repeat split. Qed.


Section Stack.
Import SimARM.

Lemma push_r0_r1_parse (ad n : Z) (h : option string) :
  op_push (instr_of ad n "push" "{r0, r1}" h)
  = inr (sp0 <- gets (reg 13) ;;
         modify (set_reg 13 (sp0 - 4 * Z.of_nat 2)) ;;
         push_each [0%nat; 1%nat] (sp0 - 4 * Z.of_nat 2) 0).
Proof. reflexivity. Qed.

Lemma stmdb_sp_r0_r1_parse (ad n : Z) (h : option string) :
  ldstm_op "st" "db" (instr_of ad n "stmdb" "sp!, {r0, r1}" h)
  = inr (addr <- gets (reg 13) ;;
         final_addr <- stm_each [0%nat; 1%nat] (-4) 0 addr ;;
         modify (set_reg 13 final_addr)).
Proof. reflexivity. Qed.

Lemma reg_set_memory (k : nat) (m : SimARMMemory.t) (s : t) :
  reg k (set_memory m s) = reg k s.
Proof. reflexivity. Qed.

(** Two word stores and a flush, issued by the processor. *)
Lemma two_stores_then_flush (s : t) (a0 a1 v0 v1 : Z) :
  quiet (memory s) ->
  SimARMMemory.rle (memory s) = RunEncoder.init ->
  Forall (remote_write (memory s)) [(a0, v0, 4); (a1, v1, 4)] ->
  exists m0 m1 m' new,
    SimARMMemory.store a0 v0 (memory s) = Ok tt m0
    /\ SimARMMemory.store a1 v1 m0 = Ok tt m1
    /\ SimARMMemory.flush m1 = Ok tt m'
    /\ SimARMMemory.transport_log m' = SimARMMemory.transport_log (memory s) ++ new
    /\ unrolled new = [poke a0 v0; poke a1 v1].
Proof.
  intros Hq Hr Hw.
  destruct (stores_then_flush (memory s) _ Hq Hr Hw) as (m1 & m' & new & E1 & E2 & Hl & Hu & _).
  cbn [do_stores] in E1. unfold bind in E1.
  change (do_store (a0, v0, 4)) with (SimARMMemory.store a0 v0) in E1.
  change (do_store (a1, v1, 4)) with (SimARMMemory.store a1 v1) in E1.
  destruct (SimARMMemory.store a0 v0 (memory s)) as [[] m0|e m0]; [|discriminate].
  destruct (SimARMMemory.store a1 v1 m0) as [[] m1'|e m1'] eqn:E1'; [|discriminate].
  unfold ret in E1. injection E1 as <-.
  exists m0, m1', m', new. repeat split; try assumption.
Qed.

(** X27.  [push] and [stmdb sp!] lay the registers out in opposite orders.
    On a stack that is remote memory, with nothing pending and a transport
    that does not fail, both [push {r0, r1}] and [stmdb sp!, {r0, r1}]
    lower sp by 8 and write the two registers below the old sp; [push]
    puts the first register of the list at the lower address, the store
    multiple puts it at the higher one.  (The device calls are those seen
    once the writes are flushed.) *)
Theorem push_and_stmdb_store_in_opposite_orders (s : t) (ad n : Z) (h : option string) :
  length (regs s) = 16%nat ->
  quiet (memory s) ->
  SimARMMemory.rle (memory s) = RunEncoder.init ->
  Forall (remote_write (memory s)) [(reg 13 s - 8, 0, 4); (reg 13 s - 4, 0, 4)] ->
  exists s1 s2 new1 new2,
    (run_op op_push (instr_of ad n "push" "{r0, r1}" h) ;; mem SimARMMemory.flush) s
    = Ok tt s1
    /\ (run_op (ldstm_op "st" "db") (instr_of ad n "stmdb" "sp!, {r0, r1}" h) ;;
        mem SimARMMemory.flush) s = Ok tt s2
    /\ reg 13 s1 = reg 13 s - 8 /\ reg 13 s2 = reg 13 s - 8
    /\ SimARMMemory.transport_log (memory s1)
       = SimARMMemory.transport_log (memory s) ++ new1
    /\ unrolled new1 = [poke (reg 13 s - 8) (reg 0 s); poke (reg 13 s - 4) (reg 1 s)]
    /\ SimARMMemory.transport_log (memory s2)
       = SimARMMemory.transport_log (memory s) ++ new2
    /\ unrolled new2 = [poke (reg 13 s - 4) (reg 0 s); poke (reg 13 s - 8) (reg 1 s)].
Proof.
  intros Hl Hq Hr Hw.
  apply Forall_cons in Hw as [Hlo Hw]. apply Forall_cons in Hw as [Hhi _].
  assert (Hpush : Forall (remote_write (memory s))
                    [(reg 13 s - 8, reg 0 s, 4); (reg 13 s - 4, reg 1 s, 4)])
    by (constructor; [exact Hlo | constructor; [exact Hhi | constructor]]).
  assert (Hstm : Forall (remote_write (memory s))
                   [(reg 13 s - 4, reg 0 s, 4); (reg 13 s - 8, reg 1 s, 4)])
    by (constructor; [exact Hhi | constructor; [exact Hlo | constructor]]).
  destruct (two_stores_then_flush s _ _ _ _ Hq Hr Hpush)
    as (p0 & p1 & p' & new1 & Ep0 & Ep1 & Epf & Hpl & Hpu).
  destruct (two_stores_then_flush s _ _ _ _ Hq Hr Hstm)
    as (q0 & q1 & q' & new2 & Eq0 & Eq1 & Eqf & Hql & Hqu).
  eexists _, _, new1, new2.
  split; [|split].
  - unfold run_op. rewrite push_r0_r1_parse. unfold of_sum, bind, gets, ret, modify.
    cbn [push_each]. unfold bind, gets, ret, mem, zoom.
    rewrite !reg_set_reg_ne by lia.
    change (memory (set_reg 13 ?v s)) with (memory s).
    replace (reg 13 s - 4 * Z.of_nat 2 + 4 * 0) with (reg 13 s - 8) by lia.
    replace (reg 13 s - 4 * Z.of_nat 2 + 4 * (0 + 1)) with (reg 13 s - 4) by lia.
    rewrite Ep0. cbn [memory set_memory].
    change (reg 1 (set_memory p0 ?x)) with (reg 1 x).
    rewrite reg_set_reg_ne by lia.
    rewrite Ep1. cbn [memory set_memory]. rewrite Epf. reflexivity.
  - unfold run_op. rewrite stmdb_sp_r0_r1_parse. unfold of_sum, bind, gets, ret, modify.
    cbn [stm_each]. unfold bind, gets, ret, mem, zoom.
    replace (reg 13 s + -4) with (reg 13 s - 4) by lia.
    replace (reg 13 s - 4 + 0 + -4) with (reg 13 s - 8) by lia.
    rewrite Eq0. cbn [memory set_memory].
    change (reg 1 (set_memory q0 s)) with (reg 1 s).
    rewrite Eq1. cbn [memory set_memory set_reg set_regs]. rewrite Eqf. reflexivity.
  - cbn [memory set_memory]. rewrite !reg_set_memory.
    split; [rewrite reg_set_reg_eq by (rewrite Hl; lia); lia|].
    split; [rewrite reg_set_reg_eq by (cbn [regs set_memory]; rewrite Hl; lia); lia|].
    split; [exact Hpl|]. split; [exact Hpu|]. split; [exact Hql | exact Hqu].
Qed.

End Stack.

Lemma push_and_stmdb_store_in_opposite_orders_witness :
  let s := SimARM.set_reg 1 0x22 (SimARM.set_reg 0 0x11 (SimARM.set_reg 13 0x2000100
             (SimARM.reset (SimARMMemory.init quiet_device) 0))) in
  length (SimARM.regs s) = 16%nat
  /\ quiet (SimARM.memory s)
  /\ SimARMMemory.rle (SimARM.memory s) = RunEncoder.init
  /\ Forall (remote_write (SimARM.memory s))
       [(SimARM.reg 13 s - 8, 0, 4); (SimARM.reg 13 s - 4, 0, 4)]
  /\ exists s1 s2,
       (run_op SimARM.op_push (instr_of 0 4 "push" "{r0, r1}" None) ;;
        SimARM.mem SimARMMemory.flush) s = Ok tt s1
       /\ (run_op (SimARM.ldstm_op "st" "db") (instr_of 0 4 "stmdb" "sp!, {r0, r1}" None) ;;
           SimARM.mem SimARMMemory.flush) s = Ok tt s2
       /\ (SimARMMemory.transport_log (SimARM.memory s1)).*1
          = [poke 0x20000f8 0x11; poke 0x20000fc 0x22]
       /\ (SimARMMemory.transport_log (SimARM.memory s2)).*1
          = [poke 0x20000fc 0x11; poke 0x20000f8 0x22].
Proof.
  intros s.
  assert (Hl : length (SimARM.regs s) = 16%nat) by reflexivity.
  assert (Hq : quiet (SimARM.memory s)) by (intros x c; reflexivity).
  assert (Hr : SimARMMemory.rle (SimARM.memory s) = RunEncoder.init) by reflexivity.
  assert (Hw : Forall (remote_write (SimARM.memory s))
                 [(SimARM.reg 13 s - 8, 0, 4); (SimARM.reg 13 s - 4, 0, 4)]).
  { repeat constructor; cbn; try lia; tauto. }
  split; [exact Hl|]. split; [exact Hq|]. split; [exact Hr|]. split; [exact Hw|].
  destruct (push_and_stmdb_store_in_opposite_orders s 0 4 None Hl Hq Hr Hw)
    as (s1 & s2 & new1 & new2 & E1 & E2 & _).
  exists s1, s2. split; [exact E1|]. split; [exact E2|].
  assert (F1 : s1 = final ((run_op SimARM.op_push (instr_of 0 4 "push" "{r0, r1}" None) ;;
                            SimARM.mem SimARMMemory.flush) s)) by (rewrite E1; reflexivity).
  assert (F2 : s2 = final ((run_op (SimARM.ldstm_op "st" "db")
                              (instr_of 0 4 "stmdb" "sp!, {r0, r1}" None) ;;
                            SimARM.mem SimARMMemory.flush) s)) by (rewrite E2; reflexivity).
  rewrite F1, F2. split; vm_compute; reflexivity.
Defined.


Section StackRoundTrip.
Import SimARM.

Lemma present_ext (f f' : BytesIO.t) (a : Z) (n : nat) :
  BytesIO.cell f' = BytesIO.cell f -> BytesIO.len f' = BytesIO.len f ->
  present f' a n = present f a n.
Proof.
  intros Hc Hl. unfold present, BytesIO.byte_at. rewrite Hc, Hl. reflexivity.
Qed.

(** Reading back below a later write. *)
Lemma read_back_below (c : gmap Z byte) (a : Z) (bs0 bs1 : list byte) :
  (fun j => default x00
              (BytesIO.put (BytesIO.put c a bs0) (a + Z.of_nat (length bs0)) bs1 !! j))
    <$> seqZ a (Z.of_nat (length bs0)) = bs0.
Proof.
  etransitivity; [|apply (fmap_put_seqZ c a bs0)].
  apply list_fmap_ext. intros i j Hj.
  apply lookup_seqZ in Hj as [-> Hi].
  rewrite (put_lookup bs1).
  destruct (Z.leb_spec (a + Z.of_nat (length bs0)) (a + Z.of_nat i)); [lia|].
  reflexivity.
Qed.

Lemma length_regs_set_reg (k : nat) (v : Z) (s : t) :
  length (regs (set_reg k v s)) = length (regs s).
Proof. unfold set_reg. cbn [regs set_regs]. apply length_insert. Qed.

Lemma pop_r0_r1_parse (ad n : Z) (h : option string) :
  op_pop (instr_of ad n "pop" "{r0, r1}" h)
  = inr (sp <- gets (reg 13) ;;
         pop_each [fun r => modify (set_reg 0 (Z.land r 0xffffffff));
                   fun r => modify (set_reg 1 (Z.land r 0xffffffff))] sp 0 ;;
         modify (set_reg 13 (sp + 4 * Z.of_nat 2))).
Proof. reflexivity. Qed.

Lemma store_word_shadow (m : SimARMMemory.t) (a v : Z) :
  0 <= a -> 0 <= v < 2 ^ 32 ->
  present (SimARMMemory.local_addresses m) a 4 = true ->
  SimARMMemory.store a v m
  = Ok tt (SimARMMemory.set_local_data
             {| BytesIO.len := Z.max (BytesIO.len (SimARMMemory.local_data m)) (a + 4);
                BytesIO.cell := BytesIO.put (BytesIO.cell (SimARMMemory.local_data m)) a
                                  (le_bytes 4 v);
                BytesIO.pos := a + 4 |}
             (SimARMMemory.set_local_addresses
                (seeked a 4 (SimARMMemory.local_addresses m)) m)).
Proof.
  intros Ha Hv Hp.
  assert (E : SimARMMemory.store a v m = store_shape 4 (inr (le_bytes 4 v)) 4 a v m).
  { unfold SimARMMemory.store, store_shape, struct_pack.
    destruct (Z.leb_spec 0 v); [|lia].
    destruct (Z.ltb_spec v (2 ^ (8 * Z.of_nat 4))); [reflexivity|].
    change (2 ^ (8 * Z.of_nat 4)) with (2 ^ 32) in *. lia. }
  rewrite E. rewrite store_shape_shadow by (try reflexivity; try exact Hp; lia).
  reflexivity.
Qed.

Lemma load_word_shadow (m : SimARMMemory.t) (a : Z) (bs : list byte) :
  0x200000 <= a ->
  present (SimARMMemory.local_addresses m) a 4 = true ->
  a + 4 <= BytesIO.len (SimARMMemory.local_data m) ->
  BytesIO.byte_at (SimARMMemory.local_data m) <$> seqZ a 4 = bs ->
  length bs = 4%nat ->
  exists m',
    SimARMMemory.load a m = Ok (le_value bs) m'
    /\ untouched m m'
    /\ BytesIO.cell (SimARMMemory.local_data m') = BytesIO.cell (SimARMMemory.local_data m)
    /\ BytesIO.len (SimARMMemory.local_data m') = BytesIO.len (SimARMMemory.local_data m)
    /\ (forall a' n', present (SimARMMemory.local_addresses m') a' n'
                      = present (SimARMMemory.local_addresses m) a' n').
Proof.
  intros Ha Hp Hlen Hbs Hl.
  destruct (load_shape_shadow 4 (struct_unpack 4)
              (SimARMMemory.flush ;; d <- SimARMMemory.device_int (peek a) ;;
               SimARMMemory.log_load a d ;; SimARMMemory.check_address a ;; ret d) a m Ha Hp)
    as (m' & El & Hu & Hdc & Hdl & Hac & Hal).
  exists m'. split; [|split; [exact Hu|split; [exact Hdc|split; [exact Hdl|]]]].
  - eapply eq_trans; [exact El|].
    replace (Z.max 0 (Z.min (Z.of_nat 4) (BytesIO.len (SimARMMemory.local_data m) - a)))
      with 4 by lia.
    rewrite Hbs. unfold struct_unpack. rewrite Hl. reflexivity.
  - intros a' n'. apply present_ext; assumption.
Qed.

(** X28.  [push] then [pop] gives the registers back.  With the two stack
    words in local RAM at or above 0x200000 and 32-bit values in r0 and
    r1, [push {r0, r1}] followed, after any change to r0 and r1, by
    [pop {r0, r1}] restores both registers and sp; the transport and the
    run encoder are not involved. *)
Theorem push_then_pop_restores (s : t) (x y : Z) (ad n : Z) (h : option string) :
  length (regs s) = 16%nat ->
  0 <= reg 0 s < 2 ^ 32 -> 0 <= reg 1 s < 2 ^ 32 ->
  0x200000 <= reg 13 s - 8 ->
  present (SimARMMemory.local_addresses (memory s)) (reg 13 s - 8) 4 = true ->
  present (SimARMMemory.local_addresses (memory s)) (reg 13 s - 4) 4 = true ->
  exists s',
    (run_op op_push (instr_of ad n "push" "{r0, r1}" h) ;;
     modify (set_reg 0 x) ;; modify (set_reg 1 y) ;;
     run_op op_pop (instr_of ad n "pop" "{r0, r1}" h)) s = Ok tt s'
    /\ reg 0 s' = reg 0 s /\ reg 1 s' = reg 1 s /\ reg 13 s' = reg 13 s
    /\ untouched (memory s) (memory s').
Proof.
  intros Hl H0 H1 Hsp Hp0 Hp1.
  set (sp := reg 13 s - 8) in *.
  set (m0 := memory s).
  assert (E1 := store_word_shadow m0 sp (reg 0 s) ltac:(lia) H0 Hp0).
  set (m1 := SimARMMemory.set_local_data _ _) in E1.
  assert (Hp1' : present (SimARMMemory.local_addresses m1) (sp + 4) 4 = true).
  { replace (sp + 4) with (reg 13 s - 4) by (subst sp; lia). exact Hp1. }
  assert (E2 := store_word_shadow m1 (sp + 4) (reg 1 s) ltac:(lia) H1 Hp1').
  set (m2 := SimARMMemory.set_local_data _ _) in E2.
  assert (Hlen2 : BytesIO.len (SimARMMemory.local_data m2)
                  = Z.max (Z.max (BytesIO.len (SimARMMemory.local_data m0)) (sp + 4))
                          (sp + 4 + 4)) by reflexivity.
  assert (Hcell2 : BytesIO.cell (SimARMMemory.local_data m2)
                   = BytesIO.put (BytesIO.put (BytesIO.cell (SimARMMemory.local_data m0)) sp
                                    (le_bytes 4 (reg 0 s)))
                       (sp + 4) (le_bytes 4 (reg 1 s))) by reflexivity.
  assert (Hpres2 : forall a' n', present (SimARMMemory.local_addresses m2) a' n'
                                 = present (SimARMMemory.local_addresses m0) a' n')
    by (intros; reflexivity).
  assert (Hb0 : BytesIO.byte_at (SimARMMemory.local_data m2) <$> seqZ sp 4
                = le_bytes 4 (reg 0 s)).
  { unfold BytesIO.byte_at. rewrite Hcell2.
    apply (read_back_below _ sp (le_bytes 4 (reg 0 s)) (le_bytes 4 (reg 1 s))). }
  assert (Hb1 : BytesIO.byte_at (SimARMMemory.local_data m2) <$> seqZ (sp + 4) 4
                = le_bytes 4 (reg 1 s)).
  { unfold BytesIO.byte_at. rewrite Hcell2.
    apply (fmap_put_seqZ _ (sp + 4) (le_bytes 4 (reg 1 s))). }
  destruct (load_word_shadow m2 sp (le_bytes 4 (reg 0 s)) ltac:(lia)
              ltac:(rewrite Hpres2; exact Hp0) ltac:(lia) Hb0 eq_refl)
    as (m3 & E3 & Hu3 & Hc3 & Hl3 & Hpres3).
  destruct (load_word_shadow m3 (sp + 4) (le_bytes 4 (reg 1 s)) ltac:(lia)
              ltac:(rewrite Hpres3, Hpres2;
                    replace (sp + 4) with (reg 13 s - 4) by (subst sp; lia); exact Hp1)
              ltac:(lia)
              ltac:(unfold BytesIO.byte_at in *; rewrite Hc3; exact Hb1) eq_refl)
    as (m4 & E4 & Hu4 & _).
  rewrite le_value_le_bytes in E3, E4.
  change (2 ^ (8 * Z.of_nat 4)) with (2 ^ 32) in E3, E4.
  rewrite Z.mod_small in E3, E4 by lia.
  unfold bind at 1. unfold run_op at 1. rewrite push_r0_r1_parse.
  unfold of_sum, bind at 1 2 3 4, gets, ret, modify.
  cbn [push_each]. unfold bind at 1 2 3 4, gets, ret, mem, zoom.
  rewrite !reg_set_reg_ne by lia.
  change (memory (set_reg 13 ?v s)) with m0.
  replace (reg 13 s - 4 * Z.of_nat 2 + 4 * 0) with sp by (subst sp; lia).
  replace (reg 13 s - 4 * Z.of_nat 2 + 4 * (0 + 1)) with (sp + 4) by (subst sp; lia).
  replace (reg 13 s - 4 * Z.of_nat 2) with sp by (subst sp; lia).
  rewrite E1. cbn [memory set_memory]. rewrite reg_set_memory, reg_set_reg_ne by lia.
  rewrite E2.
  unfold bind at 1. unfold run_op. rewrite pop_r0_r1_parse.
  unfold of_sum. cbn [pop_each]. unfold bind, gets, ret, modify, mem, zoom.
  rewrite !reg_set_reg_ne by lia. rewrite !reg_set_memory.
  rewrite reg_set_reg_eq by (rewrite Hl; lia).
  cbn [memory set_memory set_reg set_regs].
  replace (sp + 4 * 0) with sp by lia. replace (sp + 4 * (0 + 1)) with (sp + 4) by lia.
  rewrite E3. cbn [memory set_memory set_reg set_regs]. rewrite E4.
  eexists. split; [reflexivity|].
  assert (Hside : forall k u, (k < 16)%nat ->
            length (regs u) = 16%nat -> (k < length (regs u))%nat) by (intros; lia).
  split; [|split; [|split]].
  - rewrite !reg_set_reg_ne, reg_set_memory by lia.
    rewrite reg_set_reg_eq
      by (repeat (rewrite ?length_regs_set_reg; cbn [regs set_memory]); rewrite Hl; lia).
    rewrite land_mask32, Z.mod_small by lia. reflexivity.
  - rewrite reg_set_reg_ne by lia.
    rewrite reg_set_reg_eq
      by (repeat (rewrite ?length_regs_set_reg; cbn [regs set_memory]); rewrite Hl; lia).
    rewrite land_mask32, Z.mod_small by lia. reflexivity.
  - rewrite reg_set_reg_eq
      by (repeat (rewrite ?length_regs_set_reg; cbn [regs set_memory]); rewrite Hl; lia).
    subst sp. lia.
  - assert (U1 : untouched m0 m2) by (split; reflexivity).
    change (untouched m0 m4).
    destruct U1 as [A1 B1], Hu3 as [A3 B3], Hu4 as [A4 B4].
    split; [rewrite A4, A3; exact A1 | rewrite B4, B3; exact B1].
Qed.

End StackRoundTrip.

Lemma push_then_pop_restores_witness :
  let m := final (SimARMMemory.local_ram 0x2000000 0x20000ff (SimARMMemory.init quiet_device)) in
  let s := SimARM.set_reg 1 0x22 (SimARM.set_reg 0 0x11
             (SimARM.set_reg 13 0x2000100 (SimARM.reset m 0))) in
  length (SimARM.regs s) = 16%nat
  /\ 0 <= SimARM.reg 0 s < 2 ^ 32 /\ 0 <= SimARM.reg 1 s < 2 ^ 32
  /\ 0x200000 <= SimARM.reg 13 s - 8
  /\ present (SimARMMemory.local_addresses (SimARM.memory s)) (SimARM.reg 13 s - 8) 4 = true
  /\ present (SimARMMemory.local_addresses (SimARM.memory s)) (SimARM.reg 13 s - 4) 4 = true
  /\ exists s',
       (run_op SimARM.op_push (instr_of 0 4 "push" "{r0, r1}" None) ;;
        modify (SimARM.set_reg 0 0) ;; modify (SimARM.set_reg 1 0) ;;
        run_op SimARM.op_pop (instr_of 4 8 "pop" "{r0, r1}" None)) s = Ok tt s'
       /\ SimARM.reg 0 s' = 0x11 /\ SimARM.reg 1 s' = 0x22 /\ SimARM.reg 13 s' = 0x2000100.
Proof.
  intros m s.
  assert (Hl : length (SimARM.regs s) = 16%nat) by reflexivity.
  assert (H0 : 0 <= SimARM.reg 0 s < 2 ^ 32) by (vm_compute; split; [discriminate|reflexivity]).
  assert (H1 : 0 <= SimARM.reg 1 s < 2 ^ 32) by (vm_compute; split; [discriminate|reflexivity]).
  assert (Hsp : 0x200000 <= SimARM.reg 13 s - 8) by (vm_compute; discriminate).
  assert (Hp0 : present (SimARMMemory.local_addresses (SimARM.memory s))
                  (SimARM.reg 13 s - 8) 4 = true) by (vm_compute; reflexivity).
  assert (Hp1 : present (SimARMMemory.local_addresses (SimARM.memory s))
                  (SimARM.reg 13 s - 4) 4 = true) by (vm_compute; reflexivity).
  split; [exact Hl|]. split; [exact H0|]. split; [exact H1|]. split; [exact Hsp|].
  split; [exact Hp0|]. split; [exact Hp1|].
  destruct (push_then_pop_restores s 0 0 0 4 None Hl H0 H1 Hsp Hp0 Hp1)
    as (s' & E & R0 & R1 & R13 & _).
  exists s'. split; [|split; [exact R0|split; [exact R1|exact R13]]].
  exact E.
Defined.


Section StoreMultiple.
Import SimARM.

(** Reading back above a later write. *)
Lemma read_back_above (c : gmap Z byte) (a : Z) (bs0 bs1 : list byte) :
  (fun j => default x00
              (BytesIO.put (BytesIO.put c (a + Z.of_nat (length bs1)) bs0) a bs1 !! j))
    <$> seqZ (a + Z.of_nat (length bs1)) (Z.of_nat (length bs0)) = bs0.
Proof.
  etransitivity; [|apply (fmap_put_seqZ c (a + Z.of_nat (length bs1)) bs0)].
  apply list_fmap_ext. intros i j Hj.
  apply lookup_seqZ in Hj as [-> Hi].
  rewrite (put_lookup bs1).
  destruct (Z.ltb_spec (a + Z.of_nat (length bs1) + Z.of_nat i) (a + Z.of_nat (length bs1)));
    [lia|].
  rewrite andb_false_r. reflexivity.
Qed.

Lemma stmfd_sp_r0_r1_parse (ad n : Z) (h : option string) :
  ldstm_op "st" "fd" (instr_of ad n "stmfd" "sp!, {r0, r1}" h)
  = inr (addr <- gets (reg 13) ;;
         final_addr <- stm_each [0%nat; 1%nat] (-4) 0 addr ;;
         modify (set_reg 13 final_addr)).
Proof. reflexivity. Qed.

Lemma ldmfd_sp_r0_r1_parse (ad n : Z) (h : option string) :
  ldstm_op "ld" "fd" (instr_of ad n "ldmfd" "sp!, {r0, r1}" h)
  = inr (addr <- gets (reg 13) ;;
         final_addr <- ldm_each [fun r => modify (set_reg 0 (Z.land r 0xffffffff));
                                 fun r => modify (set_reg 1 (Z.land r 0xffffffff))]
                         0 4 addr ;;
         modify (set_reg 13 final_addr)).
Proof. reflexivity. Qed.

(** X30.  [stmfd] and [ldmfd] are not inverse on a list.  The store multiple
    walks the register list in the order written, also when it moves
    downwards, and the load multiple walks it in the same order moving
    upwards.  So with the two stack words in local RAM at or above
    0x200000 and 32-bit values in r0 and r1, [stmfd sp!, {r0, r1}]
    followed by [ldmfd sp!, {r0, r1}] completes with sp back at its
    value and with r0 and r1 exchanged. *)
Theorem stmfd_then_ldmfd_exchanges_registers (s : t) (ad n : Z) (h : option string) :
  length (regs s) = 16%nat ->
  0 <= reg 0 s < 2 ^ 32 -> 0 <= reg 1 s < 2 ^ 32 ->
  0x200000 <= reg 13 s - 8 ->
  present (SimARMMemory.local_addresses (memory s)) (reg 13 s - 8) 4 = true ->
  present (SimARMMemory.local_addresses (memory s)) (reg 13 s - 4) 4 = true ->
  exists s',
    (run_op (ldstm_op "st" "fd") (instr_of ad n "stmfd" "sp!, {r0, r1}" h) ;;
     run_op (ldstm_op "ld" "fd") (instr_of ad n "ldmfd" "sp!, {r0, r1}" h)) s = Ok tt s'
    /\ reg 0 s' = reg 1 s /\ reg 1 s' = reg 0 s /\ reg 13 s' = reg 13 s
    /\ untouched (memory s) (memory s').
Proof.
  intros Hl H0 H1 Hsp Hp0 Hp1.
  set (sp := reg 13 s - 8) in *.
  set (m0 := memory s).
  assert (Hp1' : present (SimARMMemory.local_addresses m0) (sp + 4) 4 = true).
  { replace (sp + 4) with (reg 13 s - 4) by (subst sp; lia). exact Hp1. }
  assert (E1 := store_word_shadow m0 (sp + 4) (reg 0 s) ltac:(lia) H0 Hp1').
  set (m1 := SimARMMemory.set_local_data _ _) in E1.
  assert (E2 := store_word_shadow m1 sp (reg 1 s) ltac:(lia) H1 Hp0).
  set (m2 := SimARMMemory.set_local_data _ _) in E2.
  assert (Hlen2 : BytesIO.len (SimARMMemory.local_data m2)
                  = Z.max (Z.max (BytesIO.len (SimARMMemory.local_data m0)) (sp + 4 + 4))
                          (sp + 4)) by reflexivity.
  assert (Hcell2 : BytesIO.cell (SimARMMemory.local_data m2)
                   = BytesIO.put (BytesIO.put (BytesIO.cell (SimARMMemory.local_data m0))
                                    (sp + 4) (le_bytes 4 (reg 0 s)))
                       sp (le_bytes 4 (reg 1 s))) by reflexivity.
  assert (Hpres2 : forall a' n', present (SimARMMemory.local_addresses m2) a' n'
                                 = present (SimARMMemory.local_addresses m0) a' n')
    by (intros; reflexivity).
  assert (Hb0 : BytesIO.byte_at (SimARMMemory.local_data m2) <$> seqZ sp 4
                = le_bytes 4 (reg 1 s)).
  { unfold BytesIO.byte_at. rewrite Hcell2.
    apply (fmap_put_seqZ _ sp (le_bytes 4 (reg 1 s))). }
  assert (Hb1 : BytesIO.byte_at (SimARMMemory.local_data m2) <$> seqZ (sp + 4) 4
                = le_bytes 4 (reg 0 s)).
  { unfold BytesIO.byte_at. rewrite Hcell2.
    apply (read_back_above _ sp (le_bytes 4 (reg 0 s)) (le_bytes 4 (reg 1 s))). }
  destruct (load_word_shadow m2 sp (le_bytes 4 (reg 1 s)) ltac:(lia)
              ltac:(rewrite Hpres2; exact Hp0) ltac:(lia) Hb0 eq_refl)
    as (m3 & E3 & Hu3 & Hc3 & Hl3 & Hpres3).
  destruct (load_word_shadow m3 (sp + 4) (le_bytes 4 (reg 0 s)) ltac:(lia)
              ltac:(rewrite Hpres3, Hpres2; exact Hp1')
              ltac:(lia)
              ltac:(unfold BytesIO.byte_at in *; rewrite Hc3; exact Hb1) eq_refl)
    as (m4 & E4 & Hu4 & _).
  rewrite le_value_le_bytes in E3, E4.
  change (2 ^ (8 * Z.of_nat 4)) with (2 ^ 32) in E3, E4.
  rewrite Z.mod_small in E3, E4 by lia.
  unfold bind at 1. unfold run_op at 1. rewrite stmfd_sp_r0_r1_parse.
  unfold of_sum. cbn [stm_each]. unfold bind at 1 2 3 4 5 6 7, gets, ret, modify, mem, zoom.
  fold m0.
  replace (reg 13 s + -4) with (sp + 4) by (subst sp; lia).
  replace (sp + 4 + 0 + -4) with sp by lia.
  rewrite E1. cbn [memory set_memory]. rewrite reg_set_memory.
  rewrite E2.
  unfold run_op. rewrite ldmfd_sp_r0_r1_parse.
  unfold of_sum. cbn [ldm_each]. unfold bind, gets, ret, modify, mem, zoom.
  rewrite reg_set_reg_eq by (cbn [regs set_memory]; rewrite Hl; lia).
  cbn [memory set_memory set_reg set_regs].
  replace (sp + 0 + 0) with sp by lia.
  rewrite E3. cbn [memory set_memory set_reg set_regs].
  replace (sp + 4 + 0) with (sp + 4) by lia.
  rewrite E4.
  eexists. split; [reflexivity|].
  split; [|split; [|split]].
  - rewrite !reg_set_reg_ne, reg_set_memory by lia.
    rewrite reg_set_reg_eq
      by (repeat (rewrite ?length_regs_set_reg; cbn [regs set_memory]); rewrite Hl; lia).
    rewrite land_mask32, Z.mod_small by lia. reflexivity.
  - rewrite reg_set_reg_ne by lia.
    rewrite reg_set_reg_eq
      by (repeat (rewrite ?length_regs_set_reg; cbn [regs set_memory]); rewrite Hl; lia).
    rewrite land_mask32, Z.mod_small by lia. reflexivity.
  - rewrite reg_set_reg_eq
      by (repeat (rewrite ?length_regs_set_reg; cbn [regs set_memory]); rewrite Hl; lia).
    subst sp. lia.
  - assert (U1 : untouched m0 m2) by (split; reflexivity).
    change (untouched m0 m4).
    destruct U1 as [A1 B1], Hu3 as [A3 B3], Hu4 as [A4 B4].
    split; [rewrite A4, A3; exact A1 | rewrite B4, B3; exact B1].
Qed.

End StoreMultiple.

Lemma stmfd_then_ldmfd_exchanges_registers_witness :
  let m := final (SimARMMemory.local_ram 0x2000000 0x20000ff (SimARMMemory.init quiet_device)) in
  let s := SimARM.set_reg 1 0x22 (SimARM.set_reg 0 0x11
             (SimARM.set_reg 13 0x2000100 (SimARM.reset m 0))) in
  length (SimARM.regs s) = 16%nat
  /\ 0 <= SimARM.reg 0 s < 2 ^ 32 /\ 0 <= SimARM.reg 1 s < 2 ^ 32
  /\ 0x200000 <= SimARM.reg 13 s - 8
  /\ present (SimARMMemory.local_addresses (SimARM.memory s)) (SimARM.reg 13 s - 8) 4 = true
  /\ present (SimARMMemory.local_addresses (SimARM.memory s)) (SimARM.reg 13 s - 4) 4 = true
  /\ exists s',
       (run_op (SimARM.ldstm_op "st" "fd") (instr_of 0 4 "stmfd" "sp!, {r0, r1}" None) ;;
        run_op (SimARM.ldstm_op "ld" "fd") (instr_of 4 8 "ldmfd" "sp!, {r0, r1}" None)) s
       = Ok tt s'
       /\ SimARM.reg 0 s' = 0x22 /\ SimARM.reg 1 s' = 0x11 /\ SimARM.reg 13 s' = 0x2000100.
Proof.
  intros m s.
  assert (Hl : length (SimARM.regs s) = 16%nat) by reflexivity.
  assert (H0 : 0 <= SimARM.reg 0 s < 2 ^ 32) by (vm_compute; split; [discriminate|reflexivity]).
  assert (H1 : 0 <= SimARM.reg 1 s < 2 ^ 32) by (vm_compute; split; [discriminate|reflexivity]).
  assert (Hsp : 0x200000 <= SimARM.reg 13 s - 8) by (vm_compute; discriminate).
  assert (Hp0 : present (SimARMMemory.local_addresses (SimARM.memory s))
                  (SimARM.reg 13 s - 8) 4 = true) by (vm_compute; reflexivity).
  assert (Hp1 : present (SimARMMemory.local_addresses (SimARM.memory s))
                  (SimARM.reg 13 s - 4) 4 = true) by (vm_compute; reflexivity).
  split; [exact Hl|]. split; [exact H0|]. split; [exact H1|]. split; [exact Hsp|].
  split; [exact Hp0|]. split; [exact Hp1|].
  destruct (stmfd_then_ldmfd_exchanges_registers s 0 4 None Hl H0 H1 Hsp Hp0 Hp1)
    as (s' & E & R0 & R1 & R13 & _).
  exists s'. split; [|split; [exact R0|split; [exact R1|exact R13]]].
  exact E.
Defined.
